(** * Recommendation notebooks: a shallow embedding and its properties

    Two notebooks are modelled:
    - [MovieLens]  : the collaborative-filtering notebook (id encoding,
                     rating normalisation, top-10 selection);
    - [Santander]  : the product-recommendation notebook (feature
                     imputation, month joins, label construction, top-K
                     selection and the output table).

    Conventions.  A float64/float32 cell that is read from a CSV file is a
    rational ([Q]); a missing cell (NaN) is [None].  An [int64] id is a [Z].
    A Python [dict] is a [gmap]; a pandas column is a [list]. *)

From Stdlib Require Import ZArith QArith Lia Lqa Ascii String.
From stdpp Require Import base option list sorting gmap strings pretty.

Local Open Scope nat_scope.
#[local] Set Warnings "-clear-no-such-hyp".

(** ** Shared helpers *)

(** [enumerate(l)] of Python, started at [k]. *)
Fixpoint enumerate_from {A} (k : nat) (l : list A) : list (nat * A) :=
  match l with
  | [] => []
  | x :: l' => (k, x) :: enumerate_from (S k) l'
  end.

Definition enumerate {A} (l : list A) : list (nat * A) := enumerate_from 0 l.

(** [Series.unique()]: the distinct values in order of first appearance.
    [seen] is the table of values met so far. *)
Fixpoint unique_from `{EqDecision A} (seen : list A) (l : list A) : list A :=
  match l with
  | [] => []
  | x :: l' =>
      if bool_decide (x ∈ seen) then unique_from seen l'
      else x :: unique_from (x :: seen) l'
  end.

Definition unique `{EqDecision A} (l : list A) : list A := unique_from [] l.

(** Strict comparison of two floats, [a < b]. *)
Definition Qltb (a b : Q) : bool := negb (Qle_bool b a).

(** [a <= b] on floats can be decided. *)
#[global] Instance Qle_decision (a b : Q) : Decision (a <= b)%Q :=
  match Qlt_le_dec b a with
  | left H => right (Qlt_not_le _ _ H)
  | right H => left H
  end.

(** The sum of a list of floats. *)
Definition Qsum (l : list Q) : Q := foldr Qplus 0%Q l.

(** *** Slices *)

(** [a[:stop:-1]]: from the last item down to, not including, the item at
    [stop].  A negative [stop] counts from the end; what is still negative
    then means "before the first item". *)
Definition slice_down_to {A} (a : list A) (stop : Z) : list A :=
  let len := Z.of_nat (length a) in
  let stop := if (stop <? 0)%Z then (stop + len)%Z else stop in
  let stop :=
    if (stop <? 0)%Z then (-1)%Z
    else if (len <=? stop)%Z then (len - 1)%Z else stop in
  let start := (len - 1)%Z in
  take (Z.to_nat (start - stop)) (reverse a).

(** [a[start:]] *)
Definition slice_from {A} (a : list A) (start : Z) : list A :=
  let len := Z.of_nat (length a) in
  let start := if (start <? 0)%Z then (start + len)%Z else start in
  let start :=
    if (start <? 0)%Z then 0%Z
    else if (len <=? start)%Z then len else start in
  drop (Z.to_nat start) a.

(** *** Ranking by predicted score *)

(** [v[i]] for an index produced by [argsort]. *)
Definition score_at (v : list Q) (i : nat) : Q := nth i v 0%Q.

(** What [numpy.argsort] promises on a row without NaN: the indices of the
    row, each once, in an order in which the scores do not decrease.  The
    order among equal scores is left open (the default sort is not
    stable). *)
Record is_argsort (v : list Q) (idx : list nat) : Prop := {
  argsort_perm : idx ≡ₚ seq 0 (length v);
  argsort_sorted : ∀ i j a b,
    i ≤ j → idx !! i = Some a → idx !! j = Some b →
    (score_at v a <= score_at v b)%Q
}.

(** One function that keeps the promise: insertion of the indices from the
    right, an index going before the indices of equal score that follow. *)
Fixpoint insert_index (v : list Q) (i : nat) (idx : list nat) : list nat :=
  match idx with
  | [] => [i]
  | j :: idx' =>
      if Qle_bool (score_at v i) (score_at v j) then i :: idx
      else j :: insert_index v i idx'
  end.

Definition argsort (v : list Q) : list nat :=
  foldr (insert_index v) [] (seq 0 (length v)).

(** [sel] holds the [K] best indices of the row [v] (all of them when the
    row is shorter), best first: no index twice, scores not increasing along
    [sel], and no index left out scores higher than a selected one. *)
Definition top_k (K : nat) (v : list Q) (sel : list nat) : Prop :=
  length sel = K `min` length v
  ∧ NoDup sel
  ∧ (∀ i, i ∈ sel → i < length v)
  ∧ (∀ j a b, sel !! j = Some a → sel !! S j = Some b →
       (score_at v b <= score_at v a)%Q)
  ∧ (∀ i s, i < length v → i ∉ sel → s ∈ sel →
       (score_at v i <= score_at v s)%Q).

Module MovieLens.

(** *** Id encoding *)

(** [{x: i for i, x in enumerate(ids)}]: the items are inserted from left
    to right, a later item overwrites an earlier one with the same key. *)
Definition index_of_id (ids : list Z) : gmap Z nat :=
  foldl (λ d ix, <[ix.2 := ix.1]> d) ∅ (enumerate ids).

(** [{i: x for i, x in enumerate(ids)}] *)
Definition id_of_index (ids : list Z) : gmap nat Z :=
  foldl (λ d ix, <[ix.1 := ix.2]> d) ∅ (enumerate ids).

Definition user_ids (userId : list Z) : list Z := unique userId.
Definition user2user_encoded (userId : list Z) : gmap Z nat :=
  index_of_id (user_ids userId).
Definition userencoded2user (userId : list Z) : gmap nat Z :=
  id_of_index (user_ids userId).

Definition movie_ids (movieId : list Z) : list Z := unique movieId.
Definition movie2movie_encoded (movieId : list Z) : gmap Z nat :=
  index_of_id (movie_ids movieId).
Definition movie_encoded2movie (movieId : list Z) : gmap nat Z :=
  id_of_index (movie_ids movieId).

Definition num_users (userId : list Z) : nat := size (user2user_encoded userId).
Definition num_movies (movieId : list Z) : nat := size (movie_encoded2movie movieId).

(** [df["user"] = df["userId"].map(user2user_encoded)]: a key that is not in
    the dict gives a missing cell. *)
Definition map_column (d : gmap Z nat) (col : list Z) : list (option nat) :=
  (λ x, d !! x) <$> col.

(** [enc] and [dec] number the distinct values of the column [raw] with
    [0 .. n-1], [n] the number of distinct values, and are inverse to each
    other. *)
Definition dense_bijection
    (raw : list Z) (enc : gmap Z nat) (dec : gmap nat Z) (n : nat) : Prop :=
  n = size (list_to_set raw : gset Z)
  ∧ (∀ x, x ∈ raw → ∃ i, enc !! x = Some i ∧ i < n ∧ dec !! i = Some x)
  ∧ (∀ i, i < n → ∃ x, dec !! i = Some x ∧ x ∈ raw ∧ enc !! x = Some i)
  ∧ (∀ x, x ∉ raw → enc !! x = None)
  ∧ (∀ i, n ≤ i → dec !! i = None).

(** *** Rating normalisation *)

(** The builtin [min] over a column: the first smallest item; [None] is the
    [ValueError] on an empty column. *)
Definition py_min (l : list Q) : option Q :=
  match l with
  | [] => None
  | x :: l' => Some (foldl (λ m v, if Qltb v m then v else m) x l')
  end.

Definition py_max (l : list Q) : option Q :=
  match l with
  | [] => None
  | x :: l' => Some (foldl (λ m v, if Qltb m v then v else m) x l')
  end.

(** A float division; [None] is the undefined quotient of a zero divisor. *)
Definition float_div (a b : Q) : option Q :=
  if Qeq_bool b 0 then None else Some (a / b)%Q.

(** [lambda x: (x - min_rating) / (max_rating - min_rating)] *)
Definition normalize (min_rating max_rating x : Q) : option Q :=
  float_div (x - min_rating) (max_rating - min_rating).

(** [y = df["rating"].apply(...)]. *)
Definition y (min_rating max_rating : Q) (rating : list Q) : list (option Q) :=
  normalize min_rating max_rating <$> rating.

(** *** Recommendation *)

(** [top_ratings_indices = ratings.argsort()[-10:][::-1]], [order] being
    the result of [ratings.argsort()]. *)
Definition top_ratings_indices (order : list nat) : list nat :=
  reverse (slice_from order (-10)).

(** *** The network *)

(** The weights of [RecommenderNet]: [Embedding(num_users, embedding_size)]
    is a table of [num_users] rows of [embedding_size] numbers, and
    [Embedding(num_users, 1)] one number per user. *)
Record RecommenderNet := {
  user_embedding : list (list Q);
  user_bias : list Q;
  movie_embedding : list (list Q);
  movie_bias : list Q
}.

(** The shape the constructor gives to the tables. *)
Definition built (net : RecommenderNet) (num_users num_movies size : nat) : Prop :=
  length (user_embedding net) = num_users
  ∧ length (user_bias net) = num_users
  ∧ length (movie_embedding net) = num_movies
  ∧ length (movie_bias net) = num_movies
  ∧ Forall (λ v, length v = size) (user_embedding net)
  ∧ Forall (λ v, length v = size) (movie_embedding net).

(** A layer [Embedding] applied to a column of indices: the rows of the
    table at these indices.  [None] is the error of an index outside the
    table. *)
Definition embedding {A} (table : list A) (ids : list nat) : option (list A) :=
  mapM (λ i, table !! i) ids.

(** The sum of the products of the entries of two vectors. *)
Definition dot (u m : list Q) : Q := Qsum (zip_with Qmult u m).

(** [tf.tensordot(a, b, 2)] on two matrices of the same shape: the sum runs
    over both axes, the result is one number. *)
Definition tensordot2 (a b : list (list Q)) : Q := Qsum (zip_with dot a b).

(** [x] in [call]: [inputs] is a batch of rows [(user, movie)].  The number
    [dot_user_movie] is added to every row of the two bias columns. *)
Definition call_x (net : RecommenderNet) (inputs : list (nat * nat))
    : option (list Q) :=
  user_vector ← embedding (user_embedding net) (fst <$> inputs);
  user_bias ← embedding (user_bias net) (fst <$> inputs);
  movie_vector ← embedding (movie_embedding net) (snd <$> inputs);
  movie_bias ← embedding (movie_bias net) (snd <$> inputs);
  let dot_user_movie := tensordot2 user_vector movie_vector in
  Some (zip_with (λ bu bm, dot_user_movie + bu + bm)%Q user_bias movie_bias).

(** [call(inputs)], given the function [tf.nn.sigmoid]. *)
Definition call (sigmoid : Q → Q) (net : RecommenderNet)
    (inputs : list (nat * nat)) : option (list Q) :=
  match call_x net inputs with
  | Some x => Some (sigmoid <$> x)
  | None => None
  end.

(** The part of one row [(user, movie)] in [dot_user_movie]: the product
    of the vector of the user and of the vector of the movie. *)
Definition pair_dot (net : RecommenderNet) (p : nat * nat) : Q :=
  dot (default [] (user_embedding net !! p.1))
      (default [] (movie_embedding net !! p.2)).

(** *** The recommendation cell *)

(** [movies_watched_by_user.movieId.values], a row of [df] being the pair
    of its [userId] and its [movieId]. *)
Definition movies_watched_by_user (df : list (Z * Z)) (user_id : Z) : list Z :=
  snd <$> filter (λ r, r.1 = user_id) df.

(** [movie_df[~movie_df["movieId"].isin(watched)]["movieId"]], [catalog]
    being the column [movieId] of [movie_df]. *)
Definition not_watched_column (catalog watched : list Z) : list Z :=
  filter (λ m, m ∉ watched) catalog.

(** [set(movies_not_watched).intersection(set(movie2movie_encoded.keys()))] *)
Definition candidate_set (catalog watched : list Z) (enc : gmap Z nat) : gset Z :=
  list_to_set (not_watched_column catalog watched) ∩ dom enc.

(** [list(s)] of a set: its items, each once, in the order of the
    iteration over the set, which is left open. *)
Definition is_list_of (s : gset Z) (l : list Z) : Prop :=
  NoDup l ∧ ∀ x, x ∈ l ↔ x ∈ s.

(** [[[movie2movie_encoded.get(x)] for x in movies_not_watched]]: [get]
    gives [None] for a key that is not in the dict. *)
Definition encode_candidates (enc : gmap Z nat) (candidates : list Z)
    : list (option nat) :=
  (λ x, enc !! x) <$> candidates.

(** [[movie_encoded2movie.get(movies_not_watched[x][0]) for x in
    top_ratings_indices]]: the outer [None] is the [IndexError] of
    [movies_not_watched[x]], an inner [None] the result of [get]. *)
Definition recommended_movie_ids (dec : gmap nat Z)
    (movies_not_watched : list (option nat)) (top : list nat)
    : option (list (option Z)) :=
  mapM (λ x, match movies_not_watched !! x with
             | Some c => Some (c ≫= λ i, dec !! i)
             | None => None
             end) top.

(** [movie_df[movie_df["movieId"].isin(recommended_movie_ids)]], the
    column [movieId] of the rows that are printed. *)
Definition recommended_movies (catalog : list Z) (ids : list (option Z))
    : list Z :=
  filter (λ m, Some m ∈ ids) catalog.

End MovieLens.

Module Santander.

(** *** Cells *)

(** A numeric cell: a float, or [None] for a missing value (NaN). *)
Abbreviation cell := (option Q) (only parsing).

(** A cell of a column as the CSV reader leaves it: text, a number, or a
    missing value. *)
Inductive pyobj :=
  | PStr (s : string)
  | PNum (q : Q)
  | PNaN.

Definition is_str (o : pyobj) : bool :=
  match o with PStr _ => true | _ => false end.

(** [fillna(v)] on one cell. *)
Definition fillna (v : Q) (c : cell) : cell :=
  match c with None => Some v | Some q => Some q end.

Definition dropna (col : list cell) : list Q := omap id col.

(** *** The products *)

Definition products : list string :=
  [ "ind_ahor_fin_ult1"; "ind_aval_fin_ult1"; "ind_cco_fin_ult1";
    "ind_cder_fin_ult1"; "ind_cno_fin_ult1"; "ind_ctju_fin_ult1";
    "ind_ctma_fin_ult1"; "ind_ctop_fin_ult1"; "ind_ctpp_fin_ult1";
    "ind_deco_fin_ult1"; "ind_deme_fin_ult1"; "ind_dela_fin_ult1";
    "ind_ecue_fin_ult1"; "ind_fond_fin_ult1"; "ind_hip_fin_ult1";
    "ind_plan_fin_ult1"; "ind_pres_fin_ult1"; "ind_reca_fin_ult1";
    "ind_tjcr_fin_ult1"; "ind_valo_fin_ult1"; "ind_viv_fin_ult1";
    "ind_nomina_ult1"; "ind_nom_pens_ult1"; "ind_recibo_ult1" ].

Definition rec_products : list string :=
  [ "ind_recibo_ult1"; "ind_cco_fin_ult1"; "ind_nom_pens_ult1";
    "ind_nomina_ult1"; "ind_tjcr_fin_ult1"; "ind_ecue_fin_ult1";
    "ind_cno_fin_ult1"; "ind_ctma_fin_ult1"; "ind_reca_fin_ult1";
    "ind_ctop_fin_ult1"; "ind_ctpp_fin_ult1"; "ind_valo_fin_ult1" ].

(** *** Rows of the CSV files *)

(** The customer columns that [get_features] reads, as they come out of the
    CSV reader. *)
Module Raw.
Record client := {
  ncodpers : Z;
  ind_empleado : option string;
  sexo : option string;
  age : pyobj;
  antiguedad : pyobj;
  tiprel_1mes : option string;
  segmento : option string;
  indfall : option string;
  cod_prov : cell;
  ind_actividad_cliente : cell;
  renta : pyobj
}.
End Raw.

(** A row of the training file: the month, the customer and one ownership
    flag per product name. *)
Record train_row := {
  fecha_dato : string;
  who : Raw.client;
  flag : string → cell
}.

Definition ncodpers (r : train_row) : Z := Raw.ncodpers (who r).

(** A row of a feature table: the customer id and the numeric columns. *)
Record feature_row := {
  f_ncodpers : Z;
  f_cells : list cell
}.

(** *** Joins *)

(** [pd.merge(left, right, how='left', on='ncodpers')]: the rows of [left]
    in their order, each paired with every row of [right] that has its key,
    or with nothing when no row of [right] has it. *)
Definition merge_left {L R} (keyL : L → Z) (keyR : R → Z)
    (left : list L) (right : list R) : list (L * option R) :=
  left ≫= λ l,
    match filter (λ r, keyR r = keyL l) right with
    | [] => [(l, None)]
    | matches => (λ r, (l, Some r)) <$> matches
    end.

(** [get_data_by_month(dates, months, ...)]: [ids] are the positions of the
    rows of the wanted months; the rows read are the [len(ids)] rows from
    [ids[0]] on.  [None] is the [IndexError] of [ids[0]] when no row is
    of a wanted month. *)
Definition get_data_by_month (train : list train_row) (months : list string)
    : option (list train_row) :=
  let dates := fecha_dato <$> train in
  let ids := fst <$> filter (λ ix, ix.2 ∈ months) (enumerate dates) in
  i0 ← head ids;
  Some (take (length ids) (drop i0 train)).

(** *** Labels *)

(** [np.intersect1d]: the sorted common values, each once. *)
Definition intersect1d (a b : list Z) : list Z :=
  merge_sort Z.le (unique (filter (λ x, x ∈ b) a)).

(** The columns of [added] besides [ncodpers]. *)
Definition label_table : Type := list (string * list Q).

(** The zero-filled flags [pr_x] and [pr_y] of a row of [merged]. *)
Definition flag_x (pr : string) (m : train_row * option train_row) : Q :=
  default 0%Q (flag m.1 pr).
Definition flag_y (pr : string) (m : train_row * option train_row) : Q :=
  default 0%Q (m.2 ≫= λ r, flag r pr).

(** An ownership flag: missing, 0 or 1. *)
Definition is_flag (c : cell) : Prop :=
  match c with
  | None => True
  | Some q => (q == 0)%Q ∨ (q == 1)%Q
  end.

(** [added.loc[added[pr] == -1, pr] = 0] on one entry. *)
Definition clip_dropped (d : Q) : Q := if Qeq_bool d (-1) then 0%Q else d.

Definition get_new_products (data pdata : list train_row) : label_table :=
  let intsec := intersect1d (ncodpers <$> data) (ncodpers <$> pdata) in
  let merged := merge_left ncodpers ncodpers data pdata in
  foldl (λ added pr,
           let delta := (λ m, (flag_x pr m - flag_y pr m)%Q) <$> merged in
           added ++ [(pr, clip_dropped <$> delta)])
        [] rec_products.

(** *** Features of the prior months *)

(** One step of the loop of [get_temp_features]: the left join with the
    rows of one month, then [fillna(0)] on the whole table. *)
Definition join_month (merged : list feature_row) (temp_data : list train_row)
    : list feature_row :=
  (λ m : feature_row * option train_row,
     let right :=
       match m.2 with
       | Some r => flag r <$> products
       | None => replicate (length products) None
       end in
     {| f_ncodpers := f_ncodpers m.1;
        f_cells := fillna 0 <$> (f_cells m.1 ++ right) |})
  <$> merge_left f_ncodpers ncodpers merged temp_data.

Fixpoint get_temp_features (train : list train_row)
    (merged : list feature_row) (months : list string)
    : option (list feature_row) :=
  match months with
  | [] => Some merged
  | month :: months' =>
      temp_data ← get_data_by_month train [month];
      get_temp_features train (join_month merged temp_data) months'
  end.

(** [r'] is the row [r] after [k] joins: same customer, the old cells with
    zeros for the missing ones, then the cells of [k] months. *)
Definition extends_row (k : nat) (r r' : feature_row) : Prop :=
  f_ncodpers r' = f_ncodpers r
  ∧ ∃ extra, f_cells r' = (fillna 0 <$> f_cells r) ++ extra
             ∧ length extra = k * length products.

(** The product cells that the join with the table of one month gives a
    row: the flags of the row [o] of the customer in that month, zero where
    a flag is missing, and zeros when the customer has no row there. *)
Definition month_cells (o : option train_row) : list cell :=
  fillna 0 <$> match o with
               | Some p => flag p <$> products
               | None => replicate (length products) None
               end.

(** [o] is a row of the customer [k] in the table [t] of a month, or
    nothing when [t] has no row of the customer. *)
Definition matches_month (k : Z) (t : list train_row) (o : option train_row)
    : Prop :=
  match o with
  | Some p => p ∈ t ∧ ncodpers p = k
  | None => ∀ p, p ∈ t → ncodpers p ≠ k
  end.

(** The row [r] after the joins that pair it with the rows [choice], one
    per month: same customer, the old cells with zeros for the missing
    ones, then the product cells of each month in turn. *)
Definition joined_row (r : feature_row) (choice : list (option train_row))
    : feature_row :=
  {| f_ncodpers := f_ncodpers r;
     f_cells := (fillna 0 <$> f_cells r) ++ concat (month_cells <$> choice) |}.

(** *** Text to numbers *)

(** The ASCII characters that [str.strip()] and [int()] remove. *)
Definition is_space (c : ascii) : bool :=
  let n := nat_of_ascii c in
  ((9 <=? n) && (n <=? 13)) || ((28 <=? n) && (n <=? 32)).

Fixpoint lstrip (s : string) : string :=
  match s with
  | EmptyString => EmptyString
  | String c s' => if is_space c then lstrip s' else s
  end.

Definition strip (s : string) : string :=
  String.rev (lstrip (String.rev (lstrip s))).

Definition digit_of (c : ascii) : option Z :=
  let n := nat_of_ascii c in
  if (48 <=? n) && (n <=? 57) then Some (Z.of_nat n - 48)%Z else None.

(** The digits of a decimal literal; a single underscore may stand between
    two digits.  [after_digit] tells whether the previous character was a
    digit. *)
Fixpoint int_digits (acc : Z) (after_digit : bool) (s : string) : option Z :=
  match s with
  | EmptyString => if after_digit then Some acc else None
  | String c s' =>
      match digit_of c with
      | Some d => int_digits (10 * acc + d) true s'
      | None =>
          if Ascii.eqb c "_" && after_digit then int_digits acc false s'
          else None
      end
  end.

(** [int(s)] on text (ASCII): surrounding blanks, a sign, decimal digits.
    [None] is the [ValueError]. *)
Definition py_int (s : string) : option Z :=
  match strip s with
  | String "+" r => int_digits 0 false r
  | String "-" r => Z.opp <$> int_digits 0 false r
  | r => int_digits 0 false r
  end.

(** *** Column statistics *)

Fixpoint insert_sorted (x : Q) (l : list Q) : list Q :=
  match l with
  | [] => [x]
  | y :: l' => if Qle_bool x y then x :: l else y :: insert_sorted x l'
  end.

Definition sort_values (l : list Q) : list Q := foldr insert_sorted [] l.

(** [Series.median()] of the values that are present: the middle value, or
    the mean of the two middle values; missing when there is no value. *)
Definition median (col : list cell) : cell :=
  let s := sort_values (dropna col) in
  let n := length s in
  if n =? 0 then None
  else if Nat.odd n then s !! (n / 2)
  else a ← s !! (n / 2 - 1); b ← s !! (n / 2); Some ((a + b) / 2)%Q.

(** [Series.max()] of the values that are present. *)
Definition col_max (col : list cell) : cell :=
  match dropna col with
  | [] => None
  | x :: l => Some (foldl (λ m v, if Qltb m v then v else m) x l)
  end.

(** [col.fillna(v)] where [v] itself may be missing. *)
Definition fillna_with (v : cell) (col : list cell) : list cell :=
  (λ c, match c with None => v | Some q => Some q end) <$> col.

(** *** Conversion of [age] and [antiguedad] *)

(** The column has the [object] dtype when the reader met text in it, and
    a numeric dtype otherwise. *)
Definition is_object (col : list pyobj) : bool := existsb is_str col.

Definition as_number (o : pyobj) : cell :=
  match o with PNum q => Some q | _ => None end.

(** One cell of an [object] column through [.str.strip()] and
    [.map(lambda x: None if x=='NA' else int(x))].  A cell that is not text
    is made NaN by [.str.strip()], on which [int] raises. *)
Definition int_or_NA (o : pyobj) : option cell :=
  match o with
  | PStr s =>
      let x := strip s in
      if String.eqb x "NA" then Some None
      else z ← py_int x; Some (Some (inject_Z z))
  | _ => None
  end.

(** Text that the conversion accepts: [NA] or an integer literal, with
    blanks around it. *)
Definition int_text (o : pyobj) : Prop :=
  ∃ s, o = PStr s ∧ (strip s = "NA"%string ∨ is_Some (py_int (strip s))).

(** [if col.dtype != np.int64 and col.dtype != np.float64: ...] *)
Definition int_column (col : list pyobj) : option (list cell) :=
  if is_object col then mapM int_or_NA col else Some (as_number <$> col).

(** [data.antiguedad[data.antiguedad<0] = data.antiguedad.max()] *)
Definition replace_negative (col : list cell) : list cell :=
  let top := col_max col in
  (λ c, match c with
        | Some q => if Qltb q 0 then top else Some q
        | None => None
        end) <$> col.

(** *** The table [data] after the conversions *)

Module Data.
Record client := {
  ncodpers : Z;
  isEmployed : Q;
  sexo : Q;
  age : cell;
  antiguedad : cell;
  indfall : Q;
  ind_actividad_cliente : cell;
  renta : cell;
  tiprel_1mes : string;
  segmento : string;
  cod_prov : cell
}.

Definition set_renta (r : client) (v : cell) : client :=
  {| ncodpers := ncodpers r; isEmployed := isEmployed r; sexo := sexo r;
     age := age r; antiguedad := antiguedad r; indfall := indfall r;
     ind_actividad_cliente := ind_actividad_cliente r; renta := v;
     tiprel_1mes := tiprel_1mes r; segmento := segmento r;
     cod_prov := cod_prov r |}.
End Data.

(** [data.segmento.fillna('02 - PARTICULARES')] then [x[:2]]. *)
Definition segment_of (r : Raw.client) : string :=
  substring 0 2 (default "02 - PARTICULARES" (Raw.segmento r)).

Section Features.
(** The reading of a float out of text by [pd.to_numeric]; missing when
    the text is not a number. *)
Variable parse_float : string → cell.

(** [pd.to_numeric(col, errors='coerce')] on one cell. *)
Definition to_numeric (o : pyobj) : cell :=
  match o with
  | PStr s => parse_float s
  | PNum q => Some q
  | PNaN => None
  end.

(** The row-wise conversions; [antig] and [years] are the cells of the
    row in the converted [antiguedad] and [age] columns. *)
Definition convert (r : Raw.client) (antig years : cell) : Data.client :=
  {| Data.ncodpers := Raw.ncodpers r;
     Data.isEmployed :=
       if bool_decide (Raw.ind_empleado r = Some "N"
                       ∨ Raw.ind_empleado r = Some "S") then 0 else 1;
     Data.sexo := if bool_decide (Raw.sexo r = Some "H") then 0 else 1;
     Data.age := years;
     Data.antiguedad := antig;
     Data.indfall :=
       if bool_decide (default "N" (Raw.indfall r) = "S") then 1 else 0;
     Data.ind_actividad_cliente := Raw.ind_actividad_cliente r;
     Data.renta := to_numeric (Raw.renta r);
     Data.tiprel_1mes := default "I" (Raw.tiprel_1mes r);
     Data.segmento := segment_of r;
     Data.cod_prov := fillna 99 (Raw.cod_prov r) |}.

(** [data[data.segmento==seg]['renta'].dropna().median()] *)
Definition segment_median (data : list Data.client) (seg : string) : cell :=
  median (Data.renta <$> filter (λ r, Data.segmento r = seg) data).

(** One round of the loop over the segments. *)
Definition impute_segment (seg : string) (data : list Data.client)
    : list Data.client :=
  let med := segment_median data seg in
  (λ r, if bool_decide (Data.renta r = None ∧ Data.segmento r = seg)
        then Data.set_renta r med else r) <$> data.

(** The table once the segments [past] have had their round: a row without
    [renta] of one of these segments has the median of its segment in the
    table [data] the loop started from. *)
Definition imputed (past : list string) (data : list Data.client)
    : list Data.client :=
  (λ r, if bool_decide (Data.renta r = None ∧ Data.segmento r ∈ past)
        then Data.set_renta r (segment_median data (Data.segmento r))
        else r) <$> data.

(** [for seg in data.segmento.unique(): ...] *)
Definition impute_renta (data : list Data.client) : list Data.client :=
  foldl (λ data seg, impute_segment seg data) data
    (unique (Data.segmento <$> data)).

(** The table before the loop over the segments. *)
Definition converted (data : list Raw.client) : option (list Data.client) :=
  antig ← int_column (Raw.antiguedad <$> data);
  let antig := replace_negative antig in
  let antig := fillna_with (median antig) antig in
  years ← int_column (Raw.age <$> data);
  let years := fillna_with (median years) years in
  Some (zip_with (λ r ay, convert r ay.1 ay.2) data (zip antig years)).

(** The values of [renta] that are present in the segment [seg], as the
    loop finds them. *)
Definition segment_rentas (data : list Raw.client) (seg : string) : list cell :=
  (λ r, to_numeric (Raw.renta r)) <$> filter (λ r, segment_of r = seg) data.

(** The state of [data] when [Xclient] is built. *)
Definition prepare (data : list Raw.client) : option (list Data.client) :=
  impute_renta <$> converted data.

(** [pd.get_dummies(col)]: one 0/1 column per value of the column, the
    values in increasing order; here the cells of each row. *)
Definition get_dummies (col : list string) : list (list cell) :=
  let values := merge_sort String.le (unique col) in
  (λ v, (λ c, Some (if bool_decide (v = c) then 1 else 0)%Q) <$> values)
  <$> col.

Definition Xclient (data : list Data.client) : list feature_row :=
  zip_with (λ r dummies,
      {| f_ncodpers := Data.ncodpers r;
         f_cells :=
           [ Some (Data.isEmployed r); Some (Data.sexo r); Data.age r;
             Data.antiguedad r; Some (Data.indfall r);
             Data.ind_actividad_cliente r; Data.renta r ] ++ dummies |})
    data
    (zip_with app (get_dummies (Data.tiprel_1mes <$> data))
                  (get_dummies (Data.segmento <$> data))).

(** [None] is the exception raised by a conversion. *)
Definition get_features (data : list Raw.client) (pdata : list train_row)
    : option (list feature_row) :=
  data ← prepare data;
  Some (join_month (Xclient data) pdata).
End Features.

(** *** Ranking *)

(** [probs = np.array(probs).T]: [probs] holds one vector of predictions per
    product, each with one entry per row of the feature table ([n] rows);
    the transpose has one row per customer. *)
Definition transpose (n : nat) (probs : list (list Q)) : list (list Q) :=
  (λ r, (λ col, score_at col r) <$> probs) <$> seq 0 n.

(** [likeliestprods = np.argsort(probs, axis=1)[:, :-8:-1]] on the
    validation rows; [order] is the result of [np.argsort(probs, axis=1)]. *)
Definition likeliestprods (order : list (list nat)) : list (list nat) :=
  (λ row, slice_down_to row (-8)) <$> order.

(** [likeliestprods = np.argsort(probs, axis=1)[:, :-6:-1]] on the test
    rows. *)
Definition likeliestprods_test (order : list (list nat)) : list (list nat) :=
  (λ row, slice_down_to row (-6)) <$> order.

(** [[[rec_products[j] for j in row] for row in likeliestprods]]; [None] is
    the [IndexError] of an index outside [rec_products]. *)
Definition product_names (likeliest : list (list nat))
    : option (list (list string)) :=
  mapM (mapM (λ j, rec_products !! j)) likeliest.

Definition prlist (order : list (list nat)) : option (list (list string)) :=
  product_names (likeliestprods order).

Definition test_preds (order : list (list nat)) : option (list (list string)) :=
  product_names (likeliestprods_test order).

(** [codes] are the five product codes of the selected indices [sel]. *)
Definition codes_of (sel : list nat) (codes : list string) : Prop :=
  length codes = 5
  ∧ NoDup codes
  ∧ Forall2 (λ j c, rec_products !! j = Some c) sel codes.

(** *** The output table *)

(** [np.array(rows)[:, i]]: the rows have to form a rectangle of at least
    one row and more than [i] columns; [None] is the [IndexError]
    otherwise. *)
Definition array_column (rows : list (list string)) (i : nat)
    : option (list string) :=
  match rows with
  | [] => None
  | r0 :: _ =>
      if bool_decide (Forall (λ r, length r = length r0) rows)
      then mapM (λ r, r !! i) rows
      else None
  end.

Record out_frame := {
  out_id : list Z;
  out_p : list (string * list string)
}.

(** The frame that is written to [output.csv]: the ids, then the columns
    [p0] .. [p4].  A column of another length than [id] cannot be assigned
    ([None], the [ValueError]). *)
Definition out (ids : list Z) (test_preds : list (list string))
    : option out_frame :=
  cols ← mapM (λ i,
            col ← array_column test_preds i;
            if bool_decide (length col = length ids)
            then Some (("p" +:+ pretty i)%string, col) else None)
          (seq 0 5);
  Some {| out_id := ids; out_p := cols |}.

(** *** The months of the training file *)

Definition months : list string :=
  [ "2015-01-28"; "2015-02-28"; "2015-03-28"; "2015-04-28"; "2015-05-28";
    "2015-06-28"; "2015-07-28"; "2015-08-28"; "2015-09-28"; "2015-10-28";
    "2015-11-28"; "2015-12-28"; "2016-01-28"; "2016-02-28"; "2016-03-28";
    "2016-04-28"; "2016-05-28" ].

(** [l.index(x)]: the position of the first item equal to [x]; [None] is
    the [ValueError] when there is none. *)
Definition py_index (l : list string) (x : string) : option nat :=
  fst <$> list_find (λ y, y = x) l.

(** [l[i]]: a negative index counts from the end; [None] is the
    [IndexError] of an index outside the list. *)
Definition py_getitem {A} (l : list A) (i : Z) : option A :=
  let len := Z.of_nat (length l) in
  let i := if (i <? 0)%Z then (i + len)%Z else i in
  if ((i <? 0) || (len <=? i))%Z then None else l !! Z.to_nat i.

(** [months[months.index(month) - 1]] *)
Definition month_before (months : list string) (month : string)
    : option string :=
  i ← py_index months month;
  py_getitem months (Z.of_nat i - 1).

(** [temp1] .. [temp4] and [target_months = [temp1, temp2, temp3, temp4]]. *)
Definition target_months (months : list string) (pmonth : string)
    : option (list string) :=
  temp1 ← month_before months pmonth;
  temp2 ← month_before months temp1;
  temp3 ← month_before months temp2;
  temp4 ← month_before months temp3;
  Some [temp1; temp2; temp3; temp4].

(** *** Ownership *)

(** The flag says that the product is owned. *)
Definition owned (c : cell) : Prop := ∃ q, c = Some q ∧ (q == 1)%Q.

(** *** The training set *)

(** The number of rows of a label table, its columns being equally long. *)
Definition shape0 (y : label_table) : nat :=
  match y with
  | [] => 0
  | c :: _ => length c.2
  end.

(** [new_products = np.sum(ytrain, axis=1)]: the sum of every row. *)
Definition new_products (ytrain : label_table) : list Q :=
  (λ i, Qsum ((λ c, score_at c.2 i) <$> ytrain)) <$> seq 0 (shape0 ytrain).

(** [new_products != 0] *)
Definition nonzero (col : list Q) : list bool :=
  (λ s, negb (Qeq_bool s 0)) <$> col.

(** [frame[mask]] with a boolean column as key, the rows of both being
    numbered from 0: the rows of the frame at which the mask holds.  The
    mask is first aligned with the rows of the frame; [None] is the
    [IndexingError] raised when the frame has a row that the mask has
    not. *)
Definition getitem_mask {A} (frame : list A) (mask : list bool)
    : option (list A) :=
  if decide (length frame ≤ length mask)
  then Some (fst <$> filter (λ p, p.2 = true) (zip frame mask))
  else None.

(** [ytrain[mask]] on a table kept by columns. *)
Definition getitem_mask_table (y : label_table) (mask : list bool)
    : option label_table :=
  mapM (λ c, match getitem_mask c.2 mask with
             | Some col => Some (c.1, col)
             | None => None
             end) y.

(** [Xtrain = Xtrain[new_products!=0]] and
    [ytrain = ytrain[new_products!=0]]. *)
Definition training_filter (Xtrain : list (list cell)) (ytrain : label_table)
    : option (list (list cell) * label_table) :=
  let mask := nonzero (new_products ytrain) in
  match getitem_mask Xtrain mask, getitem_mask_table ytrain mask with
  | Some X, Some y => Some (X, y)
  | _, _ => None
  end.

(** The position in [mask] of its [j]-th item that holds. *)
Fixpoint nth_true (mask : list bool) (j : nat) : option nat :=
  match mask with
  | [] => None
  | true :: mask' =>
      match j with
      | 0 => Some 0
      | S j' => S <$> nth_true mask' j'
      end
  | false :: mask' => S <$> nth_true mask' j
  end.

(** [freq = ytrain.sum(axis=0)] and [freq[pr]]; [None] is the [KeyError]
    of a name that is no column. *)
Definition freq (ytrain : label_table) (pr : string) : option Q :=
  (λ c : string * list Q, Qsum c.2)
  <$> find (λ c : string * list Q, bool_decide (c.1 = pr)) ytrain.

(** [base_score = freq[pr]/Xtrain.shape[0]]: a division of floats of the
    array library, which raises nothing; the inner [None] is a quotient
    that is no number, the divisor being 0. *)
Definition base_score (Xtrain : list (list cell)) (ytrain : label_table)
    (pr : string) : option (option Q) :=
  match freq ytrain pr with
  | Some f => Some (MovieLens.float_div f (inject_Z (Z.of_nat (length Xtrain))))
  | None => None
  end.

(** *** The classifiers *)

Section Classifiers.

(** The classifiers of the boosting library: [XGBClassifier] builds one
    from [base_score] (the other arguments are constants), [fit] trains it
    on a feature table and a label column, [None] being the error that
    [clf.fit] raises, and [predict_proba1] is
    [clf.predict_proba(X)[:, 1]]. *)
Variable classifier : Type.
Variable XGBClassifier : option Q → classifier.
Variable fit : classifier → list (list cell) → list Q → option classifier.
Variable predict_proba1 : classifier → list (list cell) → list Q.

(** What the library checks when it fits a classifier with the logistic
    objective: [base_score] has to be a number strictly between 0 and 1. *)
Definition fit_checks_base_score : Prop :=
  ∀ base X col,
    is_Some (fit (XGBClassifier base) X col) →
    ∃ b, base = Some b ∧ (0 < b)%Q ∧ (b < 1)%Q.

(** [ytrain.loc[:, pr]]; [None] is the [KeyError] of a name that is no
    column. *)
Definition loc_column (ytrain : label_table) (pr : string) : option (list Q) :=
  snd <$> find (λ c : string * list Q, bool_decide (c.1 = pr)) ytrain.

(** The loop that fills [clfdict].  [clfdict[pr] = clf] stores the very
    object that [clf.fit] trains next, so the dict holds the trained
    classifier; an error of [clf.fit] ends the loop. *)
Definition train_classifiers (Xtrain : list (list cell)) (ytrain : label_table)
    : option (gmap string classifier) :=
  foldl (λ acc pr,
           match acc, base_score Xtrain ytrain pr, loc_column ytrain pr with
           | Some clfdict, Some base, Some col =>
               match fit (XGBClassifier base) Xtrain col with
               | Some clf => Some (<[pr := clf]> clfdict)
               | None => None
               end
           | _, _, _ => None
           end)
        (Some ∅) rec_products.

(** [probs] of the test set, before it is transposed: one vector per
    product; [None] is the [KeyError] of [clfdict[pr]]. *)
Definition predict_test (clfdict : gmap string classifier)
    (Xtest : list (list cell)) : option (list (list Q)) :=
  mapM (λ pr, match clfdict !! pr with
              | Some clf => Some (predict_proba1 clf Xtest)
              | None => None
              end) rec_products.
End Classifiers.

End Santander.

(** ** Sample rows *)

Module Sample.
Import Santander.

(** A customer, given the id, the age, the seniority, the income and the
    segment as the reader found them. *)
Definition client (id : Z) (years antig income : pyobj)
    (segment : option string) : Raw.client :=
  {| Raw.ncodpers := id; Raw.ind_empleado := Some "N"%string;
     Raw.sexo := Some "V"%string; Raw.age := years;
     Raw.antiguedad := antig; Raw.tiprel_1mes := None;
     Raw.segmento := segment; Raw.indfall := None;
     Raw.cod_prov := None; Raw.ind_actividad_cliente := Some 1%Q;
     Raw.renta := income |}.

(** A row of the training file for a customer who owns [owned]. *)
Definition row (month : string) (id : Z) (owned : list string) : train_row :=
  {| fecha_dato := month;
     who := client id (PNum 30) (PNum 12) (PNum 1000) None;
     flag := λ pr, Some (if bool_decide (pr ∈ owned) then 1%Q else 0%Q) |}.

(** Four customers: three of the segment 03, one of them without [renta],
    and one without segment nor [renta]. *)
Definition clients : list Raw.client :=
  [ client 1 (PStr " 35") (PStr "     NA") (PStr "NA")
      (Some "03 - UNIVERSITARIO"%string);
    client 2 (PStr " NA") (PStr "  -5") (PNum 1000)
      (Some "03 - UNIVERSITARIO"%string);
    client 3 (PStr "40") (PStr "12") (PNum 3000)
      (Some "03 - UNIVERSITARIO"%string);
    client 4 (PStr "40") (PStr "12") PNaN None ].

(** A customer whose age is text that is not a number. *)
Definition bad_age : list Raw.client :=
  [ client 1 (PStr "3O") (PNum 12) (PNum 1000) None ].

(** A reader of floats that takes no text for a number. *)
Definition no_float (s : string) : option Q := None.

(** Predictions of the twelve classifiers for four rows. *)
Definition probs : list (list Q) :=
  (λ k, [ Z.of_nat k # 12; (12 - Z.of_nat k) # 12; 1 # 2;
          Z.of_nat (k mod 3) # 3 ]) <$> seq 0 12.

Definition june : list train_row :=
  [ row "2015-06-28" 1 ["ind_recibo_ult1"%string];
    row "2015-06-28" 2 ["ind_cco_fin_ult1"%string] ].

Definition may : list train_row :=
  [ row "2015-05-28" 1 ["ind_recibo_ult1"%string; "ind_cco_fin_ult1"%string] ].

(** A network for two users and three movies, with vectors of size 2. *)
Definition net : MovieLens.RecommenderNet :=
  {| MovieLens.user_embedding := [[1; 2]; [3; 4]]%Q;
     MovieLens.user_bias := [1 # 10; 2 # 10]%Q;
     MovieLens.movie_embedding := [[1; 0]; [0; 1]; [1; 1]]%Q;
     MovieLens.movie_bias := [3 # 10; 2 # 10; 1 # 10]%Q |}.
(** A classifier that holds its predictions, one per row. *)
Definition predict_proba1 (clf : list Q) (X : list (list (option Q))) : list Q :=
  (λ i, nth i clf 0%Q) <$> seq 0 (length X).

(** One classifier per product, with the predictions [probs]. *)
Definition clfdict : gmap string (list Q) :=
  list_to_map (zip rec_products probs).

(** Classifiers that record what they were given: the [base_score] and,
    once fitted, the label column.  The fit refuses a [base_score] that is
    not strictly between 0 and 1. *)
Definition XGBClassifier (base : option Q) : option Q * list Q := (base, []).

Definition fit (clf : option Q * list Q) (X : list (list (option Q)))
    (col : list Q) : option (option Q * list Q) :=
  match clf.1 with
  | Some b => if Qltb 0 b && Qltb b 1 then Some (clf.1, col) else None
  | None => None
  end.

Definition predict (clf : option Q * list Q) (X : list (list (option Q)))
    : list Q :=
  default 0%Q clf.1 :: clf.2.

(** A label table in which every product is new for the first customer
    and not for the second. *)
Definition labels : label_table :=
  (λ pr, (pr, [1; 0]%Q)) <$> rec_products.

End Sample.

(** * Properties *)

(** ** Comparison of floats *)

Lemma Qltb_lt a b : Qltb a b = true ↔ (a < b)%Q.
Proof.
  unfold Qltb. rewrite negb_true_iff. split.
  - intros H. apply Qnot_le_lt. intros Hle.
    apply Qle_bool_iff in Hle. congruence.
  - intros H. destruct (Qle_bool b a) eqn:E; [|done].
    apply Qle_bool_iff in E. exfalso. eapply Qlt_not_le; eauto.
Qed.

Lemma Qltb_ge a b : Qltb a b = false ↔ (b <= a)%Q.
Proof.
  unfold Qltb. rewrite negb_false_iff. apply Qle_bool_iff.
Qed.

(** ** Distinct values of a column *)

Section Unique.
Context `{EqDecision A}.
Implicit Types l seen : list A.

Lemma unique_from_elem seen l x :
  x ∈ unique_from seen l ↔ x ∈ l ∧ x ∉ seen.
Proof.
  revert seen. induction l as [|a l IH]; intros seen; simpl.
  - set_solver.
  - case_bool_decide as Ha.
    + rewrite IH. set_solver.
    + rewrite elem_of_cons, IH. destruct (decide (x = a)); set_solver.
Qed.

Lemma unique_from_NoDup seen l : NoDup (unique_from seen l).
Proof.
  revert seen. induction l as [|a l IH]; intros seen; simpl.
  - constructor.
  - case_bool_decide; [apply IH|]. constructor; [|apply IH].
    rewrite unique_from_elem. set_solver.
Qed.

Lemma unique_elem l x : x ∈ unique l ↔ x ∈ l.
Proof. unfold unique. rewrite unique_from_elem. set_solver. Qed.

Lemma unique_NoDup l : NoDup (unique l).
Proof. apply unique_from_NoDup. Qed.

(** Ids are numbered in the order in which they are first met: reading one
    more row appends its id to the distinct ids unless it was met before. *)
Lemma unique_from_snoc seen l x :
  unique_from seen (l ++ [x]) =
  if bool_decide (x ∈ seen ∨ x ∈ l) then unique_from seen l
  else unique_from seen l ++ [x].
Proof.
  revert seen. induction l as [|a l IH]; intros seen; simpl.
  - destruct (decide (x ∈ seen)) as [Hx|Hx].
    + rewrite !bool_decide_eq_true_2; [done| |done]. by left.
    + rewrite !bool_decide_eq_false_2; [done| |done]. set_solver.
  - destruct (decide (a ∈ seen)) as [Ha|Ha].
    + rewrite (bool_decide_eq_true_2 _ Ha), IH.
      rewrite (bool_decide_ext (x ∈ seen ∨ x ∈ l) (x ∈ seen ∨ x ∈ a :: l))
        by set_solver.
      done.
    + rewrite (bool_decide_eq_false_2 _ Ha), IH.
      rewrite (bool_decide_ext (x ∈ a :: seen ∨ x ∈ l) (x ∈ seen ∨ x ∈ a :: l))
        by set_solver.
      by case_bool_decide.
Qed.

Lemma unique_snoc l x :
  unique (l ++ [x]) = if bool_decide (x ∈ l) then unique l else unique l ++ [x].
Proof.
  unfold unique. rewrite unique_from_snoc.
  rewrite (bool_decide_ext (x ∈ [] ∨ x ∈ l) (x ∈ l)) by set_solver. done.
Qed.

End Unique.

(** ** Id encoding (MovieLens) *)

Section Encoding.
Import MovieLens.

Lemma index_of_id_from_notin (l : list Z) (m : gmap Z nat) k x :
  x ∉ l →
  foldl (λ d ix, <[ix.2 := ix.1]> d) m (enumerate_from k l) !! x = m !! x.
Proof.
  revert m k. induction l as [|a l IH]; intros m k Hx; simpl; [done|].
  rewrite not_elem_of_cons in Hx. destruct Hx as [Hne Hx].
  rewrite IH by done. by rewrite lookup_insert_ne.
Qed.

Lemma index_of_id_from_lookup (l : list Z) (m : gmap Z nat) k i x :
  NoDup l → l !! i = Some x →
  foldl (λ d ix, <[ix.2 := ix.1]> d) m (enumerate_from k l) !! x = Some (k + i).
Proof.
  revert m k i. induction l as [|a l IH]; intros m k i Hnd Hi; [done|].
  apply NoDup_cons in Hnd as [Ha Hnd]. destruct i as [|i]; simpl in *.
  - simplify_eq. rewrite index_of_id_from_notin by done.
    rewrite lookup_insert_eq. f_equal. lia.
  - rewrite (IH _ _ i) by done. f_equal. lia.
Qed.

Lemma id_of_index_from_out (l : list Z) (m : gmap nat Z) k i :
  i < k ∨ k + length l ≤ i →
  foldl (λ d ix, <[ix.1 := ix.2]> d) m (enumerate_from k l) !! i = m !! i.
Proof.
  revert m k. induction l as [|a l IH]; intros m k Hi; simpl in *; [done|].
  rewrite IH by lia. rewrite lookup_insert_ne by lia. done.
Qed.

Lemma id_of_index_from_lookup (l : list Z) (m : gmap nat Z) k i x :
  l !! i = Some x →
  foldl (λ d ix, <[ix.1 := ix.2]> d) m (enumerate_from k l) !! (k + i) = Some x.
Proof.
  revert m k i. induction l as [|a l IH]; intros m k i Hi; [done|].
  destruct i as [|i]; simpl in *.
  - simplify_eq. rewrite id_of_index_from_out by lia.
    replace (k + 0) with k by lia. by rewrite lookup_insert_eq.
  - replace (k + S i) with (S k + i) by lia. by apply IH.
Qed.

Lemma index_of_id_Some (ids : list Z) x i :
  NoDup ids → index_of_id ids !! x = Some i ↔ ids !! i = Some x.
Proof.
  intros Hnd. unfold index_of_id, enumerate. split.
  - intros H. destruct (decide (x ∈ ids)) as [Hin|Hout].
    + apply list_elem_of_lookup in Hin as [j Hj].
      rewrite (index_of_id_from_lookup _ _ _ j) in H by done.
      by simplify_eq.
    + rewrite index_of_id_from_notin in H by done. by rewrite lookup_empty in H.
  - intros H. by rewrite (index_of_id_from_lookup _ _ _ i).
Qed.

Lemma id_of_index_Some (ids : list Z) x i :
  id_of_index ids !! i = Some x ↔ ids !! i = Some x.
Proof.
  unfold id_of_index, enumerate.
  destruct (ids !! i) as [z|] eqn:E.
  - by rewrite (id_of_index_from_lookup _ _ 0 i z E).
  - apply lookup_ge_None in E. rewrite id_of_index_from_out by lia.
    by rewrite lookup_empty.
Qed.

Lemma index_of_id_from_size (l : list Z) (m : gmap Z nat) k :
  NoDup l → (∀ x, x ∈ l → m !! x = None) →
  size (foldl (λ d ix, <[ix.2 := ix.1]> d) m (enumerate_from k l))
  = size m + length l.
Proof.
  revert m k. induction l as [|a l IH]; intros m k Hnd Hm; simpl; [lia|].
  apply NoDup_cons in Hnd as [Ha Hnd]. rewrite IH; [|done|].
  - rewrite map_size_insert_None; [lia|]. apply Hm. by left.
  - intros x Hx. rewrite lookup_insert_ne by (intros ->; done).
    apply Hm. by right.
Qed.

Lemma id_of_index_from_size (l : list Z) (m : gmap nat Z) k :
  (∀ i, k ≤ i → m !! i = None) →
  size (foldl (λ d ix, <[ix.1 := ix.2]> d) m (enumerate_from k l))
  = size m + length l.
Proof.
  revert m k. induction l as [|a l IH]; intros m k Hm; simpl; [lia|].
  rewrite IH.
  - rewrite map_size_insert_None; [lia|]. apply Hm. lia.
  - intros i Hi. rewrite lookup_insert_ne by lia. apply Hm. lia.
Qed.

Lemma index_of_id_size (ids : list Z) :
  NoDup ids → size (index_of_id ids) = length ids.
Proof.
  intros Hnd. unfold index_of_id, enumerate.
  rewrite index_of_id_from_size; [by rewrite map_size_empty|done|].
  intros x _. apply lookup_empty.
Qed.

Lemma id_of_index_size (ids : list Z) : size (id_of_index ids) = length ids.
Proof.
  unfold id_of_index, enumerate.
  rewrite id_of_index_from_size; [by rewrite map_size_empty|].
  intros i _. apply lookup_empty.
Qed.

Lemma unique_distinct (raw : list Z) :
  length (unique raw) = size (list_to_set raw : gset Z).
Proof.
  rewrite <- (size_list_to_set (C:=gset Z) (unique raw)) by apply unique_NoDup.
  f_equal. apply set_eq. intros x.
  by rewrite !elem_of_list_to_set, unique_elem.
Qed.

(** The distinct ids of a table extend those of any of its prefixes. *)
Lemma unique_app_prefix (p s : list Z) : unique p `prefix_of` unique (p ++ s).
Proof.
  induction s as [|x s IH] using rev_ind.
  - by rewrite app_nil_r.
  - rewrite app_assoc, unique_snoc. case_bool_decide; [done|].
    by apply prefix_app_r.
Qed.

Lemma encoding_dense (raw : list Z) :
  dense_bijection raw (index_of_id (unique raw)) (id_of_index (unique raw))
    (length (unique raw)).
Proof.
  pose proof (unique_NoDup raw) as Hnd.
  split; [apply unique_distinct|]. split; [|split; [|split]].
  - intros x Hx. apply unique_elem, list_elem_of_lookup in Hx as [i Hi].
    exists i. split; [by apply index_of_id_Some|].
    split; [by eapply lookup_lt_Some|by apply id_of_index_Some].
  - intros i Hi. apply lookup_lt_is_Some in Hi as [x Hx]. exists x.
    split; [by apply id_of_index_Some|].
    split; [|by apply index_of_id_Some].
    apply unique_elem, list_elem_of_lookup. eauto.
  - intros x Hx. apply eq_None_not_Some. intros [i Hi].
    apply index_of_id_Some in Hi; [|done].
    apply Hx, unique_elem, list_elem_of_lookup. eauto.
  - intros i Hi. apply eq_None_not_Some. intros [x Hx].
    apply id_of_index_Some, lookup_lt_Some in Hx. lia.
Qed.

Lemma encoding_prefix_stable (p s : list Z) x :
  x ∈ p → index_of_id (unique (p ++ s)) !! x = index_of_id (unique p) !! x.
Proof.
  intros Hx. apply unique_elem, list_elem_of_lookup in Hx as [i Hi].
  rewrite (proj2 (index_of_id_Some (unique p) x i (unique_NoDup p)) Hi).
  apply index_of_id_Some; [apply unique_NoDup|].
  destruct (unique_app_prefix p s) as [t ->]. by apply lookup_app_l_Some.
Qed.
End Encoding.

(** Every row of the table gets a code: [df["user"]] has no missing cell. *)
Lemma map_column_total (userId : list Z) :
  Forall is_Some
    (MovieLens.map_column (MovieLens.user2user_encoded userId) userId).
Proof.
  unfold MovieLens.map_column. apply Forall_fmap, Forall_forall.
  intros x Hx. simpl.
  destruct (encoding_dense userId) as (_ & Henc & _).
  destruct (Henc x Hx) as (i & Hi & _). unfold MovieLens.user2user_encoded,
    MovieLens.user_ids. rewrite Hi. eauto.
Qed.

(** C8.  The encoding of raw user ids and of raw movie ids is a bijection
    between the distinct ids of the column and [0 .. n-1], [n] being the
    number of distinct ids ([num_users], [num_movies]); the decoding dict is
    its inverse in both directions; an id outside the column has no code and
    an index from [n] on has no id.  The codes follow the order of first
    occurrence: the code of an id met in a prefix of the table is the code it
    has when only that prefix is read. *)
Theorem id_encoding_bijection (userId movieId : list Z) :
  MovieLens.dense_bijection userId (MovieLens.user2user_encoded userId)
    (MovieLens.userencoded2user userId) (MovieLens.num_users userId)
  ∧ MovieLens.dense_bijection movieId (MovieLens.movie2movie_encoded movieId)
      (MovieLens.movie_encoded2movie movieId) (MovieLens.num_movies movieId)
  ∧ (∀ p s x, userId = p ++ s → x ∈ p →
       MovieLens.user2user_encoded userId !! x
       = MovieLens.user2user_encoded p !! x)
  ∧ (∀ p s x, movieId = p ++ s → x ∈ p →
       MovieLens.movie2movie_encoded movieId !! x
       = MovieLens.movie2movie_encoded p !! x).
Proof.
  unfold MovieLens.num_users, MovieLens.num_movies,
    MovieLens.user2user_encoded, MovieLens.userencoded2user,
    MovieLens.movie2movie_encoded, MovieLens.movie_encoded2movie,
    MovieLens.user_ids, MovieLens.movie_ids.
  rewrite index_of_id_size by apply unique_NoDup. rewrite id_of_index_size.
  repeat split; try apply encoding_dense.
  - intros p s x -> Hx. by apply encoding_prefix_stable.
  - intros p s x -> Hx. by apply encoding_prefix_stable.
Qed.

(** ** Rating normalisation (MovieLens) *)

Section Normalisation.
Import MovieLens.
Local Open Scope Q_scope.

Lemma foldl_min_spec (l : list Q) (x : Q) :
  let r := foldl (λ m v, if Qltb v m then v else m) x l in
  (r = x ∨ r ∈ l) ∧ r <= x ∧ ∀ v, v ∈ l → r <= v.
Proof.
  revert x. induction l as [|a l IH]; intros x; simpl.
  - split; [by left|]. split; [apply Qle_refl|]. intros v Hv. by inversion Hv.
  - destruct (Qltb a x) eqn:E.
    + apply Qltb_lt in E. destruct (IH a) as (Hin & Hle & Hall).
      split; [right; destruct Hin as [->|Hin]; [by left|by right]|].
      split; [eapply Qle_trans; [exact Hle|by apply Qlt_le_weak]|].
      intros v [->|Hv]%elem_of_cons; auto.
    + apply Qltb_ge in E. destruct (IH x) as (Hin & Hle & Hall).
      split; [destruct Hin as [->|Hin]; [by left|right; by right]|].
      split; [done|].
      intros v [->|Hv]%elem_of_cons; [by eapply Qle_trans|auto].
Qed.

Lemma foldl_max_spec (l : list Q) (x : Q) :
  let r := foldl (λ m v, if Qltb m v then v else m) x l in
  (r = x ∨ r ∈ l) ∧ x <= r ∧ ∀ v, v ∈ l → v <= r.
Proof.
  revert x. induction l as [|a l IH]; intros x; simpl.
  - split; [by left|]. split; [apply Qle_refl|]. intros v Hv. by inversion Hv.
  - destruct (Qltb x a) eqn:E.
    + apply Qltb_lt in E. destruct (IH a) as (Hin & Hle & Hall).
      split; [right; destruct Hin as [->|Hin]; [by left|by right]|].
      split; [eapply Qle_trans; [by apply Qlt_le_weak|exact Hle]|].
      intros v [->|Hv]%elem_of_cons; auto.
    + apply Qltb_ge in E. destruct (IH x) as (Hin & Hle & Hall).
      split; [destruct Hin as [->|Hin]; [by left|right; by right]|].
      split; [done|].
      intros v [->|Hv]%elem_of_cons; [by eapply Qle_trans|auto].
Qed.

Lemma py_min_spec (l : list Q) lo :
  py_min l = Some lo → lo ∈ l ∧ ∀ v, v ∈ l → lo <= v.
Proof.
  destruct l as [|x l]; simpl; [done|]. intros [= <-].
  destruct (foldl_min_spec l x) as (Hin & Hle & Hall). split.
  - destruct Hin as [->|Hin]; [by left|by right].
  - intros v [->|Hv]%elem_of_cons; auto.
Qed.

Lemma py_max_spec (l : list Q) hi :
  py_max l = Some hi → hi ∈ l ∧ ∀ v, v ∈ l → v <= hi.
Proof.
  destruct l as [|x l]; simpl; [done|]. intros [= <-].
  destruct (foldl_max_spec l x) as (Hin & Hle & Hall). split.
  - destruct Hin as [->|Hin]; [by left|by right].
  - intros v [->|Hv]%elem_of_cons; auto.
Qed.

Lemma float_div_Some a b : ¬ b == 0 → float_div a b = Some (a / b).
Proof.
  intros Hb. unfold float_div. destruct (Qeq_bool b 0) eqn:E; [|done].
  by apply Qeq_bool_iff in E.
Qed.

Lemma float_div_None a b : b == 0 → float_div a b = None.
Proof.
  intros Hb. unfold float_div. apply Qeq_bool_iff in Hb. by rewrite Hb.
Qed.

Lemma span_pos lo hi : lo < hi → 0 < hi - lo.
Proof. intros H. by apply (Qlt_minus_iff lo hi). Qed.

Lemma normalize_range lo hi r :
  lo <= r → r <= hi → lo < hi →
  ∃ t, normalize lo hi r = Some t ∧ 0 <= t ∧ t <= 1.
Proof.
  intros Hlo Hhi Hlt. pose proof (span_pos _ _ Hlt) as Hpos.
  exists ((r - lo) / (hi - lo)). split; [|split].
  - apply float_div_Some. intros H0. rewrite H0 in Hpos.
    by apply Qlt_irrefl in Hpos.
  - apply Qle_shift_div_l; [done|]. rewrite Qmult_0_l.
    by apply (Qle_minus_iff lo r).
  - apply Qle_shift_div_r; [done|]. rewrite Qmult_1_l.
    unfold Qminus. by apply Qplus_le_l.
Qed.

Lemma normalize_min lo hi :
  lo < hi → ∃ t, normalize lo hi lo = Some t ∧ t == 0.
Proof.
  intros Hlt. pose proof (span_pos _ _ Hlt) as Hpos.
  assert (¬ hi - lo == 0) as Hne.
  { intros H0. rewrite H0 in Hpos. by apply Qlt_irrefl in Hpos. }
  exists ((lo - lo) / (hi - lo)). split; [by apply float_div_Some|].
  field. done.
Qed.

Lemma normalize_max lo hi :
  lo < hi → ∃ t, normalize lo hi hi = Some t ∧ t == 1.
Proof.
  intros Hlt. pose proof (span_pos _ _ Hlt) as Hpos.
  assert (¬ hi - lo == 0) as Hne.
  { intros H0. rewrite H0 in Hpos. by apply Qlt_irrefl in Hpos. }
  exists ((hi - lo) / (hi - lo)). split; [by apply float_div_Some|].
  field. done.
Qed.
End Normalisation.

(** C7.  With [min_rating] and [max_rating] the smallest and the largest
    rating of the table and [min_rating < max_rating], every rating [r] with
    [min_rating <= r <= max_rating] has a normalised target in [[0, 1]]; so
    has every entry of [y], whatever the order in which the rows were
    shuffled; the smallest rating is sent to 0 and the largest to 1. *)
Theorem rating_normalisation_range
    (rating : list Q) (min_rating max_rating : Q) :
  MovieLens.py_min rating = Some min_rating →
  MovieLens.py_max rating = Some max_rating →
  (min_rating < max_rating)%Q →
  (∀ r, (min_rating <= r)%Q → (r <= max_rating)%Q →
     ∃ t, MovieLens.normalize min_rating max_rating r = Some t
          ∧ (0 <= t)%Q ∧ (t <= 1)%Q)
  ∧ (∀ shuffled, shuffled ≡ₚ rating →
       Forall (λ v, ∃ t, v = Some t ∧ (0 <= t)%Q ∧ (t <= 1)%Q)
         (MovieLens.y min_rating max_rating shuffled))
  ∧ (∃ t, MovieLens.normalize min_rating max_rating min_rating = Some t
          ∧ (t == 0)%Q)
  ∧ (∃ t, MovieLens.normalize min_rating max_rating max_rating = Some t
          ∧ (t == 1)%Q).
Proof.
  intros Hmin Hmax Hlt.
  apply py_min_spec in Hmin as [_ Hmin]. apply py_max_spec in Hmax as [_ Hmax].
  split; [|split; [|split]].
  - intros r Hlo Hhi. by apply normalize_range.
  - intros shuffled Hperm. unfold MovieLens.y. apply Forall_fmap, Forall_forall.
    intros r Hr. rewrite Hperm in Hr. simpl.
    apply normalize_range; auto.
  - by apply normalize_min.
  - by apply normalize_max.
Qed.

Lemma rating_normalisation_range_witness :
  (∀ r, (1 # 2 <= r)%Q → (r <= 5)%Q →
     ∃ t, MovieLens.normalize (1 # 2) 5 r = Some t ∧ (0 <= t)%Q ∧ (t <= 1)%Q)
  ∧ (∀ shuffled, shuffled ≡ₚ [3%Q; 1 # 2; 5%Q; 3%Q] →
       Forall (λ v, ∃ t, v = Some t ∧ (0 <= t)%Q ∧ (t <= 1)%Q)
         (MovieLens.y (1 # 2) 5 shuffled))
  ∧ (∃ t, MovieLens.normalize (1 # 2) 5 (1 # 2) = Some t ∧ (t == 0)%Q)
  ∧ (∃ t, MovieLens.normalize (1 # 2) 5 5 = Some t ∧ (t == 1)%Q).
Proof.
  apply (rating_normalisation_range [3%Q; 1 # 2; 5%Q; 3%Q] (1 # 2) 5);
    reflexivity.
Defined.

(** C10.  The quotient has no guard: [normalize] is the bare division.  It
    is defined exactly when the table holds two distinct ratings: then the
    divisor [max_rating - min_rating] is not zero and every entry of [y] is
    a number (the division by zero is not reached); when all ratings are
    equal the divisor is zero and no target is defined. *)
Theorem normalisation_defined_iff_two_ratings
    (rating : list Q) (min_rating max_rating : Q) :
  MovieLens.py_min rating = Some min_rating →
  MovieLens.py_max rating = Some max_rating →
  let two_distinct := ∃ a b, a ∈ rating ∧ b ∈ rating ∧ ¬ (a == b)%Q in
  (two_distinct ↔ ¬ (max_rating - min_rating == 0)%Q)
  ∧ (two_distinct → ∀ shuffled, shuffled ≡ₚ rating →
       Forall is_Some (MovieLens.y min_rating max_rating shuffled))
  ∧ (¬ two_distinct → ∀ x, MovieLens.normalize min_rating max_rating x = None).
Proof.
  intros Hmin Hmax two_distinct.
  apply py_min_spec in Hmin as [Hlo Hmin]. apply py_max_spec in Hmax as [Hhi Hmax].
  assert (two_distinct ↔ ¬ (max_rating - min_rating == 0)%Q) as Hiff.
  { split.
    - intros (a & b & Ha & Hb & Hab) H0.
      assert (max_rating == min_rating)%Q as He.
      { rewrite <- (Qplus_0_l min_rating), <- H0. ring. }
      apply Hab. apply Qle_antisym.
      + eapply Qle_trans; [apply Hmax, Ha|]. rewrite He. by apply Hmin.
      + eapply Qle_trans; [apply Hmax, Hb|]. rewrite He. by apply Hmin.
    - intros Hne. exists max_rating, min_rating. split; [done|]. split; [done|].
      intros He. apply Hne. rewrite He. ring. }
  split; [done|]. split.
  - intros Htwo shuffled Hperm. apply Hiff in Htwo.
    unfold MovieLens.y. apply Forall_fmap, Forall_forall. intros r _. simpl.
    unfold MovieLens.normalize. by rewrite float_div_Some.
  - intros Hnot x. unfold MovieLens.normalize. apply float_div_None.
    destruct (Qeq_dec (max_rating - min_rating) 0) as [H0|Hne]; [done|].
    exfalso. by apply Hnot, Hiff.
Qed.

Lemma normalisation_defined_iff_two_ratings_witness :
  let two_distinct :=
    ∃ a b, a ∈ [3%Q; 1 # 2; 5%Q] ∧ b ∈ [3%Q; 1 # 2; 5%Q] ∧ ¬ (a == b)%Q in
  (two_distinct ↔ ¬ (5 - (1 # 2) == 0)%Q)
  ∧ (two_distinct → ∀ shuffled, shuffled ≡ₚ [3%Q; 1 # 2; 5%Q] →
       Forall is_Some (MovieLens.y (1 # 2) 5 shuffled))
  ∧ (¬ two_distinct → ∀ x, MovieLens.normalize (1 # 2) 5 x = None).
Proof.
  apply (normalisation_defined_iff_two_ratings [3%Q; 1 # 2; 5%Q] (1 # 2) 5);
    reflexivity.
Defined.

(** ** Ranking: slices and top-K selection *)

Section Ranking.
Context {A : Type}.
Implicit Types a : list A.

(** [a[:-(K+1):-1]] is the last [K] items, last first. *)
Lemma slice_down_to_take a (K : nat) :
  slice_down_to a (- (Z.of_nat K) - 1) = take K (reverse a).
Proof.
  unfold slice_down_to.
  replace (- Z.of_nat K - 1 <? 0)%Z with true by (symmetry; apply Z.ltb_lt; lia).
  destruct (- Z.of_nat K - 1 + Z.of_nat (length a) <? 0)%Z eqn:E.
  - apply Z.ltb_lt in E.
    replace (Z.to_nat (Z.of_nat (length a) - 1 - -1)) with (length a) by lia.
    rewrite !take_ge; [done|rewrite length_reverse; lia|by rewrite length_reverse].
  - apply Z.ltb_ge in E.
    replace (Z.of_nat (length a) <=? - Z.of_nat K - 1 + Z.of_nat (length a))%Z
      with false by (symmetry; apply Z.leb_gt; lia).
    f_equal. lia.
Qed.

(** [a[-K:][::-1]] is the same list when [K] is not zero. *)
Lemma slice_from_reverse a (K : nat) :
  0 < K → reverse (slice_from a (- Z.of_nat K)) = take K (reverse a).
Proof.
  intros HK. unfold slice_from.
  replace (- Z.of_nat K <? 0)%Z with true by (symmetry; apply Z.ltb_lt; lia).
  rewrite take_reverse.
  destruct (- Z.of_nat K + Z.of_nat (length a) <? 0)%Z eqn:E.
  - apply Z.ltb_lt in E. do 2 f_equal. lia.
  - apply Z.ltb_ge in E.
    replace (Z.of_nat (length a) <=? - Z.of_nat K + Z.of_nat (length a))%Z
      with false by (symmetry; apply Z.leb_gt; lia).
    do 2 f_equal. lia.
Qed.
End Ranking.

Lemma is_argsort_length v idx : is_argsort v idx → length idx = length v.
Proof. intros [Hp _]. by rewrite Hp, length_seq. Qed.

Lemma is_argsort_elem v idx i : is_argsort v idx → i ∈ idx ↔ i < length v.
Proof. intros [Hp _]. rewrite Hp, elem_of_seq. lia. Qed.

(** The last [K] indices of an ascending [argsort], last first, are the
    [K] best. *)
Lemma top_k_of_argsort (K : nat) v idx :
  is_argsort v idx → top_k K v (take K (reverse idx)).
Proof.
  intros Hs. pose proof (is_argsort_length _ _ Hs) as Hlen.
  destruct Hs as [Hp Hsorted].
  assert (NoDup (reverse idx)) as Hnd.
  { rewrite reverse_Permutation, Hp. apply NoDup_seq. }
  split; [by rewrite length_take, length_reverse, Hlen|].
  split; [by eapply sublist_NoDup; [|apply sublist_take]|].
  split; [|split].
  - intros i Hi. apply elem_of_take in Hi as (p & Hi & _).
    apply list_elem_of_lookup_2 in Hi.
    rewrite elem_of_reverse, Hp, elem_of_seq in Hi. lia.
  - intros j a b Ha Hb.
    apply lookup_take_Some in Ha as [Ha _]. apply lookup_take_Some in Hb as [Hb _].
    apply reverse_lookup_Some in Ha as [Ha Hja].
    apply reverse_lookup_Some in Hb as [Hb Hjb].
    eapply (Hsorted _ _ b a); [|done..]. lia.
  - intros i s Hi Hout Hin.
    assert (i ∈ reverse idx) as Hir.
    { rewrite elem_of_reverse, Hp, elem_of_seq. lia. }
    apply list_elem_of_lookup in Hir as [p Hp'].
    apply elem_of_take in Hin as (q & Hq & HqK).
    assert (K ≤ p) as HpK.
    { destruct (decide (K ≤ p)); [done|]. exfalso. apply Hout.
      apply elem_of_take. exists p. split; [done|lia]. }
    apply reverse_lookup_Some in Hp' as [Hp' ?].
    apply reverse_lookup_Some in Hq as [Hq ?].
    eapply (Hsorted _ _ i s); [|done..]. lia.
Qed.

Lemma insert_index_perm v i idx : insert_index v i idx ≡ₚ i :: idx.
Proof.
  induction idx as [|j idx IH]; simpl; [done|].
  destruct (Qle_bool _ _); [done|]. rewrite IH. apply perm_swap.
Qed.

Lemma insert_index_sorted v i idx :
  StronglySorted (λ a b, score_at v a <= score_at v b)%Q idx →
  StronglySorted (λ a b, score_at v a <= score_at v b)%Q (insert_index v i idx).
Proof.
  induction idx as [|j idx IH]; simpl; intros Hs.
  - repeat constructor.
  - apply StronglySorted_inv in Hs as [Hs Hj].
    destruct (Qle_bool (score_at v i) (score_at v j)) eqn:E.
    + apply Qle_bool_iff in E. constructor; [by constructor|].
      constructor; [done|]. eapply Forall_impl; [exact Hj|].
      intros b Hb. simpl in *. by eapply Qle_trans.
    + constructor; [by apply IH|]. rewrite insert_index_perm.
      constructor; [|done].
      apply Qlt_le_weak, Qltb_lt. unfold Qltb. by rewrite E.
Qed.

Lemma StronglySorted_lookup_le (R : nat → nat → Prop) l i j a b :
  (∀ x, R x x) → StronglySorted R l →
  i ≤ j → l !! i = Some a → l !! j = Some b → R a b.
Proof.
  intros Hrefl Hs. revert i j. induction Hs as [|x l Hs IH Hx]; intros i j Hij Ha Hb.
  - done.
  - destruct i as [|i], j as [|j]; simpl in *; simplify_eq; [done| |lia|].
    + rewrite Forall_forall in Hx. apply Hx. by eapply list_elem_of_lookup_2.
    + apply (IH i j); [lia|done..].
Qed.

(** The promise of [argsort] can be kept on every row. *)
Lemma argsort_is_argsort v : is_argsort v (argsort v).
Proof.
  unfold argsort. split.
  - induction (seq 0 (length v)) as [|i l IH]; simpl; [done|].
    by rewrite insert_index_perm, IH.
  - assert (StronglySorted (λ a b, score_at v a <= score_at v b)%Q
              (foldr (insert_index v) [] (seq 0 (length v)))) as Hs.
    { induction (seq 0 (length v)) as [|k l IH]; simpl; [constructor|].
      by apply insert_index_sorted. }
    intros i j a b Hij Ha Hb.
    eapply (StronglySorted_lookup_le (λ a b, score_at v a <= score_at v b)%Q);
      [intros x; apply Qle_refl|exact Hs|exact Hij|exact Ha|exact Hb].
Qed.

Lemma argsort_rows (probs : list (list Q)) :
  Forall2 is_argsort probs (argsort <$> probs).
Proof.
  apply Forall2_fmap_r, Forall2_same_length_lookup_2; [done|].
  intros i v w Hv Hw. simplify_eq. apply argsort_is_argsort.
Qed.

Lemma top_k_rows (K : nat) (probs : list (list Q)) (order : list (list nat)) :
  Forall2 is_argsort probs order →
  Forall2 (top_k K) probs ((λ row, slice_down_to row (- Z.of_nat K - 1)) <$> order).
Proof.
  intros H. apply Forall2_fmap_r. eapply Forall2_impl; [exact H|].
  intros v idx Hs. simpl. rewrite slice_down_to_take. by apply top_k_of_argsort.
Qed.

(** C1.  Whatever the predicted probabilities and whatever order [argsort]
    gives to equal probabilities, the selection step returns for each row
    the indices of the K most probable items, most probable first (K = 7 on
    the validation rows, K = 5 on the test rows, K = 10 for the movies): the
    probability of the j-th selected index is at least that of the next one,
    and no index that is left out has a higher probability than a selected
    one.  A row with fewer than K items is returned whole. *)
Theorem top_k_selection
    (val_probs : list (list Q)) (val_order : list (list nat))
    (test_probs : list (list Q)) (test_order : list (list nat))
    (ratings : list Q) (ratings_order : list nat) :
  Forall2 is_argsort val_probs val_order →
  Forall2 is_argsort test_probs test_order →
  is_argsort ratings ratings_order →
  Forall2 (top_k 7) val_probs (Santander.likeliestprods val_order)
  ∧ Forall2 (top_k 5) test_probs (Santander.likeliestprods_test test_order)
  ∧ top_k 10 ratings (MovieLens.top_ratings_indices ratings_order).
Proof.
  intros Hval Htest Hr. split; [|split].
  - apply (top_k_rows 7 _ _ Hval).
  - apply (top_k_rows 5 _ _ Htest).
  - unfold MovieLens.top_ratings_indices.
    change (-10)%Z with (- Z.of_nat 10)%Z.
    rewrite (slice_from_reverse ratings_order 10) by lia.
    by apply top_k_of_argsort.
Qed.

Lemma top_k_selection_witness :
  let probs : list (list Q) :=
    [ [1#10; 9#10; 1#2; 1#5; 3#10; 2#5; 1#2; 3#5; 7#10; 4#5; 0#1; 1#1];
      [1#2; 1#2; 1#2; 1#2; 1#2; 1#2; 1#2; 1#2; 1#2; 1#2; 1#2; 1#2] ] in
  let ratings : list Q := [3#10; 9#10; 1#2] in
  Forall2 (top_k 7) probs (Santander.likeliestprods (argsort <$> probs))
  ∧ Forall2 (top_k 5) probs (Santander.likeliestprods_test (argsort <$> probs))
  ∧ top_k 10 ratings (MovieLens.top_ratings_indices (argsort ratings)).
Proof.
  intros probs ratings.
  apply (top_k_selection probs (argsort <$> probs) probs (argsort <$> probs)
           ratings (argsort ratings)).
  - apply argsort_rows.
  - apply argsort_rows.
  - apply argsort_is_argsort.
Defined.

Example likeliestprods_example :
  Santander.likeliestprods_test
    (argsort <$> [ [1#10; 9#10; 1#2; 1#5; 3#10; 2#5; 1#2; 3#5; 7#10; 4#5; 0#1; 1#1] ])
  = [ [11; 1; 9; 8; 7] ].
Proof. reflexivity. Qed.

Example top_ratings_indices_short :
  MovieLens.top_ratings_indices (argsort [3#10; 9#10; 1#2]) = [1; 2; 0].
Proof. reflexivity. Qed.

(** ** Left joins (Santander) *)

Section Joins.
Import Santander.
Context {L R : Type} (keyL : L → Z) (keyR : R → Z).
Implicit Types (left : list L) (right : list R).

Lemma merge_left_cons l left right :
  merge_left keyL keyR (l :: left) right
  = merge_left keyL keyR [l] right ++ merge_left keyL keyR left right.
Proof. unfold merge_left. simpl. by rewrite app_nil_r. Qed.

Lemma merge_left_one l right m :
  m ∈ merge_left keyL keyR [l] right →
  m.1 = l ∧ match m.2 with
            | Some r => r ∈ right ∧ keyR r = keyL l
            | None => ∀ r, r ∈ right → keyR r ≠ keyL l
            end.
Proof.
  unfold merge_left. simpl. rewrite app_nil_r.
  destruct (filter (λ r, keyR r = keyL l) right) as [|r0 ms] eqn:E.
  - intros ->%list_elem_of_singleton. split; [done|]. simpl.
    intros r Hr Hk. assert (r ∈ filter (λ r, keyR r = keyL l) right) as Hin.
    { by apply list_elem_of_filter. }
    rewrite E in Hin. by apply not_elem_of_nil in Hin.
  - intros Hm. change (m ∈ (λ r, (l, Some r)) <$> (r0 :: ms)) in Hm.
    apply list_elem_of_fmap in Hm as (r & -> & Hr). split; [done|]. simpl.
    rewrite <- E in Hr. by apply list_elem_of_filter in Hr as [? ?].
Qed.

Lemma merge_left_one_length l right :
  1 ≤ length (merge_left keyL keyR [l] right).
Proof.
  unfold merge_left. simpl. rewrite app_nil_r.
  destruct (filter _ right); simpl; lia.
Qed.

(** A row of the join comes from a row of [left] and, when it has a
    partner, from a row of [right] with the same key. *)
Lemma merge_left_elem left right m :
  m ∈ merge_left keyL keyR left right →
  m.1 ∈ left ∧ match m.2 with
               | Some r => r ∈ right ∧ keyR r = keyL m.1
               | None => ∀ r, r ∈ right → keyR r ≠ keyL m.1
               end.
Proof.
  induction left as [|l left IH].
  - intros H. by apply not_elem_of_nil in H.
  - rewrite merge_left_cons, elem_of_app. intros [H|H].
    + apply merge_left_one in H as [-> H]. split; [by left|done].
    + destruct (IH H) as [? ?]. split; [by right|done].
Qed.

(** No row of [left] is lost. *)
Lemma merge_left_keeps left right l :
  l ∈ left → ∃ m, m ∈ merge_left keyL keyR left right ∧ m.1 = l.
Proof.
  induction left as [|l' left IH]; intros Hl.
  - by apply not_elem_of_nil in Hl.
  - rewrite merge_left_cons. apply elem_of_cons in Hl as [->|Hl].
    + pose proof (merge_left_one_length l' right) as Hlen.
      destruct (merge_left keyL keyR [l'] right) as [|m ms] eqn:E;
        [simpl in Hlen; lia|].
      exists m. split; [apply elem_of_app; left; by left|].
      eapply (merge_left_one l' right). rewrite E. by left.
    + destruct (IH Hl) as (m & Hm & <-). exists m.
      split; [apply elem_of_app; by right|done].
Qed.

(** A row of [left] without partner in [right] is in the join, alone. *)
Lemma merge_left_absent left right l :
  l ∈ left → keyL l ∉ keyR <$> right →
  (l, None) ∈ merge_left keyL keyR left right.
Proof.
  intros Hl Habs. destruct (merge_left_keeps left right l Hl) as ([l' o] & Hm & Heq).
  simpl in Heq. subst l'. destruct o as [r|]; [|done].
  apply merge_left_elem in Hm as [_ [Hr Hk]]. simpl in Hk.
  exfalso. apply Habs. rewrite <- Hk. by apply list_elem_of_fmap_2.
Qed.

Lemma merge_left_length left right :
  length left ≤ length (merge_left keyL keyR left right).
Proof.
  induction left as [|l left IH]; [simpl; lia|].
  rewrite merge_left_cons, length_app.
  pose proof (merge_left_one_length l right). cbn [length]. lia.
Qed.

Lemma filter_key_unique right k r1 r2 ms :
  NoDup (keyR <$> right) →
  filter (λ r, keyR r = k) right ≠ r1 :: r2 :: ms.
Proof.
  intros Hnd E.
  assert (NoDup (keyR <$> filter (λ r, keyR r = k) right)) as Hnd'.
  { eapply sublist_NoDup; [exact Hnd|]. apply fmap_sublist, sublist_filter. }
  assert (keyR r1 = k ∧ keyR r2 = k) as [H1 H2].
  { split.
    - assert (r1 ∈ filter (λ r, keyR r = k) right) as H
        by (rewrite E; by left).
      by apply list_elem_of_filter in H as [? _].
    - assert (r2 ∈ filter (λ r, keyR r = k) right) as H
        by (rewrite E; right; by left).
      by apply list_elem_of_filter in H as [? _]. }
  rewrite E in Hnd'. simpl in Hnd'. apply NoDup_cons in Hnd' as [Hn _].
  apply Hn. rewrite H1, <- H2. by left.
Qed.

(** With one row per key in [right], the join has the rows of [left],
    one for one. *)
Lemma merge_left_unique left right :
  NoDup (keyR <$> right) →
  merge_left keyL keyR left right
  = (λ l, (l, head (filter (λ r, keyR r = keyL l) right))) <$> left.
Proof.
  intros Hnd. induction left as [|l left IH]; [done|].
  rewrite merge_left_cons, IH. simpl. f_equal.
  unfold merge_left. simpl. rewrite app_nil_r.
  destruct (filter (λ r, keyR r = keyL l) right) as [|r1 [|r2 ms]] eqn:E;
    [done|done|].
  by apply filter_key_unique in E.
Qed.

Lemma head_filter_absent right k :
  k ∉ keyR <$> right → head (filter (λ r, keyR r = k) right) = None.
Proof.
  intros Hk. destruct (filter (λ r, keyR r = k) right) as [|r ms] eqn:E; [done|].
  exfalso. apply Hk. assert (r ∈ filter (λ r, keyR r = k) right) as H
    by (rewrite E; by left).
  apply list_elem_of_filter in H as [<- H]. by apply list_elem_of_fmap_2.
Qed.
End Joins.

(** ** Labels: the newly added products (Santander) *)

Section Labels.
Import Santander.

Lemma foldl_snoc_fmap {A B} (f : A → B) (init : list B) (l : list A) :
  foldl (λ acc x, acc ++ [f x]) init l = init ++ (f <$> l).
Proof.
  revert init. induction l as [|x l IH]; intros init; simpl.
  - by rewrite app_nil_r.
  - by rewrite IH, <- app_assoc.
Qed.

(** The loop over [rec_products] builds one column per product, in the
    order of [rec_products]. *)
Lemma get_new_products_columns data pdata :
  get_new_products data pdata
  = (λ pr, (pr, (λ m, clip_dropped (flag_x pr m - flag_y pr m)%Q)
                <$> merge_left ncodpers ncodpers data pdata))
    <$> rec_products.
Proof.
  unfold get_new_products.
  rewrite (foldl_snoc_fmap
             (λ pr, (pr, clip_dropped
                           <$> ((λ m, (flag_x pr m - flag_y pr m)%Q)
                                <$> merge_left ncodpers ncodpers data pdata)))).
  simpl. repeat (f_equal; try by rewrite <- list_fmap_compose).
Qed.

Lemma clip_dropped_flag (x y : Q) :
  (x == 0 ∨ x == 1)%Q → (y == 0 ∨ y == 1)%Q →
  ((clip_dropped (x - y) == 0)%Q ∨ (clip_dropped (x - y) == 1)%Q)
  ∧ (0 <= clip_dropped (x - y))%Q.
Proof.
  intros Hx Hy.
  assert ((clip_dropped (x - y) == 0)%Q ∨ (clip_dropped (x - y) == 1)%Q) as H.
  { unfold clip_dropped. destruct (Qeq_bool (x - y) (-1)) eqn:E; [by left|].
    apply Qeq_bool_neq in E.
    destruct Hx as [Hx|Hx], Hy as [Hy|Hy]; rewrite Hx, Hy in *.
    - by left.
    - by exfalso.
    - by right.
    - by left. }
  split; [done|]. destruct H as [->| ->]; done.
Qed.

Lemma flag_default (c : cell) :
  is_flag c → (default 0%Q c == 0 ∨ default 0%Q c == 1)%Q.
Proof. destruct c as [q|]; simpl; [done|]. intros _. by left. Qed.

Lemma intersect1d_elem (a b : list Z) x :
  x ∈ intersect1d a b ↔ x ∈ a ∧ x ∈ b.
Proof.
  unfold intersect1d.
  rewrite merge_sort_Permutation, unique_elem, list_elem_of_filter. tauto.
Qed.
End Labels.

(** The column of a product, read off the rows of the two months. *)
Lemma get_new_products_rows_of (data pdata : list Santander.train_row) pr col :
  (pr, col) ∈ Santander.get_new_products data pdata →
  col = data ≫= λ r,
          match filter (λ p, Santander.ncodpers p = Santander.ncodpers r) pdata with
          | [] => [Santander.clip_dropped
                     (default 0%Q (Santander.flag r pr) - 0)%Q]
          | ps => (λ p, Santander.clip_dropped
                          (default 0%Q (Santander.flag r pr)
                           - default 0%Q (Santander.flag p pr))%Q) <$> ps
          end.
Proof.
  rewrite get_new_products_columns.
  intros (pr' & [= <- ->] & _)%list_elem_of_fmap.
  induction data as [|r data IH]; [done|].
  rewrite (merge_left_cons Santander.ncodpers Santander.ncodpers r data pdata).
  rewrite fmap_app, IH. cbn [mbind list_bind]. f_equal.
  unfold Santander.merge_left. cbn [mbind list_bind]. rewrite app_nil_r.
  destruct (filter _ pdata) as [|p ps]; [done|].
  rewrite <- list_fmap_compose. done.
Qed.

(** C2.  With ownership flags 0 or 1 in both months (a flag may also be
    missing, it is then read as 0), the label table has one column per
    recommended product.  The column of a product goes through the rows of
    the current month in their order: a customer with no row in the month
    before gets one entry, the current flag minus 0; a customer with rows in
    the month before gets one entry per such row, the current flag minus
    the flag of that row; in both cases a result of -1 is replaced by 0.  So
    every entry is 0 or 1 and none is negative. *)
Theorem new_products_labels_binary (data pdata : list Santander.train_row) :
  (∀ r pr, r ∈ data → pr ∈ Santander.rec_products →
     Santander.is_flag (Santander.flag r pr)) →
  (∀ r pr, r ∈ pdata → pr ∈ Santander.rec_products →
     Santander.is_flag (Santander.flag r pr)) →
  Santander.get_new_products data pdata
  = (λ pr, (pr, (λ m, let d := (Santander.flag_x pr m - Santander.flag_y pr m)%Q in
                      if Qeq_bool d (-1) then 0%Q else d)
                <$> Santander.merge_left Santander.ncodpers Santander.ncodpers
                      data pdata))
    <$> Santander.rec_products
  ∧ fst <$> Santander.get_new_products data pdata = Santander.rec_products
  ∧ (∀ pr col, (pr, col) ∈ Santander.get_new_products data pdata →
       col = data ≫= λ r,
               match filter (λ p, Santander.ncodpers p = Santander.ncodpers r)
                       pdata with
               | [] => [Santander.clip_dropped
                          (default 0%Q (Santander.flag r pr) - 0)%Q]
               | ps => (λ p, Santander.clip_dropped
                               (default 0%Q (Santander.flag r pr)
                                - default 0%Q (Santander.flag p pr))%Q) <$> ps
               end)
  ∧ ∀ pr col v,
      (pr, col) ∈ Santander.get_new_products data pdata → v ∈ col →
      ((v == 0)%Q ∨ (v == 1)%Q) ∧ (0 <= v)%Q.
Proof.
  intros Hdata Hpdata. split; [apply get_new_products_columns|].
  split.
  { rewrite get_new_products_columns. apply list_eq. intros i.
    rewrite !list_lookup_fmap. by destruct (Santander.rec_products !! i). }
  split; [apply get_new_products_rows_of|].
  intros pr col v Hcol Hv.
  assert (pr ∈ Santander.rec_products) as Hpr.
  { rewrite get_new_products_columns in Hcol.
    by apply list_elem_of_fmap in Hcol as (pr' & [= <- ->] & Hpr). }
  rewrite (get_new_products_rows_of data pdata pr col Hcol) in Hv.
  apply list_elem_of_bind in Hv as (r & Hv & Hr).
  pose proof (flag_default _ (Hdata r pr Hr Hpr)) as Hx.
  destruct (filter _ pdata) as [|p0 ps] eqn:E.
  - apply list_elem_of_singleton in Hv as ->.
    apply clip_dropped_flag; [done|by left].
  - rewrite <- E in Hv. apply list_elem_of_fmap in Hv as (p & -> & Hp).
    apply list_elem_of_filter in Hp as [_ Hp].
    apply clip_dropped_flag; [done|]. apply flag_default. by apply Hpdata.
Qed.

Lemma sample_row_flag month id owned pr :
  Santander.is_flag (Santander.flag (Sample.row month id owned) pr).
Proof. simpl. case_bool_decide; [by right|by left]. Qed.

Lemma sample_rows_flags (rows : list Santander.train_row) :
  Forall (λ r, ∃ month id owned, r = Sample.row month id owned) rows →
  ∀ r pr, r ∈ rows → pr ∈ Santander.rec_products →
    Santander.is_flag (Santander.flag r pr).
Proof.
  intros Hrows r pr Hr _. rewrite Forall_forall in Hrows.
  destruct (Hrows r Hr) as (month & id & owned & ->). apply sample_row_flag.
Qed.

Lemma new_products_labels_binary_witness :
  Santander.get_new_products Sample.june Sample.may
  = (λ pr, (pr, (λ m, let d := (Santander.flag_x pr m - Santander.flag_y pr m)%Q in
                      if Qeq_bool d (-1) then 0%Q else d)
                <$> Santander.merge_left Santander.ncodpers Santander.ncodpers
                      Sample.june Sample.may))
    <$> Santander.rec_products
  ∧ fst <$> Santander.get_new_products Sample.june Sample.may
    = Santander.rec_products
  ∧ (∀ pr col, (pr, col) ∈ Santander.get_new_products Sample.june Sample.may →
       col = Sample.june ≫= λ r,
               match filter (λ p, Santander.ncodpers p = Santander.ncodpers r)
                       Sample.may with
               | [] => [Santander.clip_dropped
                          (default 0%Q (Santander.flag r pr) - 0)%Q]
               | ps => (λ p, Santander.clip_dropped
                               (default 0%Q (Santander.flag r pr)
                                - default 0%Q (Santander.flag p pr))%Q) <$> ps
               end)
  ∧ ∀ pr col v,
      (pr, col) ∈ Santander.get_new_products Sample.june Sample.may → v ∈ col →
      ((v == 0)%Q ∨ (v == 1)%Q) ∧ (0 <= v)%Q.
Proof.
  apply (new_products_labels_binary Sample.june Sample.may);
    apply sample_rows_flags; repeat constructor; eauto.
Defined.

Example get_new_products_sample :
  take 2 (Santander.get_new_products Sample.june Sample.may)
  = [ ("ind_recibo_ult1"%string, [0 # 1; 0 # 1]);
      ("ind_cco_fin_ult1"%string, [0 # 1; 1 # 1]) ].
Proof. reflexivity. Qed.

Lemma label_column_absent (data pdata : list Santander.train_row) pr i r :
  NoDup (Santander.ncodpers <$> pdata) →
  data !! i = Some r →
  Santander.ncodpers r ∉ Santander.ncodpers <$> pdata →
  ((λ m, Santander.clip_dropped
           (Santander.flag_x pr m - Santander.flag_y pr m)%Q)
   <$> Santander.merge_left Santander.ncodpers Santander.ncodpers data pdata)
  !! i
  = Some (Santander.clip_dropped (default 0%Q (Santander.flag r pr) - 0)%Q).
Proof.
  intros Hnd Hi Habs. rewrite merge_left_unique by done.
  rewrite !list_lookup_fmap, Hi. simpl.
  by rewrite (head_filter_absent Santander.ncodpers pdata _ Habs).
Qed.

(** C9.  The label table has a row for every row of the current month,
    whether or not the customer has a row in the month before: no column is
    shorter than the current-month table, and when the month before holds
    each customer once the columns have exactly its length, row for row.
    The intersection of the two id columns plays no part: a customer who is
    not in it, having no row in the month before, is still labelled, the
    missing flags of the month before are read as 0, and a product the
    customer owns now is labelled 1. *)
Theorem new_products_rows (data pdata : list Santander.train_row) :
  let labels := Santander.get_new_products data pdata in
  fst <$> labels = Santander.rec_products
  ∧ (∀ pr col, (pr, col) ∈ labels → length data ≤ length col)
  ∧ (∀ r, r ∈ data → Santander.ncodpers r ∉ Santander.ncodpers <$> pdata →
       ∃ i, ∀ pr col, (pr, col) ∈ labels →
         col !! i
         = Some (Santander.clip_dropped
                   (default 0%Q (Santander.flag r pr) - 0)%Q))
  ∧ (NoDup (Santander.ncodpers <$> pdata) →
     ∀ pr col, (pr, col) ∈ labels →
       length col = length data
       ∧ ∀ i r, data !! i = Some r →
           Santander.ncodpers r ∉ Santander.ncodpers <$> pdata →
           (Santander.ncodpers r
              ∉ Santander.intersect1d (Santander.ncodpers <$> data)
                  (Santander.ncodpers <$> pdata))
           ∧ (col !! i
              = Some (Santander.clip_dropped
                        (default 0%Q (Santander.flag r pr) - 0)%Q))
           ∧ (∀ q, Santander.flag r pr = Some q → (q == 1)%Q →
                ∃ v, col !! i = Some v ∧ (v == 1)%Q)).
Proof.
  intros labels. unfold labels. rewrite get_new_products_columns.
  split; [|split; [|split]].
  - apply list_eq. intros i. rewrite !list_lookup_fmap.
    by destruct (Santander.rec_products !! i).
  - intros pr col (pr' & [= <- ->] & _)%list_elem_of_fmap.
    rewrite length_fmap. apply merge_left_length.
  - intros r Hr Habs.
    pose proof (merge_left_absent Santander.ncodpers Santander.ncodpers
                  data pdata r Hr Habs) as [i Hi]%list_elem_of_lookup.
    exists i. intros pr col (pr' & [= <- ->] & _)%list_elem_of_fmap.
    by rewrite list_lookup_fmap, Hi.
  - intros Hnd pr col (pr' & [= <- ->] & _)%list_elem_of_fmap.
    split; [by rewrite length_fmap, merge_left_unique, length_fmap|].
    intros i r Hi Habs.
    pose proof (label_column_absent data pdata pr i r Hnd Hi Habs) as Hcol.
    split; [|split; [exact Hcol|]].
    + rewrite intersect1d_elem. tauto.
    + intros q Hq Hq1. eexists. split; [exact Hcol|].
      rewrite Hq. simpl. unfold Santander.clip_dropped.
      destruct (Qeq_bool (q - 0) (-1)) eqn:E.
      * apply Qeq_bool_iff in E. rewrite Hq1 in E. done.
      * rewrite Hq1. done.
Qed.

Lemma new_products_rows_witness :
  let labels := Santander.get_new_products Sample.june Sample.may in
  length <$> (snd <$> labels) = replicate 12 2
  ∧ ∀ pr col, (pr, col) ∈ labels → col !! 1 = Some
      (Santander.clip_dropped
         (default 0%Q (Santander.flag
            (Sample.row "2015-06-28" 2 ["ind_cco_fin_ult1"%string]) pr) - 0)%Q).
Proof.
  split; [reflexivity|].
  intros pr col Hcol.
  destruct (new_products_rows Sample.june Sample.may) as (_ & _ & _ & Hrows).
  assert (NoDup (Santander.ncodpers <$> Sample.may)) as Hnd
    by (repeat constructor; set_solver).
  destruct (Hrows Hnd pr col Hcol) as [_ Hrow].
  apply (Hrow 1 (Sample.row "2015-06-28" 2 ["ind_cco_fin_ult1"%string]));
    [reflexivity|].
  simpl. set_solver.
Defined.

(** ** Features of the prior months (Santander) *)

Section TempFeatures.
Import Santander.

Lemma fillna_is_Some v c : is_Some (fillna v c).
Proof. destruct c; simpl; eauto. Qed.

Lemma fillna_idemp v (cells : list cell) :
  fillna v <$> (fillna v <$> cells) = fillna v <$> cells.
Proof.
  rewrite <- list_fmap_compose. apply list_fmap_ext.
  intros i c _. by destruct c.
Qed.

Lemma extends_row_trans j k r1 r2 r3 :
  extends_row j r1 r2 → extends_row k r2 r3 → extends_row (j + k) r1 r3.
Proof.
  intros [Hk1 (e1 & He1 & Hl1)] [Hk2 (e2 & He2 & Hl2)].
  split; [congruence|]. exists ((fillna 0 <$> e1) ++ e2). split.
  - by rewrite He2, He1, fmap_app, fillna_idemp, <- app_assoc.
  - rewrite length_app, length_fmap. lia.
Qed.

(** After a join no cell is missing. *)
Lemma join_month_filled merged temp_data :
  Forall (λ r, Forall is_Some (f_cells r)) (join_month merged temp_data).
Proof.
  unfold join_month. apply Forall_fmap, Forall_forall. intros m _. simpl.
  apply Forall_fmap, Forall_forall. intros c _. apply fillna_is_Some.
Qed.

(** A join keeps every row and gives it the cells of one month. *)
Lemma join_month_keeps merged temp_data r :
  r ∈ merged → ∃ r', r' ∈ join_month merged temp_data ∧ extends_row 1 r r'.
Proof.
  intros Hr.
  destruct (merge_left_keeps f_ncodpers ncodpers merged temp_data r Hr)
    as ([l o] & Hm & Hl).
  simpl in Hl. subst l. eexists. split.
  - unfold join_month. apply list_elem_of_fmap. exists (r, o). split; [done|].
    exact Hm.
  - split; [done|]. simpl. rewrite fmap_app. eexists. split; [done|].
    rewrite length_fmap. by destruct o.
Qed.

Lemma join_month_length merged temp_data :
  length merged ≤ length (join_month merged temp_data).
Proof. unfold join_month. rewrite length_fmap. apply merge_left_length. Qed.

(** With each customer once in the month, the join has the rows of the
    table one for one. *)
Lemma join_month_keys merged temp_data :
  NoDup (ncodpers <$> temp_data) →
  f_ncodpers <$> join_month merged temp_data = f_ncodpers <$> merged.
Proof.
  intros Hnd. unfold join_month. rewrite merge_left_unique by done.
  rewrite <- !list_fmap_compose. by apply list_fmap_ext.
Qed.

Lemma get_data_by_month_is_Some train months :
  is_Some (get_data_by_month train months)
  ↔ ∃ m, m ∈ months ∧ m ∈ fecha_dato <$> train.
Proof.
  unfold get_data_by_month.
  set (hits := filter (λ ix : nat * string, ix.2 ∈ months)
                 (enumerate (fecha_dato <$> train))).
  assert (∀ {A} (l : list A) k x, x ∈ l ↔ ∃ i, (i, x) ∈ enumerate_from k l)
    as Henum.
  { intros A l. induction l as [|a l IH]; intros k x; simpl.
    - split; [by intros ?%not_elem_of_nil|by intros [? ?%not_elem_of_nil]].
    - rewrite elem_of_cons, (IH (S k)). split.
      + intros [->|[i Hi]]; [exists k; by left|exists i; by right].
      + intros [i [[= -> ->]|Hi]%elem_of_cons]; [by left|right; eauto]. }
  split.
  - destruct (fst <$> hits) as [|i0 ids] eqn:E; simpl; [by intros [? ?]|].
    intros _.
    assert (i0 ∈ fst <$> hits) as Hi by (rewrite E; by left).
    apply list_elem_of_fmap in Hi as ([i m] & _ & Hin).
    apply list_elem_of_filter in Hin as [Hm Hin]. exists m. split; [done|].
    apply (Henum _ _ 0). eauto.
  - intros (m & Hm & Hin). apply (Henum _ _ 0) in Hin as [i Hi].
    assert ((i, m) ∈ hits) as Hhit by (by apply list_elem_of_filter).
    destruct hits as [|h hits']; [by apply not_elem_of_nil in Hhit|].
    simpl. eauto.
Qed.

(** The loop is one join per month, in the order of the list. *)
Lemma get_temp_features_joins train months merged X :
  get_temp_features train merged months = Some X
  ↔ ∃ tables, mapM (λ m, get_data_by_month train [m]) months = Some tables
              ∧ X = foldl join_month merged tables.
Proof.
  revert merged. induction months as [|m months IH]; intros merged; simpl.
  - split; [intros [= <-]; by exists []|by intros (? & [= <-] & ->)].
  - destruct (get_data_by_month train [m]) as [t|]; simpl.
    + rewrite IH. split.
      * intros (tables & -> & ->). by exists (t :: tables).
      * intros (tables & Ht & ->).
        destruct (mapM _ months) as [ts|]; [|done].
        cbv [mret option_ret] in Ht. injection Ht as <-. by exists ts.
    + split; [done|]. by intros (? & ? & ?).
Qed.

Lemma foldl_join_month_filled merged tables :
  tables ≠ [] →
  Forall (λ r, Forall is_Some (f_cells r)) (foldl join_month merged tables).
Proof.
  revert merged. induction tables as [|t tables IH]; intros merged Hne; [done|].
  simpl. destruct tables as [|t' tables]; [apply join_month_filled|].
  by apply IH.
Qed.

Lemma foldl_join_month_keeps merged tables r :
  r ∈ merged →
  ∃ r', r' ∈ foldl join_month merged tables ∧
        (tables ≠ [] → extends_row (length tables) r r')
        ∧ (tables = [] → r' = r).
Proof.
  revert merged r. induction tables as [|t tables IH]; intros merged r Hr.
  - exists r. by split.
  - destruct (join_month_keeps merged t r Hr) as (r1 & Hr1 & Hext).
    destruct (IH _ _ Hr1) as (r' & Hr' & Hne & Hnil).
    exists r'. split; [done|]. split; [|done]. intros _.
    destruct tables as [|t' tables].
    + by rewrite (Hnil eq_refl).
    + apply (extends_row_trans 1 _ r r1 r'); [done|]. by apply Hne.
Qed.

Lemma foldl_join_month_length merged tables :
  length merged ≤ length (foldl join_month merged tables).
Proof.
  revert merged. induction tables as [|t tables IH]; intros merged; [done|].
  simpl. etrans; [apply (join_month_length merged t)|apply IH].
Qed.

Lemma foldl_join_month_keys merged tables :
  Forall (λ t, NoDup (ncodpers <$> t)) tables →
  f_ncodpers <$> foldl join_month merged tables = f_ncodpers <$> merged.
Proof.
  intros Hnd. revert merged. induction Hnd as [|t tables Ht _ IH]; intros merged.
  - done.
  - simpl. by rewrite IH, join_month_keys.
Qed.
End TempFeatures.

Section JoinRows.
Import Santander.

Lemma merge_left_elem_iff {L R} (keyL : L → Z) (keyR : R → Z)
    (left : list L) (right : list R) (m : L * option R) :
  m ∈ merge_left keyL keyR left right
  ↔ m.1 ∈ left ∧ match m.2 with
                 | Some r => r ∈ right ∧ keyR r = keyL m.1
                 | None => ∀ r, r ∈ right → keyR r ≠ keyL m.1
                 end.
Proof.
  split; [apply merge_left_elem|]. destruct m as [l o]. simpl.
  intros [Hl Ho]. unfold merge_left. apply list_elem_of_bind. exists l.
  split; [|done].
  destruct (filter (λ r, keyR r = keyL l) right) as [|r0 ms] eqn:E.
  - destruct o as [r|]; [|by left]. destruct Ho as [Hr Hk].
    assert (r ∈ filter (λ r, keyR r = keyL l) right) as Hin
      by (by apply list_elem_of_filter).
    rewrite E in Hin. by apply not_elem_of_nil in Hin.
  - rewrite <- E. destruct o as [r|].
    + destruct Ho as [Hr Hk]. apply list_elem_of_fmap. exists r.
      split; [done|]. by apply list_elem_of_filter.
    + exfalso. assert (r0 ∈ filter (λ r, keyR r = keyL l) right) as Hin
        by (rewrite E; by left).
      apply list_elem_of_filter in Hin as [Hk Hr]. by apply (Ho r0).
Qed.

Lemma matches_month_exists (k : Z) (t : list train_row) :
  ∃ o, matches_month k t o.
Proof.
  destruct (filter (λ p, ncodpers p = k) t) as [|p ps] eqn:E.
  - exists None. intros p Hp Hk.
    assert (p ∈ filter (λ p, ncodpers p = k) t) as Hin
      by (by apply list_elem_of_filter).
    rewrite E in Hin. by apply not_elem_of_nil in Hin.
  - exists (Some p). assert (p ∈ filter (λ p, ncodpers p = k) t) as Hin
      by (rewrite E; by left).
    apply list_elem_of_filter in Hin as [Hk Hp]. by split.
Qed.

Lemma choice_exists (k : Z) (tables : list (list train_row)) :
  ∃ choice, Forall2 (matches_month k) tables choice.
Proof.
  induction tables as [|t tables [choice IH]]; [by exists []|].
  destruct (matches_month_exists k t) as [o Ho].
  exists (o :: choice). by constructor.
Qed.

Lemma fillna_month_cells o : fillna 0 <$> month_cells o = month_cells o.
Proof. unfold month_cells. apply fillna_idemp. Qed.

(** The rows of a join: every row of the table, once for each row of the
    month of its customer, or once with zeros. *)
Lemma join_month_elem merged t r' :
  r' ∈ join_month merged t
  ↔ ∃ r o, r ∈ merged ∧ matches_month (f_ncodpers r) t o
           ∧ r' = joined_row r [o].
Proof.
  unfold join_month. rewrite list_elem_of_fmap. split.
  - intros ([r o] & -> & Hm). apply merge_left_elem_iff in Hm as [Hr Ho].
    simpl in *. exists r, o. split; [done|]. split; [by destruct o|].
    unfold joined_row, month_cells. simpl.
    by rewrite app_nil_r, fmap_app.
  - intros (r & o & Hr & Ho & ->). exists (r, o). split.
    + unfold joined_row, month_cells. simpl.
      by rewrite app_nil_r, fmap_app.
    + apply merge_left_elem_iff. split; [done|]. by destruct o.
Qed.

Lemma joined_row_cons r o choice :
  joined_row (joined_row r [o]) choice = joined_row r (o :: choice).
Proof.
  unfold joined_row. simpl. f_equal.
  rewrite app_nil_r, fmap_app, fillna_idemp, fillna_month_cells.
  by rewrite <- app_assoc.
Qed.

(** The rows after the joins with the tables of several months. *)
Lemma foldl_join_month_elem tables merged t r' :
  r' ∈ foldl join_month merged (t :: tables)
  ↔ ∃ r choice, r ∈ merged
       ∧ Forall2 (matches_month (f_ncodpers r)) (t :: tables) choice
       ∧ r' = joined_row r choice.
Proof.
  revert merged t. induction tables as [|t2 tables IH]; intros merged t.
  - simpl. rewrite join_month_elem. split.
    + intros (r & o & Hr & Ho & ->). exists r, [o].
      split; [done|]. split; [|done]. by repeat constructor.
    + intros (r & choice & Hr & HF & ->).
      apply Forall2_cons_inv_l in HF as (o & choice' & Ho & HF & ->).
      apply Forall2_nil_inv_l in HF as ->. by exists r, o.
  - change (foldl join_month merged (t :: t2 :: tables))
      with (foldl join_month (join_month merged t) (t2 :: tables)).
    rewrite IH. split.
    + intros (r1 & choice & Hr1 & HF & ->).
      apply join_month_elem in Hr1 as (r & o & Hr & Ho & ->).
      exists r, (o :: choice). split; [done|]. split.
      * constructor; [done|]. done.
      * apply joined_row_cons.
    + intros (r & choice & Hr & HF & ->).
      apply Forall2_cons_inv_l in HF as (o & choice' & Ho & HF & ->).
      exists (joined_row r [o]), choice'. split.
      * apply join_month_elem. by exists r, o.
      * split; [done|]. symmetry. apply joined_row_cons.
Qed.

Lemma get_temp_features_is_Some train merged months :
  is_Some (get_temp_features train merged months)
  ↔ ∀ m, m ∈ months → m ∈ fecha_dato <$> train.
Proof.
  split.
  - intros [X (tables & Ht & _)%get_temp_features_joins] m Hm.
    apply mapM_Some_1 in Ht.
    apply list_elem_of_lookup in Hm as [i Hi].
    destruct (Forall2_lookup_l _ _ _ _ _ Ht Hi) as (t & _ & Hget).
    assert (is_Some (get_data_by_month train [m])) as Hs by eauto.
    apply get_data_by_month_is_Some in Hs as (m' & ->%list_elem_of_singleton & Hin).
    done.
  - intros Hin.
    assert (is_Some (mapM (λ m, get_data_by_month train [m]) months))
      as [tables Ht].
    { apply mapM_is_Some_2, Forall_forall. intros m Hm. simpl.
      apply get_data_by_month_is_Some. exists m. split; [by left|auto]. }
    exists (foldl join_month merged tables).
    apply get_temp_features_joins. eauto.
Qed.
End JoinRows.

(** C5.  For every feature table and every list of months,
    [get_temp_features] returns exactly when each month of the list has
    rows in the training file (it raises otherwise).  What it returns is the
    table after one left join on the customer id per month, each followed
    by [fillna(0)].  After each join no cell of the table is missing, so the
    result has no missing cell when a join was made, and also when the
    table given had none; with no month the table is returned as it was
    given.  Every row of the input table is kept: the rows of the result are
    the rows of the input, each paired for every month with a row of its
    customer in that month, or with nothing when the customer has no row
    there; such a row holds the customer, its old cells with zeros for the
    missing ones, then for each month in turn the 24 product flags of the
    paired row, zero where a flag is missing and all zero when nothing is
    paired.  The rows correspond one for one when each month holds a
    customer once. *)
Theorem temp_features_joins_filled
    (train : list Santander.train_row) (merged : list Santander.feature_row)
    (months : list string) :
  (is_Some (Santander.get_temp_features train merged months)
   ↔ ∀ m, m ∈ months → m ∈ Santander.fecha_dato <$> train)
  ∧ ∀ X, Santander.get_temp_features train merged months = Some X →
      ∃ tables,
        mapM (λ m, Santander.get_data_by_month train [m]) months = Some tables
        ∧ X = foldl Santander.join_month merged tables
        ∧ (∀ k, 0 < k ≤ length months →
             Forall (λ r, Forall is_Some (Santander.f_cells r))
               (foldl Santander.join_month merged (take k tables)))
        ∧ (months ≠ [] ∨ Forall (λ r, Forall is_Some (Santander.f_cells r)) merged →
           Forall (λ r, Forall is_Some (Santander.f_cells r)) X)
        ∧ (months = [] → X = merged)
        ∧ length merged ≤ length X
        ∧ (∀ r, r ∈ merged →
             ∃ r', r' ∈ X
               ∧ Santander.f_ncodpers r' = Santander.f_ncodpers r
               ∧ (months ≠ [] → Santander.extends_row (length months) r r'))
        ∧ (∀ r, r ∈ merged →
             ∃ choice,
               Forall2 (Santander.matches_month (Santander.f_ncodpers r))
                 tables choice
               ∧ (months ≠ [] → Santander.joined_row r choice ∈ X))
        ∧ (months ≠ [] →
           ∀ r', r' ∈ X
                 ↔ ∃ r choice,
                     r ∈ merged
                     ∧ Forall2 (Santander.matches_month (Santander.f_ncodpers r))
                         tables choice
                     ∧ r' = Santander.joined_row r choice)
        ∧ (Forall (λ t, NoDup (Santander.ncodpers <$> t)) tables →
           Santander.f_ncodpers <$> X = Santander.f_ncodpers <$> merged).
Proof.
  split; [apply get_temp_features_is_Some|].
  intros X (tables & Ht & ->)%get_temp_features_joins.
  pose proof (length_mapM _ _ _ Ht) as Hlen.
  exists tables. split; [done|]. split; [done|]. split.
  { intros k Hk. apply foldl_join_month_filled.
    destruct tables as [|t tables]; [simpl in Hlen; lia|].
    destruct k; [lia|done]. }
  split.
  { intros [Hne|Hfilled].
    - apply foldl_join_month_filled. by destruct months, tables.
    - destruct tables as [|t tables]; [done|].
      by apply foldl_join_month_filled. }
  split; [intros ->; by destruct tables|].
  split; [apply foldl_join_month_length|]. split.
  { intros r Hr.
    destruct (foldl_join_month_keeps merged tables r Hr) as (r' & Hr' & He & Hnil).
    exists r'. split; [done|]. split.
    - destruct tables as [|t tables]; [by rewrite (Hnil eq_refl)|].
      by destruct (He ltac:(done)) as [? _].
    - intros Hne. rewrite Hlen. apply He. by destruct months, tables. }
  split.
  { intros r Hr. destruct (choice_exists (Santander.f_ncodpers r) tables)
      as [choice Hchoice].
    exists choice. split; [done|]. intros Hne.
    destruct tables as [|t tables]; [by destruct months|].
    apply foldl_join_month_elem. by exists r, choice. }
  split.
  { intros Hne r'. destruct tables as [|t tables]; [by destruct months|].
    apply foldl_join_month_elem. }
  apply foldl_join_month_keys.
Qed.

Lemma temp_features_joins_filled_witness :
  let merged :=
    [ {| Santander.f_ncodpers := 1; Santander.f_cells := [None; Some 5%Q] |};
      {| Santander.f_ncodpers := 3; Santander.f_cells := [] |} ] in
  let months := ["2015-05-28"%string; "2015-06-28"%string] in
  is_Some (Santander.get_temp_features (Sample.may ++ Sample.june) merged months)
  ∧ ∀ X, Santander.get_temp_features (Sample.may ++ Sample.june) merged months
         = Some X →
         Forall (λ r, Forall is_Some (Santander.f_cells r)) X
         ∧ ∀ r', r' ∈ X
               ↔ ∃ r choice,
                   r ∈ merged
                   ∧ Forall2 (Santander.matches_month (Santander.f_ncodpers r))
                       [Sample.may; Sample.june] choice
                   ∧ r' = Santander.joined_row r choice.
Proof.
  intros merged months.
  destruct (temp_features_joins_filled (Sample.may ++ Sample.june) merged
              months) as [Hret Hres].
  split.
  - apply Hret. intros m Hm. simpl. set_solver.
  - intros X HX.
    destruct (Hres X HX) as (tables & Ht & _ & _ & Hfilled & _ & _ & _ & _ & Hrows & _).
    vm_compute in Ht. injection Ht as <-.
    split; [apply Hfilled; by left|]. by apply Hrows.
Defined.

(** Customer 1 has a row in May and in June, customer 3 in neither: the
    flags of the two rows for the first, zeros for the second. *)
Example get_temp_features_rows :
  Santander.get_temp_features (Sample.may ++ Sample.june)
    [ {| Santander.f_ncodpers := 1; Santander.f_cells := [None] |};
      {| Santander.f_ncodpers := 3; Santander.f_cells := [] |} ]
    ["2015-05-28"%string; "2015-06-28"%string]
  = Some [ Santander.joined_row
             {| Santander.f_ncodpers := 1; Santander.f_cells := [None] |}
             [ Some (Sample.row "2015-05-28" 1
                       ["ind_recibo_ult1"%string; "ind_cco_fin_ult1"%string]);
               Some (Sample.row "2015-06-28" 1 ["ind_recibo_ult1"%string]) ];
           Santander.joined_row
             {| Santander.f_ncodpers := 3; Santander.f_cells := [] |}
             [None; None] ].
Proof. vm_compute. reflexivity. Qed.

Example get_temp_features_sample :
  Santander.f_ncodpers <$>
    default [] (Santander.get_temp_features (Sample.may ++ Sample.june)
      [ {| Santander.f_ncodpers := 1; Santander.f_cells := [None] |};
        {| Santander.f_ncodpers := 3; Santander.f_cells := [] |} ]
      ["2015-05-28"%string])
  = [1%Z; 3%Z].
Proof. reflexivity. Qed.

(** ** Column statistics and conversions of text (Santander) *)

Section Statistics.
Import Santander.

Lemma insert_sorted_perm x l : insert_sorted x l ≡ₚ x :: l.
Proof.
  induction l as [|y l IH]; simpl; [done|].
  destruct (Qle_bool x y); [done|]. rewrite IH. apply perm_swap.
Qed.

Lemma sort_values_perm l : sort_values l ≡ₚ l.
Proof.
  induction l as [|x l IH]; simpl; [done|].
  by rewrite insert_sorted_perm, IH.
Qed.

Lemma insert_sorted_sorted x l :
  StronglySorted Qle l → StronglySorted Qle (insert_sorted x l).
Proof.
  induction l as [|y l IH]; simpl; intros Hs.
  - repeat constructor.
  - apply StronglySorted_inv in Hs as [Hs Hy].
    destruct (Qle_bool x y) eqn:E.
    + apply Qle_bool_iff in E. constructor; [by constructor|].
      constructor; [done|]. eapply Forall_impl; [exact Hy|].
      intros z Hz. by eapply Qle_trans.
    + constructor; [by apply IH|]. rewrite insert_sorted_perm.
      constructor; [|done].
      apply Qlt_le_weak, Qltb_lt. unfold Qltb. by rewrite E.
Qed.

Lemma sort_values_sorted l : StronglySorted Qle (sort_values l).
Proof.
  induction l as [|x l IH]; simpl; [constructor|].
  by apply insert_sorted_sorted.
Qed.

(** The median is missing exactly when no value is present, and it is one
    of the values, or the mean of two of them. *)
Lemma median_None col : median col = None ↔ dropna col = [].
Proof.
  unfold median. pose proof (sort_values_perm (dropna col)) as Hp.
  set (s := sort_values (dropna col)) in *. split.
  - intros H. destruct (length s) as [|n] eqn:En.
    + apply nil_length_inv in En. rewrite En in Hp.
      by apply Permutation_nil_l in Hp.
    + exfalso. change (S n =? 0) with false in H. cbv iota in H.
      destruct (Nat.odd (S n)).
      * apply lookup_ge_None in H.
        pose proof (Nat.div_lt (S n) 2 ltac:(lia) ltac:(lia)). lia.
      * destruct (lookup_lt_is_Some_2 s (S n / 2 - 1)) as [a Ha].
        { pose proof (Nat.div_lt (S n) 2 ltac:(lia) ltac:(lia)). lia. }
        destruct (lookup_lt_is_Some_2 s (S n / 2)) as [b Hb].
        { pose proof (Nat.div_lt (S n) 2 ltac:(lia) ltac:(lia)). lia. }
        rewrite Ha, Hb in H. done.
  - intros H. rewrite H in Hp. apply Permutation_nil_r in Hp.
    by rewrite Hp.
Qed.

Example median_odd : median [Some 3%Q; None; Some 1%Q; Some 2%Q] = Some 2%Q.
Proof. reflexivity. Qed.

Example median_even : median [Some 3%Q; Some 1%Q] = Some (4 # 2).
Proof. reflexivity. Qed.

Example py_int_blanks : py_int "     6" = Some 6%Z.
Proof. reflexivity. Qed.

Example py_int_sign : py_int " -999999 " = Some (-999999)%Z.
Proof. reflexivity. Qed.

Example py_int_underscore : py_int "1_000" = Some 1000%Z.
Proof. reflexivity. Qed.

Example py_int_text : py_int "3O" = None.
Proof. reflexivity. Qed.

Example py_int_float : py_int "12.0" = None.
Proof. reflexivity. Qed.

Example int_or_NA_blank_NA : int_or_NA (PStr "     NA") = Some None.
Proof. reflexivity. Qed.

Example int_or_NA_number : int_or_NA (PNum 3) = None.
Proof. reflexivity. Qed.

Example replace_negative_sample :
  replace_negative [None; Some (-999999)%Q; Some 12%Q; Some 7%Q]
  = [None; Some 12%Q; Some 12%Q; Some 7%Q].
Proof. reflexivity. Qed.
End Statistics.

(** ** Imputation of [renta] by segment (Santander) *)

Section Imputation.
Import Santander.
Implicit Types (data : list Data.client) (past : list string).

Lemma imputed_segmento past data0 r :
  Data.segmento
    (if bool_decide (Data.renta r = None ∧ Data.segmento r ∈ past)
     then Data.set_renta r (segment_median data0 (Data.segmento r)) else r)
  = Data.segmento r.
Proof. by case_bool_decide. Qed.

(** The rows of a segment that has not had its round are as they were. *)
Lemma imputed_segment_rows past data0 seg (l : list Data.client) :
  seg ∉ past →
  filter (λ r, Data.segmento r = seg)
    ((λ r, if bool_decide (Data.renta r = None ∧ Data.segmento r ∈ past)
           then Data.set_renta r (segment_median data0 (Data.segmento r))
           else r) <$> l)
  = filter (λ r, Data.segmento r = seg) l.
Proof.
  intros Hseg. induction l as [|r l IH]; [done|].
  rewrite fmap_cons, !filter_cons, imputed_segmento, IH.
  case_decide as Hr; [|done]. f_equal.
  rewrite bool_decide_eq_false_2; [done|]. intros [_ Hin]. by rewrite Hr in Hin.
Qed.

Lemma impute_segment_step past data0 seg :
  seg ∉ past →
  impute_segment seg (imputed past data0) = imputed (seg :: past) data0.
Proof.
  intros Hseg. unfold impute_segment, segment_median at 1.
  unfold imputed at 1 2. rewrite imputed_segment_rows by done.
  fold (segment_median data0 seg). unfold imputed.
  rewrite <- list_fmap_compose. apply list_fmap_ext. intros i r _. simpl.
  destruct (decide (Data.renta r = None)) as [Hnone|Hsome].
  - destruct (decide (Data.segmento r ∈ past)) as [Hin|Hout].
    + rewrite (bool_decide_eq_true_2 (_ ∧ _ ∈ past)) by done.
      rewrite (bool_decide_eq_true_2 (_ ∧ _ ∈ seg :: past))
        by (split; [done|by right]).
      rewrite bool_decide_eq_false_2; [done|]. simpl.
      intros [_ <-]. done.
    + rewrite (bool_decide_eq_false_2 (_ ∧ _ ∈ past)) by tauto.
      destruct (decide (Data.segmento r = seg)) as [<-|Hne].
      * rewrite !bool_decide_eq_true_2; [done| |done]. split; [done|by left].
      * rewrite !bool_decide_eq_false_2; [done| |tauto].
        intros [_ [?|?]%elem_of_cons]; done.
  - rewrite (bool_decide_eq_false_2 (_ ∧ _ ∈ past)) by tauto.
    rewrite !bool_decide_eq_false_2; [done|tauto|tauto].
Qed.

Lemma impute_loop past data0 segs :
  NoDup segs → (∀ seg, seg ∈ segs → seg ∉ past) →
  foldl (λ data seg, impute_segment seg data) (imputed past data0) segs
  = imputed (reverse segs ++ past) data0.
Proof.
  intros Hnd. revert past. induction Hnd as [|seg segs Hseg Hnd IH]; intros past Hd.
  - done.
  - simpl. rewrite impute_segment_step by (apply Hd; by left).
    rewrite IH.
    + by rewrite reverse_cons, <- app_assoc.
    + intros s Hs [->|Hin]%elem_of_cons; [done|].
      apply (Hd s); [by right|done].
Qed.

Lemma imputed_nil data0 : imputed [] data0 = data0.
Proof.
  unfold imputed. rewrite <- (list_fmap_id data0) at 2.
  apply list_fmap_ext. intros i r _. rewrite bool_decide_eq_false_2; [done|].
  intros [_ H]. by apply not_elem_of_nil in H.
Qed.

(** After the loop every row without [renta] has the median of the values
    of its segment that were present before the loop, and every other row
    is as it was. *)
Lemma impute_renta_spec data0 :
  impute_renta data0
  = (λ r, if bool_decide (Data.renta r = None)
          then Data.set_renta r (segment_median data0 (Data.segmento r))
          else r) <$> data0.
Proof.
  unfold impute_renta. rewrite <- (imputed_nil data0) at 1.
  rewrite impute_loop; [|apply unique_NoDup|intros ? _; apply not_elem_of_nil].
  unfold imputed. apply list_fmap_ext. intros i r Hr%list_elem_of_lookup_2.
  simpl. rewrite (bool_decide_ext (Data.renta r = None ∧ _) (Data.renta r = None));
    [done|].
  split; [tauto|]. intros Hnone. split; [done|].
  rewrite app_nil_r, elem_of_reverse, unique_elem.
  by apply list_elem_of_fmap_2.
Qed.
End Imputation.

(** ** [get_features]: conversions and imputation (Santander) *)

Section Features.
Import Santander.
Variable parse_float : string → cell.

Lemma int_or_NA_is_Some o : is_Some (int_or_NA o) ↔ int_text o.
Proof.
  unfold int_text. destruct o as [s| |]; simpl.
  - destruct (String.eqb (strip s) "NA") eqn:E.
    + apply String.eqb_eq in E. split; [|by eauto]. intros _. eauto.
    + apply String.eqb_neq in E. split.
      * intros [c Hc]. exists s. split; [done|]. right.
        destruct (py_int (strip s)); [eauto|done].
      * intros (s' & [= <-] & [?|[z Hz]]); [done|]. rewrite Hz. simpl. eauto.
  - split; [by intros [? ?]|by intros (? & ? & _)].
  - split; [by intros [? ?]|by intros (? & ? & _)].
Qed.

(** The conversion of a column raises exactly when the column holds text
    and one of its cells is not accepted. *)
Lemma int_column_is_Some col :
  is_Some (int_column col) ↔ is_object col = false ∨ Forall int_text col.
Proof.
  unfold int_column. destruct (is_object col) eqn:E.
  - rewrite mapM_is_Some. split.
    + intros H. right. eapply Forall_impl; [exact H|].
      intros o Ho. by apply int_or_NA_is_Some.
    + intros [?|H]; [done|]. eapply Forall_impl; [exact H|].
      intros o Ho. by apply int_or_NA_is_Some.
  - split; [by left|eauto].
Qed.

Lemma int_column_length col cells :
  int_column col = Some cells → length cells = length col.
Proof.
  unfold int_column. destruct (is_object col).
  - intros H. symmetry. by eapply length_mapM.
  - intros [= <-]. by rewrite length_fmap.
Qed.

Lemma fillna_with_lookup v (col : list cell) i c :
  col !! i = Some c →
  fillna_with v col !! i = Some (match c with Some q => Some q | None => v end).
Proof. intros H. unfold fillna_with. by rewrite list_lookup_fmap, H. Qed.

Lemma filter_zip_with_fst {A B C D} (f : A → B → C)
    (P : C → Prop) `{∀ c, Decision (P c)} (Q : A → Prop) `{∀ a, Decision (Q a)}
    (g : C → D) (h : A → D) (l : list A) (k : list B) :
  length l = length k →
  (∀ a b, P (f a b) ↔ Q a) → (∀ a b, g (f a b) = h a) →
  g <$> filter P (zip_with f l k) = h <$> filter Q l.
Proof.
  intros Hlen HP Hg. revert k Hlen.
  induction l as [|a l IH]; intros [|b k] Hlen; simplify_eq/=; [done|].
  rewrite !filter_cons. destruct (decide (Q a)) as [Hq|Hq].
  - rewrite decide_True by (by apply HP). simpl. by rewrite Hg, IH.
  - rewrite decide_False by (by rewrite HP). by apply IH.
Qed.

(** What [converted] returns, row by row. *)
Lemma converted_rows data antig0 years0 :
  int_column (Raw.antiguedad <$> data) = Some antig0 →
  int_column (Raw.age <$> data) = Some years0 →
  let antig := fillna_with (median (replace_negative antig0))
                 (replace_negative antig0) in
  let years := fillna_with (median years0) years0 in
  converted parse_float data
  = Some (zip_with (λ r ay, convert parse_float r ay.1 ay.2) data
            (zip antig years))
  ∧ length (zip antig years) = length data.
Proof.
  intros Ha Hy antig years. unfold converted. rewrite Ha, Hy. simpl.
  split; [done|].
  apply int_column_length in Ha, Hy. rewrite length_fmap in Ha, Hy.
  unfold antig, years, fillna_with, replace_negative.
  rewrite length_zip_with, !length_fmap. lia.
Qed.

Lemma segment_median_converted data (k : list (option Q * option Q)) seg :
  length data = length k →
  segment_median
    (zip_with (λ r ay, convert parse_float r ay.1 ay.2) data k) seg
  = median (segment_rentas parse_float data seg).
Proof.
  intros Hlen. unfold segment_median, segment_rentas. f_equal.
  by apply filter_zip_with_fst.
Qed.

(** The state of [data] after the conversions and the imputations, row by
    row, in terms of the rows read from the file. *)
Lemma prepare_rows data antig0 years0 :
  int_column (Raw.antiguedad <$> data) = Some antig0 →
  int_column (Raw.age <$> data) = Some years0 →
  ∃ rows,
    prepare parse_float data = Some rows
    ∧ length rows = length data
    ∧ ∀ i raw, data !! i = Some raw →
        ∃ r a y,
          rows !! i = Some r
          ∧ replace_negative antig0 !! i = Some a
          ∧ years0 !! i = Some y
          ∧ Data.ncodpers r = Raw.ncodpers raw
          ∧ Data.segmento r = segment_of raw
          ∧ Data.renta r
            = match to_numeric parse_float (Raw.renta raw) with
              | Some q => Some q
              | None => median (segment_rentas parse_float data (segment_of raw))
              end
          ∧ Data.cod_prov r = Some (default 99%Q (Raw.cod_prov raw))
          ∧ Data.age r
            = match y with Some q => Some q | None => median years0 end
          ∧ Data.antiguedad r
            = match a with
              | Some q => Some q
              | None => median (replace_negative antig0)
              end.
Proof.
  intros Ha Hy. destruct (converted_rows data antig0 years0 Ha Hy) as [Hc Hlen].
  unfold prepare. rewrite Hc. simpl. eexists. split; [done|].
  rewrite impute_renta_spec. split.
  { rewrite length_fmap, length_zip_with. lia. }
  intros i raw Hi.
  pose proof (int_column_length _ _ Ha) as Hla.
  pose proof (int_column_length _ _ Hy) as Hly.
  rewrite length_fmap in Hla, Hly.
  destruct (lookup_lt_is_Some_2 (replace_negative antig0) i) as [a Hai].
  { unfold replace_negative. rewrite length_fmap, Hla.
    by eapply lookup_lt_Some. }
  destruct (lookup_lt_is_Some_2 years0 i) as [y Hyi].
  { rewrite Hly. by eapply lookup_lt_Some. }
  eexists _, a, y. split; [|split; [exact Hai|split; [exact Hyi|]]].
  - rewrite list_lookup_fmap, lookup_zip_with, Hi. simpl.
    rewrite lookup_zip_with.
    rewrite (fillna_with_lookup _ _ _ _ Hai), (fillna_with_lookup _ _ _ _ Hyi).
    simpl. reflexivity.
  - rewrite segment_median_converted by done. simpl.
    destruct (to_numeric parse_float (Raw.renta raw)) as [q|] eqn:E; simpl;
      repeat split; try done; by destruct (Raw.cod_prov raw).
Qed.

Lemma prepare_is_Some data :
  is_Some (prepare parse_float data)
  ↔ is_Some (int_column (Raw.antiguedad <$> data))
    ∧ is_Some (int_column (Raw.age <$> data)).
Proof.
  split.
  - unfold prepare, converted. intros [rows H].
    destruct (int_column (Raw.antiguedad <$> data)); [|done].
    destruct (int_column (Raw.age <$> data)); [|done]. eauto.
  - intros [[antig0 Ha] [years0 Hy]].
    destruct (prepare_rows data antig0 years0 Ha Hy) as (rows & -> & _). eauto.
Qed.
End Features.

(** C3.  The loop over the segments leaves every record whose [renta] is
    missing with the median of the [renta] values that are present among
    the records of its own segment, and every other record as it was; the
    segments have their round one after the other and none disturbs the
    median of another.  In terms of the file: when [get_features] gets
    through its conversions the table has one row per record, and a record
    whose [renta] is missing after the numeric coercion has the median of
    the values present in its segment.  (The median of no value is itself
    missing.) *)
Theorem renta_imputed_by_segment
    (parse_float : string → option Q) (data : list Santander.Raw.client) :
  (∀ data0 : list Santander.Data.client,
     Santander.impute_renta data0
     = (λ r, if bool_decide (Santander.Data.renta r = None)
             then Santander.Data.set_renta r
                    (Santander.median
                       (Santander.Data.renta
                          <$> filter (λ r', Santander.Data.segmento r'
                                            = Santander.Data.segmento r) data0))
             else r) <$> data0)
  ∧ ∀ rows, Santander.prepare parse_float data = Some rows →
      length rows = length data
      ∧ ∀ i raw, data !! i = Some raw →
          ∃ r, rows !! i = Some r
               ∧ Santander.Data.segmento r = Santander.segment_of raw
               ∧ Santander.Data.renta r
                 = match Santander.to_numeric parse_float
                           (Santander.Raw.renta raw) with
                   | Some q => Some q
                   | None =>
                       Santander.median
                         (Santander.segment_rentas parse_float data
                            (Santander.segment_of raw))
                   end.
Proof.
  split; [apply impute_renta_spec|].
  intros rows Hprep.
  assert (is_Some (Santander.prepare parse_float data)) as Hsome by eauto.
  apply prepare_is_Some in Hsome as [[antig0 Ha] [years0 Hy]].
  destruct (prepare_rows parse_float data antig0 years0 Ha Hy)
    as (rows' & Hrows & Hlen & Hrow).
  rewrite Hprep in Hrows. injection Hrows as <-. split; [done|].
  intros i raw Hi.
  destruct (Hrow i raw Hi) as (r & a & y & Hr & _ & _ & _ & Hseg & Hrenta & _).
  eauto.
Qed.

Lemma renta_imputed_by_segment_witness :
  ∃ rows, Santander.prepare Sample.no_float Sample.clients = Some rows
    ∧ Santander.Data.renta <$> rows
      = [ Some (4000 # 2); Some 1000%Q; Some 3000%Q; None ]
    ∧ ∀ i raw, Sample.clients !! i = Some raw →
        ∃ r, rows !! i = Some r
             ∧ Santander.Data.segmento r = Santander.segment_of raw
             ∧ Santander.Data.renta r
               = match Santander.to_numeric Sample.no_float
                         (Santander.Raw.renta raw) with
                 | Some q => Some q
                 | None =>
                     Santander.median
                       (Santander.segment_rentas Sample.no_float Sample.clients
                          (Santander.segment_of raw))
                 end.
Proof.
  eexists. split; [vm_compute; reflexivity|].
  split; [reflexivity|].
  eapply (proj2 (renta_imputed_by_segment Sample.no_float Sample.clients)).
  vm_compute. reflexivity.
Defined.

(** C6, as the code has it.  [get_features] raises exactly when the
    [antiguedad] or the [age] column holds text and one of its cells is
    neither [NA] nor an integer literal; nothing in [renta] makes it raise.
    When it returns: a [renta] that is not a number is coerced to missing
    and then takes the median of its segment; a missing [cod_prov] is 99; a
    missing [age] is the median of the ages that are present; a missing
    [antiguedad] is the median of the values that are present, the negative
    ones having been replaced by the largest value before; and no cell of
    the returned table is missing. *)
Theorem get_features_imputation
    (parse_float : string → option Q)
    (data : list Santander.Raw.client) (pdata : list Santander.train_row) :
  (is_Some (Santander.get_features parse_float data pdata)
   ↔ (Santander.is_object (Santander.Raw.antiguedad <$> data) = false
      ∨ Forall Santander.int_text (Santander.Raw.antiguedad <$> data))
     ∧ (Santander.is_object (Santander.Raw.age <$> data) = false
        ∨ Forall Santander.int_text (Santander.Raw.age <$> data)))
  ∧ ∀ antig0 years0,
      Santander.int_column (Santander.Raw.antiguedad <$> data) = Some antig0 →
      Santander.int_column (Santander.Raw.age <$> data) = Some years0 →
      ∃ rows,
        Santander.prepare parse_float data = Some rows
        ∧ Santander.get_features parse_float data pdata
          = Some (Santander.join_month (Santander.Xclient rows) pdata)
        ∧ Forall (λ x, Forall is_Some (Santander.f_cells x))
            (Santander.join_month (Santander.Xclient rows) pdata)
        ∧ length rows = length data
        ∧ ∀ i raw, data !! i = Some raw →
            ∃ r a y,
              rows !! i = Some r
              ∧ Santander.replace_negative antig0 !! i = Some a
              ∧ years0 !! i = Some y
              ∧ Santander.Data.renta r
                = match Santander.to_numeric parse_float
                          (Santander.Raw.renta raw) with
                  | Some q => Some q
                  | None =>
                      Santander.median
                        (Santander.segment_rentas parse_float data
                           (Santander.segment_of raw))
                  end
              ∧ Santander.Data.cod_prov r
                = Some (default 99%Q (Santander.Raw.cod_prov raw))
              ∧ Santander.Data.age r
                = match y with
                  | Some q => Some q
                  | None => Santander.median years0
                  end
              ∧ Santander.Data.antiguedad r
                = match a with
                  | Some q => Some q
                  | None => Santander.median (Santander.replace_negative antig0)
                  end.
Proof.
  split.
  - rewrite <- !int_column_is_Some, <- (prepare_is_Some parse_float).
    unfold Santander.get_features.
    destruct (Santander.prepare parse_float data); simpl; split; eauto;
      by intros [? ?].
  - intros antig0 years0 Ha Hy.
    destruct (prepare_rows parse_float data antig0 years0 Ha Hy)
      as (rows & Hrows & Hlen & Hrow).
    exists rows. split; [done|].
    split; [unfold Santander.get_features; by rewrite Hrows|].
    split; [apply join_month_filled|]. split; [done|].
    intros i raw Hi.
    destruct (Hrow i raw Hi)
      as (r & a & y & Hr & Hai & Hyi & _ & _ & Hrenta & Hprov & Hage & Hant).
    exists r, a, y. eauto 10.
Qed.

Lemma get_features_imputation_witness :
  is_Some (Santander.get_features Sample.no_float Sample.clients Sample.may)
  ∧ ∃ rows,
      Santander.prepare Sample.no_float Sample.clients = Some rows
      ∧ Santander.Data.renta <$> rows
        = [ Some (4000 # 2); Some 1000%Q; Some 3000%Q; None ]
      ∧ Santander.Data.age <$> rows
        = [ Some 35%Q; Some 40%Q; Some 40%Q; Some 40%Q ]
      ∧ Santander.Data.antiguedad <$> rows
        = [ Some 12%Q; Some 12%Q; Some 12%Q; Some 12%Q ]
      ∧ Santander.Data.cod_prov <$> rows
        = [ Some 99%Q; Some 99%Q; Some 99%Q; Some 99%Q ].
Proof.
  destruct (get_features_imputation Sample.no_float Sample.clients Sample.may)
    as [Hret Hrows].
  split.
  - apply Hret. split; right; repeat constructor;
      eexists; (split; [reflexivity|]); vm_compute; eauto.
  - destruct (Hrows [None; Some (-5)%Q; Some 12%Q; Some 12%Q]
                [Some 35%Q; None; Some 40%Q; Some 40%Q])
      as (rows & Hprep & _); [reflexivity..|].
    exists rows. split; [exact Hprep|].
    vm_compute in Hprep. injection Hprep as <-. repeat split.
Defined.

(** An age that is text and not a number makes [get_features] raise. *)
Lemma get_features_bad_age_counterexample :
  Santander.get_features Sample.no_float Sample.bad_age [] = None.
Proof. reflexivity. Qed.

(** ** The customers of the feature table (Santander) *)

Section Customers.
Import Santander.

Lemma zip_with_keys {A B C} (F : A → B → C) (key : C → Z) (keyA : A → Z)
    (l : list A) (k : list B) :
  length k = length l → (∀ a b, key (F a b) = keyA a) →
  key <$> zip_with F l k = keyA <$> l.
Proof.
  intros Hlen HF. revert k Hlen.
  induction l as [|a l IH]; intros [|b k] Hlen; simplify_eq/=; [done|].
  by rewrite HF, IH.
Qed.

Lemma Xclient_keys (rows : list Data.client) :
  f_ncodpers <$> Xclient rows = Data.ncodpers <$> rows.
Proof.
  unfold Xclient. apply zip_with_keys; [|done].
  unfold get_dummies. rewrite length_zip_with, !length_fmap. lia.
Qed.

(** Every customer of the table read from the file has a row in the table
    of features. *)
Lemma get_features_keeps parse_float data pdata X c :
  get_features parse_float data pdata = Some X → c ∈ data →
  Raw.ncodpers c ∈ f_ncodpers <$> X.
Proof.
  unfold get_features. intros HX Hc.
  destruct (prepare parse_float data) as [rows|] eqn:Hprep; [|done].
  simpl in HX. injection HX as <-.
  assert (is_Some (prepare parse_float data)) as Hsome by eauto.
  apply prepare_is_Some in Hsome as [[antig0 Ha] [years0 Hy]].
  destruct (prepare_rows parse_float data antig0 years0 Ha Hy)
    as (rows' & Hrows & _ & Hrow).
  rewrite Hprep in Hrows. injection Hrows as <-.
  apply list_elem_of_lookup in Hc as [i Hi].
  destruct (Hrow i c Hi) as (r & _ & _ & Hr & _ & _ & Hkey & _).
  assert (Raw.ncodpers c ∈ f_ncodpers <$> Xclient rows) as Hin.
  { rewrite Xclient_keys, <- Hkey. apply list_elem_of_fmap_2.
    by eapply list_elem_of_lookup_2. }
  apply list_elem_of_fmap in Hin as (x & Hx & Hin).
  destruct (join_month_keeps (Xclient rows) pdata x Hin) as (x' & Hx' & [Hk _]).
  rewrite Hx, <- Hk. by apply list_elem_of_fmap_2.
Qed.

Lemma get_temp_features_keeps train merged months X k :
  get_temp_features train merged months = Some X →
  k ∈ f_ncodpers <$> merged → k ∈ f_ncodpers <$> X.
Proof.
  intros (tables & _ & ->)%get_temp_features_joins
         (r & -> & Hr)%list_elem_of_fmap.
  destruct (foldl_join_month_keeps merged tables r Hr) as (r' & Hr' & Hne & Hnil).
  destruct tables as [|t tables].
  - rewrite <- (Hnil eq_refl). by apply list_elem_of_fmap_2.
  - destruct (Hne ltac:(done)) as [<- _]. by apply list_elem_of_fmap_2.
Qed.
End Customers.

(** ** The output table (Santander) *)

Section Output.
Import Santander.

Lemma rec_products_NoDup : NoDup rec_products.
Proof. apply (bool_decide_unpack (NoDup rec_products)). vm_compute. exact I. Qed.

Lemma transpose_length n probs : length (transpose n probs) = n.
Proof. unfold transpose. by rewrite length_fmap, length_seq. Qed.

Lemma transpose_row n probs r row :
  transpose n probs !! r = Some row → length row = length probs.
Proof.
  unfold transpose. rewrite list_lookup_fmap.
  destruct (seq 0 n !! r); simpl; [|done]. intros [= <-]. by rewrite length_fmap.
Qed.

Lemma names_of_top_k v sel :
  top_k 5 v sel → length v = length rec_products →
  ∃ codes, mapM (λ j, rec_products !! j) sel = Some codes ∧ codes_of sel codes.
Proof.
  intros (Hlen & Hnd & Hlt & _) Hv.
  destruct (mapM_is_Some_2 (λ j, rec_products !! j) sel) as [codes Hcodes].
  { apply Forall_forall. intros j Hj. apply lookup_lt_is_Some_2.
    rewrite <- Hv. by apply Hlt. }
  exists codes. split; [done|].
  pose proof (mapM_Some_1 _ _ _ Hcodes) as HF.
  split; [|split; [|done]].
  - rewrite <- (Forall2_length _ _ _ HF), Hlen, Hv. reflexivity.
  - apply NoDup_alt. intros a b c Ha Hb.
    destruct (Forall2_lookup_r _ _ _ _ _ HF Ha) as (j1 & Hj1 & Hc1).
    destruct (Forall2_lookup_r _ _ _ _ _ HF Hb) as (j2 & Hj2 & Hc2).
    assert (j1 = j2) as ->.
    { eapply NoDup_lookup; [apply rec_products_NoDup|done..]. }
    by eapply NoDup_lookup.
Qed.

Lemma product_names_top5 (rows : list (list Q)) (likeliest : list (list nat)) :
  Forall2 (top_k 5) rows likeliest →
  Forall (λ v, length v = length rec_products) rows →
  ∃ preds, product_names likeliest = Some preds
           ∧ Forall2 codes_of likeliest preds.
Proof.
  intros HF. unfold product_names.
  induction HF as [|v sel rows likeliest Htop HF IH]; intros Hrows.
  - by exists [].
  - apply Forall_cons in Hrows as [Hv Hrows].
    destruct (IH Hrows) as (preds & Hpreds & Hall).
    destruct (names_of_top_k v sel Htop Hv) as (codes & Hcodes & Hc).
    exists (codes :: preds). split; [|by constructor].
    rewrite mapM_Some in Hpreds |- *. constructor; [done|done].
Qed.

Lemma array_column_spec (preds : list (list string)) i :
  preds ≠ [] → Forall (λ r, length r = 5) preds → i < 5 →
  ∃ col, array_column preds i = Some col
         ∧ length col = length preds
         ∧ ∀ r codes, preds !! r = Some codes → col !! r = codes !! i.
Proof.
  intros Hne Hall Hi. unfold array_column.
  destruct preds as [|r0 rest] eqn:E; [done|]. rewrite <- E in *.
  rewrite bool_decide_eq_true_2.
  - destruct (mapM_is_Some_2 (λ r : list string, r !! i) preds) as [col Hcol].
    { eapply Forall_impl; [exact Hall|]. intros r Hr. simpl in *.
      apply lookup_lt_is_Some_2. lia. }
    exists col. split; [done|].
    pose proof (mapM_Some_1 _ _ _ Hcol) as HF.
    split; [symmetry; by eapply Forall2_length|].
    intros r codes Hr.
    destruct (Forall2_lookup_l _ _ _ _ _ HF Hr) as (c & Hc & Hci).
    by rewrite Hc, Hci.
  - assert (length r0 = 5) as Hr0.
    { rewrite E in Hall. by apply Forall_cons in Hall as [? _]. }
    eapply Forall_impl; [exact Hall|]. intros r Hr. simpl in *. congruence.
Qed.

Lemma out_spec (ids : list Z) (preds : list (list string)) :
  preds ≠ [] → length preds = length ids → Forall (λ r, length r = 5) preds →
  ∃ o, out ids preds = Some o
       ∧ out_id o = ids
       ∧ fst <$> out_p o = ["p0"; "p1"; "p2"; "p3"; "p4"]%string
       ∧ ∀ j, j < 5 →
           ∃ name col, out_p o !! j = Some (name, col)
                       ∧ ∀ r codes, preds !! r = Some codes →
                                    col !! r = codes !! j.
Proof.
  intros Hne Hlen Hall. unfold out.
  destruct (array_column_spec preds 0 Hne Hall) as (c0 & E0 & L0 & H0); [lia|].
  destruct (array_column_spec preds 1 Hne Hall) as (c1 & E1 & L1 & H1); [lia|].
  destruct (array_column_spec preds 2 Hne Hall) as (c2 & E2 & L2 & H2); [lia|].
  destruct (array_column_spec preds 3 Hne Hall) as (c3 & E3 & L3 & H3); [lia|].
  destruct (array_column_spec preds 4 Hne Hall) as (c4 & E4 & L4 & H4); [lia|].
  cbn [seq mapM]. rewrite E0, E1, E2, E3, E4. cbn [mbind option_bind].
  rewrite !bool_decide_eq_true_2 by congruence.
  cbn [mbind option_bind mret option_ret].
  eexists. split; [reflexivity|]. split; [done|]. split; [reflexivity|].
  intros [|[|[|[|[|j]]]]] Hj; try lia; eexists _, _; (split; [reflexivity|done]).
Qed.
End Output.

(** ** The predictions that are ranked (Santander) *)

Section RankedProducts.
Import Santander.

Lemma transpose_lookup n probs r row :
  transpose n probs !! r = Some row →
  r < n ∧ row = (λ col, score_at col r) <$> probs.
Proof.
  unfold transpose. rewrite list_lookup_fmap.
  destruct (seq 0 n !! r) as [r'|] eqn:E; simpl; [|done].
  apply lookup_seq in E as [-> Hr]. intros [= <-]. done.
Qed.

Context {classifier : Type}.
Variable predict_proba1 : classifier → list (list (option Q)) → list Q.
Variable clfdict : gmap string classifier.
Variable cells : list (list (option Q)).
Variable probs : list (list Q).
Hypothesis Hcontract : ∀ clf X, length (predict_proba1 clf X) = length X.
Hypothesis Hprobs : predict_test classifier predict_proba1 clfdict cells = Some probs.

Lemma predict_test_length : length probs = length rec_products.
Proof.
  apply mapM_Some_1 in Hprobs. symmetry. by eapply Forall2_length.
Qed.

(** The entry of a product in the row of a customer is what the
    classifier of the product predicts for the customer. *)
Lemma predict_test_entry r row j pr :
  transpose (length cells) probs !! r = Some row →
  rec_products !! j = Some pr →
  ∃ clf p, clfdict !! pr = Some clf
           ∧ predict_proba1 clf cells !! r = Some p
           ∧ row !! j = Some p
           ∧ score_at row j = p.
Proof.
  intros [Hr ->]%transpose_lookup Hj.
  pose proof (mapM_Some_1 _ _ _ Hprobs) as HF.
  destruct (Forall2_lookup_l _ _ _ _ _ HF Hj) as (pj & Hpj & Hclf).
  destruct (clfdict !! pr) as [clf|] eqn:E; [|done].
  injection Hclf as <-.
  destruct (lookup_lt_is_Some_2 (predict_proba1 clf cells) r) as [p Hp];
    [by rewrite Hcontract|].
  exists clf, p. split; [done|]. split; [done|].
  assert (score_at (predict_proba1 clf cells) r = p) as Hs
    by (unfold score_at; by rewrite nth_lookup, Hp).
  split.
  - by rewrite list_lookup_fmap, Hpj; simpl; rewrite Hs.
  - unfold score_at at 1. rewrite nth_lookup, list_lookup_fmap, Hpj. simpl.
    exact Hs.
Qed.

(** The codes of the best indices of a row are the products with the
    highest predictions for the customer of the row. *)
Lemma codes_are_best r row sel codes :
  transpose (length cells) probs !! r = Some row →
  top_k 5 row sel → codes_of sel codes →
  (∀ k c, codes !! k = Some c →
     ∃ j, sel !! k = Some j ∧ rec_products !! j = Some c)
  ∧ (∀ c c' clf clf' p p',
       c ∈ codes → c' ∈ rec_products → c' ∉ codes →
       clfdict !! c = Some clf → clfdict !! c' = Some clf' →
       predict_proba1 clf cells !! r = Some p →
       predict_proba1 clf' cells !! r = Some p' →
       (p' <= p)%Q)
  ∧ (∀ k c1 c2 clf1 clf2 p1 p2,
       codes !! k = Some c1 → codes !! S k = Some c2 →
       clfdict !! c1 = Some clf1 → clfdict !! c2 = Some clf2 →
       predict_proba1 clf1 cells !! r = Some p1 →
       predict_proba1 clf2 cells !! r = Some p2 →
       (p2 <= p1)%Q).
Proof.
  intros Hrow (Hlen & Hnd & Hlt & Hdesc & Hbest) (_ & _ & HF).
  assert (∀ k c, codes !! k = Some c →
            ∃ j, sel !! k = Some j ∧ rec_products !! j = Some c) as Hcode.
  { intros k c Hk. destruct (Forall2_lookup_r _ _ _ _ _ HF Hk) as (j & ? & ?).
    eauto. }
  assert (∀ j c clf p, rec_products !! j = Some c → clfdict !! c = Some clf →
            predict_proba1 clf cells !! r = Some p → score_at row j = p)
    as Hscore.
  { intros j c clf p Hj Hclf Hp.
    destruct (predict_test_entry r row j c Hrow Hj) as (clf' & p' & E1 & E2 & _ & Hs).
    congruence. }
  split; [done|]. split.
  - intros c c' clf clf' p p' [k Hk]%list_elem_of_lookup
           [j' Hj']%list_elem_of_lookup Hnot Hclf Hclf' Hp Hp'.
    destruct (Hcode k c Hk) as (j & Hsel & Hj).
    rewrite <- (Hscore j c clf p Hj Hclf Hp).
    rewrite <- (Hscore j' c' clf' p' Hj' Hclf' Hp').
    apply Hbest.
    + apply transpose_lookup in Hrow as [_ ->]. rewrite length_fmap.
      rewrite predict_test_length. by eapply lookup_lt_Some.
    + intros [k' Hk']%list_elem_of_lookup. apply Hnot.
      destruct (Forall2_lookup_l _ _ _ _ _ HF Hk') as (c'' & Hc'' & Hj'').
      assert (c'' = c') as -> by congruence.
      by eapply list_elem_of_lookup_2.
    + by eapply list_elem_of_lookup_2.
  - intros k c1 c2 clf1 clf2 p1 p2 Hk1 Hk2 Hclf1 Hclf2 Hp1 Hp2.
    destruct (Hcode k c1 Hk1) as (j1 & Hsel1 & Hj1).
    destruct (Hcode (S k) c2 Hk2) as (j2 & Hsel2 & Hj2).
    rewrite <- (Hscore j1 c1 clf1 p1 Hj1 Hclf1 Hp1).
    rewrite <- (Hscore j2 c2 clf2 p2 Hj2 Hclf2 Hp2).
    by apply (Hdesc k).
Qed.
End RankedProducts.

(** C4.  [probs] holds what the classifier of each product of
    [rec_products] predicts for the rows of the feature table of the test
    set, one number per row.  The table written to [output.csv] has the ids
    of that feature table, in which every customer of the test file has a
    row, and the columns [p0] .. [p4]; the row of a customer holds exactly
    five product codes, all different and all from [rec_products].  They
    are the five products with the highest predicted probabilities for that
    customer, the most probable first: the entry of a product in the row
    that is ranked is the prediction of the classifier of that product for
    that row of the feature table, no product that is left out has a higher
    prediction than a product that is written, and the predictions do not
    increase from [p0] to [p4].  The table is written whenever the test set
    has a row. *)
Theorem output_top5 {classifier : Type}
    (predict_proba1 : classifier → list (list (option Q)) → list Q)
    (clfdict : gmap string classifier)
    (parse_float : string → option Q)
    (data : list Santander.Raw.client)
    (pdata train : list Santander.train_row) (months : list string)
    (X0 Xtest : list Santander.feature_row)
    (probs : list (list Q)) (order : list (list nat)) :
  Santander.get_features parse_float data pdata = Some X0 →
  Santander.get_temp_features train X0 months = Some Xtest →
  let ids := Santander.f_ncodpers <$> Xtest in
  let cells := Santander.f_cells <$> Xtest in
  (∀ clf X, length (predict_proba1 clf X) = length X) →
  Santander.predict_test classifier predict_proba1 clfdict cells = Some probs →
  Forall2 is_argsort (Santander.transpose (length ids) probs) order →
  (∀ c, c ∈ data → Santander.Raw.ncodpers c ∈ ids)
  ∧ length probs = length Santander.rec_products
  ∧ (ids ≠ [] →
     ∃ preds o, Santander.test_preds order = Some preds
                ∧ Santander.out ids preds = Some o)
  ∧ ∀ preds o,
      Santander.test_preds order = Some preds →
      Santander.out ids preds = Some o →
      Santander.out_id o = ids
      ∧ fst <$> Santander.out_p o = ["p0"; "p1"; "p2"; "p3"; "p4"]%string
      ∧ ∀ r id, ids !! r = Some id →
          ∃ row sel codes,
            Santander.transpose (length ids) probs !! r = Some row
            ∧ Santander.likeliestprods_test order !! r = Some sel
            ∧ top_k 5 row sel
            ∧ Santander.codes_of sel codes
            ∧ (∀ j, j < 5 →
                 ∃ name col, Santander.out_p o !! j = Some (name, col)
                             ∧ col !! r = codes !! j)
            ∧ (∀ j pr, Santander.rec_products !! j = Some pr →
                 ∃ clf p, clfdict !! pr = Some clf
                          ∧ predict_proba1 clf cells !! r = Some p
                          ∧ row !! j = Some p)
            ∧ (∀ k c, codes !! k = Some c →
                 ∃ j, sel !! k = Some j
                      ∧ Santander.rec_products !! j = Some c)
            ∧ (∀ c c' clf clf' p p',
                 c ∈ codes → c' ∈ Santander.rec_products → c' ∉ codes →
                 clfdict !! c = Some clf → clfdict !! c' = Some clf' →
                 predict_proba1 clf cells !! r = Some p →
                 predict_proba1 clf' cells !! r = Some p' →
                 (p' <= p)%Q)
            ∧ (∀ k c1 c2 clf1 clf2 p1 p2,
                 codes !! k = Some c1 → codes !! S k = Some c2 →
                 clfdict !! c1 = Some clf1 → clfdict !! c2 = Some clf2 →
                 predict_proba1 clf1 cells !! r = Some p1 →
                 predict_proba1 clf2 cells !! r = Some p2 →
                 (p2 <= p1)%Q).
Proof.
  intros HX0 HXtest ids cells Hcontract Hpredict Horder.
  pose proof (predict_test_length predict_proba1 clfdict cells probs Hpredict)
    as Hprobs.
  assert (length ids = length cells) as Hn
    by (unfold ids, cells; by rewrite !length_fmap).
  split.
  { intros c Hc. eapply get_temp_features_keeps; [exact HXtest|].
    by eapply get_features_keeps. }
  split; [done|].
  pose proof (top_k_rows 5 _ _ Horder) as Htop.
  change (Forall2 (top_k 5) (Santander.transpose (length ids) probs)
            (Santander.likeliestprods_test order)) in Htop.
  destruct (product_names_top5 _ _ Htop) as (preds & Hpreds & Hcodes).
  { apply Forall_forall. intros row [r Hr]%list_elem_of_lookup.
    apply transpose_row in Hr. congruence. }
  assert (length preds = length ids) as Hlen.
  { rewrite <- (Forall2_length _ _ _ Hcodes), <- (Forall2_length _ _ _ Htop).
    apply transpose_length. }
  assert (Forall (λ r, length r = 5) preds) as Hfive.
  { apply Forall_forall. intros codes [r Hr]%list_elem_of_lookup.
    destruct (Forall2_lookup_r _ _ _ _ _ Hcodes Hr) as (sel & _ & Hc & _).
    exact Hc. }
  split.
  { intros Hne. destruct (out_spec ids preds) as (o & Ho & _); [|done..|].
    - intros ->. by destruct ids.
    - exists preds, o. by split. }
  intros preds' o' Hpreds' Ho'. unfold Santander.test_preds in Hpreds'.
  rewrite Hpreds in Hpreds'. injection Hpreds' as <-.
  destruct (decide (preds = [])) as [->|Hne].
  { destruct ids; [done|]. done. }
  destruct (out_spec ids preds Hne Hlen Hfive) as (o & Ho & Hid & Hnames & Hcols).
  rewrite Ho in Ho'. injection Ho' as <-.
  split; [done|]. split; [done|].
  intros r id Hr.
  destruct (lookup_lt_is_Some_2 (Santander.transpose (length ids) probs) r)
    as [row Hrow].
  { rewrite transpose_length. by eapply lookup_lt_Some. }
  destruct (Forall2_lookup_l _ _ _ _ _ Htop Hrow) as (sel & Hsel & Hk).
  destruct (Forall2_lookup_l _ _ _ _ _ Hcodes Hsel) as (codes & Hc & Hof).
  exists row, sel, codes. repeat (split; [done|]).
  split.
  { intros j Hj. destruct (Hcols j Hj) as (name & col & Hcol & Hcell).
    exists name, col. split; [done|]. by apply Hcell. }
  rewrite Hn in Hrow. split.
  { intros j pr Hj.
    destruct (predict_test_entry predict_proba1 clfdict cells probs
                Hcontract Hpredict r row j pr Hrow Hj)
      as (clf & p & ? & ? & ? & _).
    by exists clf, p. }
  apply (codes_are_best predict_proba1 clfdict cells probs Hcontract Hpredict
           r row sel codes Hrow Hk Hof).
Qed.

Lemma output_top5_witness :
  let train := Sample.may ++ Sample.june in
  let months := ["2015-05-28"%string] in
  let X0 :=
    default [] (Santander.get_features Sample.no_float Sample.clients Sample.may) in
  let Xtest := default [] (Santander.get_temp_features train X0 months) in
  let ids := Santander.f_ncodpers <$> Xtest in
  let cells := Santander.f_cells <$> Xtest in
  let probs := Sample.probs in
  let predict_proba1 := Sample.predict_proba1 in
  let clfdict := Sample.clfdict in
  let order := argsort <$> Santander.transpose (length ids) probs in
  ids = [1; 2; 3; 4]%Z
  ∧ (∀ c, c ∈ Sample.clients → Santander.Raw.ncodpers c ∈ ids)
  ∧ length probs = length Santander.rec_products
  ∧ (ids ≠ [] →
     ∃ preds o, Santander.test_preds order = Some preds
                ∧ Santander.out ids preds = Some o)
  ∧ ∀ preds o,
      Santander.test_preds order = Some preds →
      Santander.out ids preds = Some o →
      Santander.out_id o = ids
      ∧ fst <$> Santander.out_p o = ["p0"; "p1"; "p2"; "p3"; "p4"]%string
      ∧ ∀ r id, ids !! r = Some id →
          ∃ row sel codes,
            Santander.transpose (length ids) probs !! r = Some row
            ∧ Santander.likeliestprods_test order !! r = Some sel
            ∧ top_k 5 row sel
            ∧ Santander.codes_of sel codes
            ∧ (∀ j, j < 5 →
                 ∃ name col, Santander.out_p o !! j = Some (name, col)
                             ∧ col !! r = codes !! j)
            ∧ (∀ j pr, Santander.rec_products !! j = Some pr →
                 ∃ clf p, clfdict !! pr = Some clf
                          ∧ predict_proba1 clf cells !! r = Some p
                          ∧ row !! j = Some p)
            ∧ (∀ k c, codes !! k = Some c →
                 ∃ j, sel !! k = Some j
                      ∧ Santander.rec_products !! j = Some c)
            ∧ (∀ c c' clf clf' p p',
                 c ∈ codes → c' ∈ Santander.rec_products → c' ∉ codes →
                 clfdict !! c = Some clf → clfdict !! c' = Some clf' →
                 predict_proba1 clf cells !! r = Some p →
                 predict_proba1 clf' cells !! r = Some p' →
                 (p' <= p)%Q)
            ∧ (∀ k c1 c2 clf1 clf2 p1 p2,
                 codes !! k = Some c1 → codes !! S k = Some c2 →
                 clfdict !! c1 = Some clf1 → clfdict !! c2 = Some clf2 →
                 predict_proba1 clf1 cells !! r = Some p1 →
                 predict_proba1 clf2 cells !! r = Some p2 →
                 (p2 <= p1)%Q).
Proof.
  intros train months X0 Xtest ids cells probs predict_proba1 clfdict order.
  split; [reflexivity|].
  apply (output_top5 predict_proba1 clfdict Sample.no_float Sample.clients
           Sample.may train months X0 Xtest probs order).
  - vm_compute. reflexivity.
  - vm_compute. reflexivity.
  - intros clf X. unfold predict_proba1, Sample.predict_proba1.
    by rewrite length_fmap, length_seq.
  - vm_compute. reflexivity.
  - apply argsort_rows.
Defined.

Example output_sample :
  (Santander.test_preds (argsort <$> Santander.transpose 4 Sample.probs)
     ≫= Santander.out [1; 2; 3; 4]%Z)
  = Some {| Santander.out_id := [1; 2; 3; 4]%Z;
            Santander.out_p :=
              [ ("p0", ["ind_valo_fin_ult1"; "ind_recibo_ult1";
                        "ind_valo_fin_ult1"; "ind_valo_fin_ult1"]);
                ("p1", ["ind_ctpp_fin_ult1"; "ind_cco_fin_ult1";
                        "ind_ctpp_fin_ult1"; "ind_reca_fin_ult1"]);
                ("p2", ["ind_ctop_fin_ult1"; "ind_nom_pens_ult1";
                        "ind_ctop_fin_ult1"; "ind_ecue_fin_ult1"]);
                ("p3", ["ind_reca_fin_ult1"; "ind_nomina_ult1";
                        "ind_reca_fin_ult1"; "ind_nom_pens_ult1"]);
                ("p4", ["ind_ctma_fin_ult1"; "ind_tjcr_fin_ult1";
                        "ind_ctma_fin_ult1"; "ind_ctpp_fin_ult1"]) ]%string |}.
Proof. vm_compute. reflexivity. Qed.

(** * Further properties of the notebooks *)

(** ** The months before a month (Santander) *)

Section Months.
Import Santander.

Lemma py_index_first (pre suf : list string) m :
  m ∉ pre → py_index (pre ++ m :: suf) m = Some (length pre).
Proof.
  intros Hm. unfold py_index. rewrite list_find_app_r.
  - simpl. rewrite decide_True by done. done.
  - apply list_find_None, Forall_forall. intros y Hy ->. done.
Qed.

Lemma py_index_absent (l : list string) m : m ∉ l → py_index l m = None.
Proof.
  intros Hm. unfold py_index.
  rewrite (proj2 (list_find_None (λ y, y = m) l)); [done|].
  apply Forall_forall. intros y Hy ->. done.
Qed.

Lemma py_getitem_nat {A} (l : list A) (i : nat) :
  py_getitem l (Z.of_nat i) = l !! i.
Proof.
  unfold py_getitem. cbv zeta.
  assert ((Z.of_nat i <? 0)%Z = false) as -> by (apply Z.ltb_ge; lia).
  cbv iota. assert ((Z.of_nat i <? 0)%Z = false) as -> by (apply Z.ltb_ge; lia).
  simpl. destruct (Z.of_nat (length l) <=? Z.of_nat i)%Z eqn:E.
  - apply Z.leb_le in E. symmetry. apply lookup_ge_None. lia.
  - by rewrite Nat2Z.id.
Qed.

Lemma py_getitem_last {A} (l : list A) : py_getitem l (-1) = last l.
Proof.
  unfold py_getitem. cbv zeta. change (-1 <? 0)%Z with true. cbv iota.
  rewrite last_lookup. destruct l as [|x l]; [done|].
  assert ((-1 + Z.of_nat (length (x :: l)) <? 0)%Z = false) as ->
    by (apply Z.ltb_ge; simpl; lia).
  assert ((Z.of_nat (length (x :: l)) <=? -1 + Z.of_nat (length (x :: l)))%Z
          = false) as -> by (apply Z.leb_gt; lia).
  cbn [orb]. f_equal. simpl. lia.
Qed.

Lemma month_before_split (pre suf : list string) m :
  m ∉ pre →
  month_before (pre ++ m :: suf) m
  = match last pre with Some p => Some p | None => last (m :: suf) end.
Proof.
  intros Hm. unfold month_before. rewrite py_index_first by done. simpl.
  destruct pre as [|x pre _] using rev_ind.
  - simpl. apply py_getitem_last.
  - rewrite last_snoc, length_app. simpl.
    replace (Z.of_nat (length pre + 1) - 1)%Z with (Z.of_nat (length pre)) by lia.
    rewrite py_getitem_nat, <- app_assoc. simpl.
    by rewrite list_lookup_middle.
Qed.

(** In a list without repetition the month before [m] is the item that
    stands before it. *)
Lemma month_before_next (l pre suf : list string) x m :
  NoDup l → l = pre ++ x :: m :: suf → month_before l m = Some x.
Proof.
  intros Hnd ->.
  replace (pre ++ x :: m :: suf) with ((pre ++ [x]) ++ m :: suf) in *
    by (by rewrite <- app_assoc).
  rewrite month_before_split; [by rewrite last_snoc|].
  apply NoDup_app in Hnd as (_ & Hnd & _). intros Hin. apply (Hnd m Hin). by left.
Qed.
End Months.

(** X1.  [months[months.index(month) - 1]] gives the item that stands before
    the first occurrence of [month]; for the month at the head of the list
    the index is -1 and the result is the last item of the list; for a month
    that is not in the list the lookup raises. *)
Theorem month_before_wraps (pre suf : list string) (m : string) :
  m ∉ pre →
  Santander.month_before (pre ++ m :: suf) m
  = match last pre with
    | Some p => Some p
    | None => last (m :: suf)
    end
  ∧ (pre = [] → Santander.month_before (m :: suf) m = last (m :: suf))
  ∧ (∀ l, m ∉ l → Santander.month_before l m = None).
Proof.
  intros Hm. split; [by apply month_before_split|]. split.
  - intros ->. exact (month_before_split [] suf m Hm).
  - intros l Hl. unfold Santander.month_before. by rewrite py_index_absent.
Qed.

Lemma month_before_wraps_witness :
  Santander.month_before Santander.months "2015-01-28" = Some "2016-05-28"%string
  ∧ Santander.month_before Santander.months "2015-06-28"
    = Some "2015-05-28"%string.
Proof.
  split.
  - destruct (month_before_wraps [] (tail Santander.months) "2015-01-28")
      as (H & _); [apply not_elem_of_nil|]. exact H.
  - destruct (month_before_wraps (take 5 Santander.months)
                (drop 6 Santander.months) "2015-06-28") as (H & _);
      [vm_compute; set_solver|]. exact H.
Defined.

(** X2.  In a list of months without repetition, a month with four months
    before it has them as [target_months], the nearest first; for the first
    month of the list the four "prior" months are the last four of the
    list. *)
Theorem target_months_prior
    (pre mid suf : list string) (t4 t3 t2 t1 p : string) :
  (NoDup (pre ++ [t4; t3; t2; t1; p] ++ suf) →
   Santander.target_months (pre ++ [t4; t3; t2; t1; p] ++ suf) p
   = Some [t1; t2; t3; t4])
  ∧ (NoDup (p :: mid ++ [t4; t3; t2; t1]) →
     Santander.target_months (p :: mid ++ [t4; t3; t2; t1]) p
     = Some [t1; t2; t3; t4]).
Proof.
  split.
  - intros Hnd. unfold Santander.target_months.
    set (l := pre ++ [t4; t3; t2; t1; p] ++ suf) in *.
    rewrite (month_before_next l (pre ++ [t4; t3; t2]) suf t1 p Hnd)
      by (unfold l; by rewrite <- app_assoc).
    cbn [mbind option_bind].
    rewrite (month_before_next l (pre ++ [t4; t3]) (p :: suf) t2 t1 Hnd)
      by (unfold l; by rewrite <- app_assoc).
    cbn [mbind option_bind].
    rewrite (month_before_next l (pre ++ [t4]) (t1 :: p :: suf) t3 t2 Hnd)
      by (unfold l; by rewrite <- app_assoc).
    cbn [mbind option_bind].
    rewrite (month_before_next l pre (t2 :: t1 :: p :: suf) t4 t3 Hnd) by done.
    done.
  - intros Hnd. unfold Santander.target_months.
    set (l := p :: mid ++ [t4; t3; t2; t1]) in *.
    assert (Santander.month_before l p = Some t1) as ->.
    { unfold l. change (p :: mid ++ [t4; t3; t2; t1])
        with ([] ++ p :: mid ++ [t4; t3; t2; t1]).
      rewrite (month_before_split [] (mid ++ [t4; t3; t2; t1]) p)
        by apply not_elem_of_nil.
      cbn [last]. change (p :: mid ++ [t4; t3; t2; t1])
        with ((p :: mid) ++ [t4; t3; t2; t1]).
      by rewrite last_app. }
    cbn [mbind option_bind].
    rewrite (month_before_next l (p :: mid ++ [t4; t3]) [] t2 t1 Hnd)
      by (unfold l; simpl; by rewrite <- app_assoc).
    cbn [mbind option_bind].
    rewrite (month_before_next l (p :: mid ++ [t4]) [t1] t3 t2 Hnd)
      by (unfold l; simpl; by rewrite <- app_assoc).
    cbn [mbind option_bind].
    rewrite (month_before_next l (p :: mid) [t2; t1] t4 t3 Hnd) by done.
    done.
Qed.

Lemma target_months_prior_witness :
  Santander.target_months Santander.months "2015-05-28"
  = Some ["2015-04-28"; "2015-03-28"; "2015-02-28"; "2015-01-28"]%string
  ∧ Santander.target_months Santander.months "2015-01-28"
    = Some ["2016-05-28"; "2016-04-28"; "2016-03-28"; "2016-02-28"]%string.
Proof.
  assert (NoDup Santander.months) as Hnd.
  { apply (bool_decide_unpack (NoDup Santander.months)). vm_compute. exact I. }
  split.
  - apply (proj1 (target_months_prior [] [] (drop 5 Santander.months)
             "2015-01-28" "2015-02-28" "2015-03-28" "2015-04-28" "2015-05-28")).
    exact Hnd.
  - apply (proj2 (target_months_prior [] (take 12 (tail Santander.months)) []
             "2016-02-28" "2016-03-28" "2016-04-28" "2016-05-28" "2015-01-28")).
    exact Hnd.
Defined.

(** ** Reading the rows of a month (Santander) *)

Section ReadMonth.
Import Santander.

Lemma enumerate_from_app {A} (l1 l2 : list A) k :
  enumerate_from k (l1 ++ l2)
  = enumerate_from k l1 ++ enumerate_from (k + length l1) l2.
Proof.
  revert k. induction l1 as [|x l1 IH]; intros k; simpl.
  - by rewrite Nat.add_0_r.
  - rewrite IH. do 3 f_equal. lia.
Qed.

Lemma enumerate_from_fst {A} (l : list A) k :
  fst <$> enumerate_from k l = seq k (length l).
Proof.
  revert k. induction l as [|x l IH]; intros k; simpl; [done|].
  by rewrite IH.
Qed.

Lemma filter_enumerate_none (months l : list string) k :
  Forall (λ x, x ∉ months) l →
  filter (λ ix : nat * string, ix.2 ∈ months) (enumerate_from k l) = [].
Proof.
  intros Hl. revert k. induction Hl as [|x l Hx _ IH]; intros k; simpl; [done|].
  rewrite filter_cons_False by done. apply IH.
Qed.

Lemma filter_enumerate_all (months l : list string) k :
  Forall (λ x, x ∈ months) l →
  filter (λ ix : nat * string, ix.2 ∈ months) (enumerate_from k l)
  = enumerate_from k l.
Proof.
  intros Hl. revert k. induction Hl as [|x l Hx _ IH]; intros k; simpl; [done|].
  rewrite filter_cons_True by done. by rewrite IH.
Qed.

Lemma get_data_by_month_contiguous
    (before block after : list train_row) (months : list string) :
  block ≠ [] →
  Forall (λ r, fecha_dato r ∈ months) block →
  Forall (λ r, fecha_dato r ∉ months) before →
  Forall (λ r, fecha_dato r ∉ months) after →
  get_data_by_month (before ++ block ++ after) months = Some block.
Proof.
  intros Hne Hblock Hbefore Hafter. unfold get_data_by_month, enumerate.
  rewrite !fmap_app, !enumerate_from_app, !filter_app.
  rewrite (filter_enumerate_none months (fecha_dato <$> before))
    by (by apply Forall_fmap).
  rewrite (filter_enumerate_none months (fecha_dato <$> after))
    by (by apply Forall_fmap).
  rewrite (filter_enumerate_all months (fecha_dato <$> block))
    by (by apply Forall_fmap).
  rewrite app_nil_r. simpl. rewrite enumerate_from_fst, !length_fmap.
  destruct block as [|r block]; [done|]. simpl.
  rewrite drop_app_length, length_seq. f_equal. simpl. f_equal.
  apply take_app_length.
Qed.
End ReadMonth.

(** X3.  [get_data_by_month] reads as many rows as the file has of the
    wanted months, starting at the first of them: when these rows stand
    together in the file (the file is ordered by month) it returns exactly
    them; it raises exactly when the file has no row of the wanted
    months. *)
Theorem get_data_by_month_block
    (before block after : list Santander.train_row) (months : list string) :
  block ≠ [] →
  Forall (λ r, Santander.fecha_dato r ∈ months) block →
  Forall (λ r, Santander.fecha_dato r ∉ months) before →
  Forall (λ r, Santander.fecha_dato r ∉ months) after →
  Santander.get_data_by_month (before ++ block ++ after) months = Some block
  ∧ ∀ train, Santander.get_data_by_month train months = None
             ↔ Forall (λ r, Santander.fecha_dato r ∉ months) train.
Proof.
  intros Hne Hblock Hbefore Hafter.
  split; [by apply get_data_by_month_contiguous|].
  intros train. rewrite eq_None_not_Some, get_data_by_month_is_Some.
  rewrite Forall_forall. split.
  - intros Hno r Hr Hin. apply Hno. exists (Santander.fecha_dato r).
    split; [done|]. by apply list_elem_of_fmap_2.
  - intros Hall (m & Hm & (r & -> & Hr)%list_elem_of_fmap). by apply (Hall r).
Qed.

Lemma get_data_by_month_block_witness :
  Santander.get_data_by_month (Sample.may ++ Sample.june ++ [])
    ["2015-06-28"%string]
  = Some Sample.june
  ∧ ∀ train, Santander.get_data_by_month train ["2015-06-28"%string] = None
             ↔ Forall (λ r, Santander.fecha_dato r ∉ ["2015-06-28"%string]) train.
Proof.
  apply (get_data_by_month_block Sample.may Sample.june []).
  - done.
  - repeat constructor; simpl; set_solver.
  - repeat constructor; simpl; set_solver.
  - constructor.
Defined.

(** In a file that is not ordered by month the rows that stand between the
    wanted ones are read too, and the last wanted rows are left out. *)
Example get_data_by_month_unordered :
  Santander.fecha_dato <$>
    default [] (Santander.get_data_by_month
                  (Sample.june ++ Sample.may ++ Sample.june)
                  ["2015-06-28"%string])
  = ["2015-06-28"; "2015-06-28"; "2015-05-28"; "2015-06-28"]%string.
Proof. reflexivity. Qed.

(** ** Indicator columns and the shape of the feature table (Santander) *)

Section Shape.
Import Santander.

Lemma indicator_row (values : list string) v k :
  NoDup values → values !! k = Some v →
  (λ c, Some (if bool_decide (v = c) then 1 else 0)%Q) <$> values
  = <[k := Some 1%Q]> (replicate (length values) (Some 0%Q)).
Proof.
  intros Hnd Hk. apply list_eq. intros j.
  rewrite list_lookup_fmap, list_lookup_insert, length_replicate.
  destruct (decide (k = j ∧ k < length values)) as [[<- _]|Hne].
  - rewrite Hk. simpl. by rewrite bool_decide_eq_true_2.
  - destruct (values !! j) as [c|] eqn:Hj; simpl.
    + rewrite lookup_replicate_2 by (by eapply lookup_lt_Some).
      rewrite bool_decide_eq_false_2; [done|]. intros <-.
      apply Hne. split; [by eapply NoDup_lookup|by eapply lookup_lt_Some].
    + symmetry. apply lookup_ge_None. rewrite length_replicate.
      by apply lookup_ge_None.
Qed.

Lemma dummy_values_spec (col : list string) :
  let values := merge_sort String.le (unique col) in
  Sorted String.le values ∧ NoDup values ∧ ∀ v, v ∈ values ↔ v ∈ col.
Proof.
  intros values. pose proof (merge_sort_Permutation String.le (unique col)) as Hp.
  split; [apply Sorted_merge_sort; apply _|]. split.
  - unfold values. rewrite Hp. apply unique_NoDup.
  - intros v. unfold values. by rewrite Hp, unique_elem.
Qed.

Lemma get_dummies_row (col : list string) i v :
  col !! i = Some v →
  ∃ k, merge_sort String.le (unique col) !! k = Some v
       ∧ get_dummies col !! i
         = Some (<[k := Some 1%Q]>
                   (replicate (length (unique col)) (Some 0%Q))).
Proof.
  intros Hi. destruct (dummy_values_spec col) as (_ & Hnd & Hin).
  assert (v ∈ merge_sort String.le (unique col)) as [k Hk]%list_elem_of_lookup.
  { apply Hin. by eapply list_elem_of_lookup_2. }
  exists k. split; [done|]. unfold get_dummies.
  rewrite list_lookup_fmap, Hi. simpl. f_equal.
  rewrite (indicator_row _ v k Hnd Hk). do 2 f_equal.
  by rewrite (merge_sort_Permutation String.le (unique col)).
Qed.

Lemma get_dummies_width (col : list string) :
  Forall (λ cells, length cells = length (unique col)) (get_dummies col).
Proof.
  unfold get_dummies. apply Forall_fmap, Forall_forall. intros v _. simpl.
  by rewrite length_fmap, (merge_sort_Permutation String.le (unique col)).
Qed.

Lemma zip_with_fmap_l {A B C D} (F : A → B → C) (g : C → D) (h : A → D)
    (l : list A) (k : list B) :
  length k = length l → (∀ a b, g (F a b) = h a) →
  g <$> zip_with F l k = h <$> l.
Proof.
  intros Hlen HF. revert k Hlen.
  induction l as [|a l IH]; intros [|b k] Hlen; simplify_eq/=; [done|].
  by rewrite HF, IH.
Qed.

(** The text columns of [data] after the conversions, in terms of the rows
    read from the file. *)
Lemma prepare_text_columns parse_float data rows :
  prepare parse_float data = Some rows →
  Data.ncodpers <$> rows = Raw.ncodpers <$> data
  ∧ Data.tiprel_1mes <$> rows = (λ r, default "I"%string (Raw.tiprel_1mes r)) <$> data
  ∧ Data.segmento <$> rows = segment_of <$> data.
Proof.
  intros Hprep.
  assert (is_Some (prepare parse_float data)) as Hsome by eauto.
  apply prepare_is_Some in Hsome as [[antig0 Ha] [years0 Hy]].
  destruct (converted_rows parse_float data antig0 years0 Ha Hy) as [Hc Hlen].
  unfold prepare in Hprep. rewrite Hc in Hprep. simpl in Hprep.
  injection Hprep as <-. rewrite impute_renta_spec, <- !list_fmap_compose.
  assert (∀ (f : Data.client → string) (g : Raw.client → string),
            (∀ r v, f (Data.set_renta r v) = f r) →
            (∀ r a y, f (convert parse_float r a y) = g r) →
            f ∘ (λ r, if bool_decide (Data.renta r = None)
                      then Data.set_renta r
                             (segment_median
                                (zip_with (λ r ay, convert parse_float r ay.1 ay.2)
                                   data
                                   (zip (fillna_with (median (replace_negative antig0))
                                           (replace_negative antig0))
                                        (fillna_with (median years0) years0)))
                                (Data.segmento r))
                      else r)
            <$> zip_with (λ r ay, convert parse_float r ay.1 ay.2) data
                  (zip (fillna_with (median (replace_negative antig0))
                          (replace_negative antig0))
                       (fillna_with (median years0) years0))
            = g <$> data) as Htext.
  { intros f g Hset Hconv. apply zip_with_fmap_l; [done|].
    intros a b. simpl. case_bool_decide; by rewrite ?Hset, Hconv. }
  split; [|split; by apply Htext].
  apply zip_with_fmap_l; [done|]. intros a b. simpl. by case_bool_decide.
Qed.

Lemma Xclient_width (rows : list Data.client) :
  Forall (λ r, length (f_cells r)
               = 7 + length (unique (Data.tiprel_1mes <$> rows))
                   + length (unique (Data.segmento <$> rows)))
    (Xclient rows).
Proof.
  unfold Xclient. apply Forall_lookup. intros i x Hx.
  apply lookup_zip_with_Some in Hx as (r & d & -> & _ & Hd).
  apply lookup_zip_with_Some in Hd as (d1 & d2 & -> & Hd1 & Hd2).
  pose proof (get_dummies_width (Data.tiprel_1mes <$> rows)) as H1.
  pose proof (get_dummies_width (Data.segmento <$> rows)) as H2.
  rewrite Forall_lookup in H1, H2.
  simpl. rewrite length_app, (H1 _ _ Hd1), (H2 _ _ Hd2). lia.
Qed.

Lemma join_month_width (merged : list feature_row) temp_data w :
  Forall (λ r, length (f_cells r) = w) merged →
  Forall (λ r, length (f_cells r) = w + length products)
    (join_month merged temp_data).
Proof.
  intros Hw. unfold join_month. apply Forall_fmap, Forall_forall.
  intros m Hm. apply merge_left_elem in Hm as [Hl _]. simpl.
  rewrite Forall_forall in Hw. rewrite length_fmap, length_app, (Hw _ Hl).
  f_equal. by destruct m.2.
Qed.

Lemma foldl_join_month_width (merged : list feature_row) tables w :
  Forall (λ r, length (f_cells r) = w) merged →
  Forall (λ r, length (f_cells r) = w + length tables * length products)
    (foldl join_month merged tables).
Proof.
  revert merged w. induction tables as [|t tables IH]; intros merged w Hw.
  - simpl. by rewrite Nat.add_0_r.
  - cbn [foldl length].
    replace (w + S (length tables) * length products)
      with ((w + length products) + length tables * length products) by lia.
    apply IH. by apply join_month_width.
Qed.
End Shape.

(** X4.  [pd.get_dummies] gives one indicator column per distinct value of
    the column, the values in increasing order, and one row per row of the
    column; the row of a value holds a single 1, in the column of that
    value, and 0 elsewhere. *)
Theorem get_dummies_one_hot (col : list string) :
  let values := merge_sort String.le (unique col) in
  Sorted String.le values
  ∧ NoDup values
  ∧ (∀ v, v ∈ values ↔ v ∈ col)
  ∧ length (Santander.get_dummies col) = length col
  ∧ ∀ i v, col !! i = Some v →
      ∃ k, values !! k = Some v
           ∧ Santander.get_dummies col !! i
             = Some (<[k := Some 1%Q]> (replicate (length values) (Some 0%Q))).
Proof.
  intros values. destruct (dummy_values_spec col) as (Hs & Hnd & Hin).
  split; [done|]. split; [done|]. split; [done|].
  split; [unfold Santander.get_dummies; by rewrite length_fmap|].
  intros i v Hi. destruct (get_dummies_row col i v Hi) as (k & Hk & Hrow).
  exists k. split; [done|]. rewrite Hrow. unfold values.
  by rewrite (merge_sort_Permutation String.le (unique col)).
Qed.

Example get_dummies_sample :
  Santander.get_dummies ["I"; "A"; "I"; "P"]%string
  = [ [Some 0%Q; Some 1%Q; Some 0%Q]; [Some 1%Q; Some 0%Q; Some 0%Q];
      [Some 0%Q; Some 1%Q; Some 0%Q]; [Some 0%Q; Some 0%Q; Some 1%Q] ].
Proof. reflexivity. Qed.

(** X5.  The table of features is a rectangle: every row that
    [get_features] returns has the seven customer cells, one cell per
    distinct value of [tiprel_1mes], one per distinct segment and the 24
    product cells of the month before; [get_temp_features] adds 24 cells
    per month to every row. *)
Theorem feature_table_rectangular
    (parse_float : string → option Q)
    (data : list Santander.Raw.client)
    (pdata train : list Santander.train_row) (months : list string)
    (X0 X : list Santander.feature_row) :
  Santander.get_features parse_float data pdata = Some X0 →
  Santander.get_temp_features train X0 months = Some X →
  let w :=
    7 + length (unique ((λ r, default "I"%string (Santander.Raw.tiprel_1mes r))
                        <$> data))
      + length (unique (Santander.segment_of <$> data))
      + length Santander.products in
  Forall (λ r, length (Santander.f_cells r) = w) X0
  ∧ Forall (λ r, length (Santander.f_cells r)
                 = w + length months * length Santander.products) X.
Proof.
  intros HX0 HX w.
  assert (Forall (λ r, length (Santander.f_cells r) = w) X0) as Hw.
  { unfold Santander.get_features in HX0.
    destruct (Santander.prepare parse_float data) as [rows|] eqn:Hprep; [|done].
    simpl in HX0. injection HX0 as <-.
    destruct (prepare_text_columns _ _ _ Hprep) as (_ & Ht & Hs).
    unfold w. rewrite <- Ht, <- Hs.
    apply join_month_width, Xclient_width. }
  split; [done|].
  apply get_temp_features_joins in HX as (tables & Ht & ->).
  rewrite (length_mapM _ _ _ Ht). by apply foldl_join_month_width.
Qed.

Lemma feature_table_rectangular_witness :
  let train := Sample.may ++ Sample.june in
  let months := ["2015-05-28"; "2015-06-28"]%string in
  let X0 :=
    default [] (Santander.get_features Sample.no_float Sample.clients Sample.may) in
  let X := default [] (Santander.get_temp_features train X0 months) in
  Forall (λ r, length (Santander.f_cells r) = 34) X0
  ∧ Forall (λ r, length (Santander.f_cells r) = 82) X.
Proof.
  intros train months X0 X.
  apply (feature_table_rectangular Sample.no_float Sample.clients Sample.may
           train months X0 X); vm_compute; reflexivity.
Defined.

Lemma new_products_columns_length (data pdata : list Santander.train_row) pr col :
  NoDup (Santander.ncodpers <$> pdata) →
  (pr, col) ∈ Santander.get_new_products data pdata →
  length col = length data.
Proof.
  intros Hnd. rewrite get_new_products_columns.
  intros (pr' & [= <- ->] & _)%list_elem_of_fmap.
  by rewrite length_fmap, merge_left_unique, length_fmap.
Qed.

(** The entry of a label column at the row of a customer, the month before
    holding each customer at most once. *)
Lemma label_column_lookup (data pdata : list Santander.train_row) pr col i r :
  NoDup (Santander.ncodpers <$> pdata) →
  (pr, col) ∈ Santander.get_new_products data pdata →
  data !! i = Some r →
  col !! i
  = Some (Santander.clip_dropped
            (default 0%Q (Santander.flag r pr)
             - match head (filter (λ p, Santander.ncodpers p = Santander.ncodpers r)
                             pdata) with
               | Some p => default 0%Q (Santander.flag p pr)
               | None => 0
               end)%Q).
Proof.
  intros Hnd Hcol Hi. rewrite get_new_products_columns in Hcol.
  apply list_elem_of_fmap in Hcol as (pr' & [= <- ->] & _).
  rewrite merge_left_unique by done.
  rewrite !list_lookup_fmap, Hi. simpl.
  unfold Santander.flag_x, Santander.flag_y. simpl.
  by destruct (head (filter _ pdata)).
Qed.

(** X6.  When the month before and each of the prior months hold every
    customer at most once, the table of features and the table of labels
    built from the same month have one row per row of that month, in its
    order, and row for row they describe the same customer: at the place of
    a row of the month the feature table has a row of that customer, and
    every label column has the label of that customer, the current flag of
    the row minus the flag of the customer in the month before (0 when it
    has no row there), -1 being replaced by 0. *)
Theorem features_labels_aligned
    (parse_float : string → option Q)
    (data pdata train : list Santander.train_row) (months : list string)
    (X0 X : list Santander.feature_row) :
  NoDup (Santander.ncodpers <$> pdata) →
  (∀ m t, m ∈ months → Santander.get_data_by_month train [m] = Some t →
          NoDup (Santander.ncodpers <$> t)) →
  Santander.get_features parse_float (Santander.who <$> data) pdata = Some X0 →
  Santander.get_temp_features train X0 months = Some X →
  Santander.f_ncodpers <$> X = Santander.ncodpers <$> data
  ∧ (∀ pr col, (pr, col) ∈ Santander.get_new_products data pdata →
       length col = length X)
  ∧ ∀ i r, data !! i = Some r →
      (∃ x, X !! i = Some x
            ∧ Santander.f_ncodpers x = Santander.ncodpers r)
      ∧ ∀ pr col, (pr, col) ∈ Santander.get_new_products data pdata →
          col !! i
          = Some (Santander.clip_dropped
                    (default 0%Q (Santander.flag r pr)
                     - match head (filter (λ p, Santander.ncodpers p
                                                = Santander.ncodpers r) pdata) with
                       | Some p => default 0%Q (Santander.flag p pr)
                       | None => 0
                       end)%Q).
Proof.
  intros Hnd Hmonths HX0 HX.
  assert (Santander.f_ncodpers <$> X0 = Santander.ncodpers <$> data) as Hkeys0.
  { unfold Santander.get_features in HX0.
    destruct (Santander.prepare parse_float (Santander.who <$> data))
      as [rows|] eqn:Hprep; [|done].
    simpl in HX0. injection HX0 as <-.
    destruct (prepare_text_columns _ _ _ Hprep) as (Hk & _ & _).
    rewrite join_month_keys, Xclient_keys, Hk by done.
    by rewrite <- list_fmap_compose. }
  assert (Santander.f_ncodpers <$> X = Santander.ncodpers <$> data) as Hkeys.
  { apply get_temp_features_joins in HX as (tables & Ht & ->).
    rewrite foldl_join_month_keys; [done|].
    apply mapM_Some_1 in Ht. apply Forall_forall. intros t Ht'.
    apply list_elem_of_lookup in Ht' as [i Hi].
    destruct (Forall2_lookup_r _ _ _ _ _ Ht Hi) as (m & Hm & Hget).
    eapply Hmonths; [|exact Hget]. by eapply list_elem_of_lookup_2. }
  split; [done|]. split.
  { intros pr col Hcol.
    rewrite (new_products_columns_length data pdata pr col Hnd Hcol).
    apply (f_equal length) in Hkeys. by rewrite !length_fmap in Hkeys. }
  intros i r Hi. split.
  - assert ((Santander.f_ncodpers <$> X) !! i = Some (Santander.ncodpers r))
      as Hx by (by rewrite Hkeys, list_lookup_fmap, Hi).
    rewrite list_lookup_fmap in Hx.
    destruct (X !! i) as [x|]; [|done]. injection Hx as Hx. by exists x.
  - intros pr col Hcol. by apply (label_column_lookup data pdata).
Qed.

Lemma features_labels_aligned_witness :
  let train := Sample.may ++ Sample.june in
  let months := ["2015-05-28"%string] in
  let X0 :=
    default [] (Santander.get_features Sample.no_float
                  (Santander.who <$> Sample.june) Sample.may) in
  let X := default [] (Santander.get_temp_features train X0 months) in
  Santander.f_ncodpers <$> X = [1; 2]%Z
  ∧ (∀ pr col, (pr, col) ∈ Santander.get_new_products Sample.june Sample.may →
       length col = length X)
  ∧ ∀ i r, Sample.june !! i = Some r →
      (∃ x, X !! i = Some x
            ∧ Santander.f_ncodpers x = Santander.ncodpers r)
      ∧ ∀ pr col, (pr, col) ∈ Santander.get_new_products Sample.june Sample.may →
          col !! i
          = Some (Santander.clip_dropped
                    (default 0%Q (Santander.flag r pr)
                     - match head (filter (λ p, Santander.ncodpers p
                                                = Santander.ncodpers r)
                                     Sample.may) with
                       | Some p => default 0%Q (Santander.flag p pr)
                       | None => 0
                       end)%Q).
Proof.
  intros train months X0 X.
  apply (features_labels_aligned Sample.no_float Sample.june Sample.may
           train months X0 X).
  - repeat constructor. set_solver.
  - intros m t ->%list_elem_of_singleton Ht. vm_compute in Ht.
    injection Ht as <-. repeat constructor. set_solver.
  - vm_compute. reflexivity.
  - vm_compute. reflexivity.
Defined.

(** A customer who has two rows in a prior month gets two rows of features
    and one row of labels. *)
Example features_labels_misaligned :
  let april := [Sample.row "2015-04-28" 1 []; Sample.row "2015-04-28" 1 []] in
  let X0 :=
    default [] (Santander.get_features Sample.no_float
                  (Santander.who <$> Sample.june) Sample.may) in
  let X :=
    default [] (Santander.get_temp_features (april ++ Sample.may ++ Sample.june)
                  X0 ["2015-04-28"%string]) in
  Santander.f_ncodpers <$> X = [1; 1; 2]%Z
  ∧ length <$> (snd <$> Santander.get_new_products Sample.june Sample.may)
    = replicate 12 2.
Proof. vm_compute. done. Qed.

(** ** Imputation of [antiguedad] and [age] (Santander) *)

Section NumericImputation.
Import Santander.
Local Open Scope Q_scope.

Lemma col_max_spec (col : list (option Q)) top :
  col_max col = Some top → top ∈ dropna col ∧ ∀ v, v ∈ dropna col → v <= top.
Proof.
  unfold col_max. destruct (dropna col) as [|x l]; [done|]. intros [= <-].
  destruct (foldl_max_spec l x) as (Hin & Hle & Hall). split.
  - destruct Hin as [->|Hin]; [by left|by right].
  - intros v [->|Hv]%elem_of_cons; auto.
Qed.

Lemma col_max_is_Some (col : list (option Q)) q :
  Some q ∈ col → is_Some (col_max col).
Proof.
  intros Hq. unfold col_max.
  assert (q ∈ dropna col) as Hin.
  { unfold dropna. apply list_elem_of_omap. by exists (Some q). }
  destruct (dropna col); [by apply not_elem_of_nil in Hin|eauto].
Qed.

Lemma dropna_elem (col : list (option Q)) q : q ∈ dropna col ↔ Some q ∈ col.
Proof.
  unfold dropna. rewrite list_elem_of_omap. split.
  - intros (c & Hc & Heq). unfold id in Heq. by subst.
  - intros H. by exists (Some q).
Qed.

Lemma replace_negative_lookup (col : list (option Q)) i c :
  col !! i = Some c →
  replace_negative col !! i
  = Some (match c with
          | Some q => if Qltb q 0 then col_max col else Some q
          | None => None
          end).
Proof. intros H. unfold replace_negative. by rewrite list_lookup_fmap, H. Qed.
End NumericImputation.

(** X7.  The replacement of the negative values of [antiguedad] changes no
    missing cell and no value from 0 on, and puts the largest value of the
    column in the place of every negative one.  So no negative value is left
    when the column holds a value from 0 on; when every value of the column
    is negative they all become the largest of them, which is negative. *)
Theorem replace_negative_spec (col : list (option Q)) :
  length (Santander.replace_negative col) = length col
  ∧ (∀ i, col !! i = Some None →
       Santander.replace_negative col !! i = Some None)
  ∧ (∀ i q, col !! i = Some (Some q) → (0 <= q)%Q →
       Santander.replace_negative col !! i = Some (Some q))
  ∧ (∀ i q, col !! i = Some (Some q) → (q < 0)%Q →
       ∃ top, Santander.replace_negative col !! i = Some (Some top)
              ∧ Some top ∈ col ∧ ∀ v, Some v ∈ col → (v <= top)%Q)
  ∧ ((∃ v, Some v ∈ col ∧ (0 <= v)%Q) →
     ∀ q, Some q ∈ Santander.replace_negative col → (0 <= q)%Q)
  ∧ ((∀ v, Some v ∈ col → (v < 0)%Q) →
     ∀ q, Some q ∈ Santander.replace_negative col →
          (q < 0)%Q ∧ Santander.col_max col = Some q).
Proof.
  assert (∀ i q, col !! i = Some (Some q) → (q < 0)%Q →
            ∃ top, Santander.col_max col = Some top
                   ∧ Santander.replace_negative col !! i = Some (Some top)
                   ∧ Some top ∈ col ∧ ∀ v, Some v ∈ col → (v <= top)%Q) as Hneg.
  { intros i q Hi Hq.
    destruct (col_max_is_Some col q) as [top Htop];
      [by eapply list_elem_of_lookup_2|].
    exists top. split; [done|].
    rewrite (replace_negative_lookup _ _ _ Hi).
    rewrite (proj2 (Qltb_lt q 0) Hq), Htop.
    destruct (col_max_spec _ _ Htop) as [Hin Hall].
    split; [done|]. split; [by apply dropna_elem|].
    intros v Hv. by apply Hall, dropna_elem. }
  assert (∀ q, Some q ∈ Santander.replace_negative col →
            (Some q ∈ col ∧ (0 <= q)%Q)
            ∨ (Santander.col_max col = Some q ∧ ∃ v, Some v ∈ col ∧ (v < 0)%Q))
    as Hafter.
  { intros q [i Hi]%list_elem_of_lookup.
    destruct (col !! i) as [c|] eqn:Hc.
    - rewrite (replace_negative_lookup _ _ _ Hc) in Hi.
      destruct c as [v|]; [|done]. destruct (Qltb v 0) eqn:E.
      + right. split; [congruence|]. exists v.
        split; [by eapply list_elem_of_lookup_2|by apply Qltb_lt].
      + left. simplify_eq. split; [by eapply list_elem_of_lookup_2|].
        by apply Qltb_ge.
    - apply lookup_ge_None in Hc.
      apply lookup_lt_Some in Hi. unfold Santander.replace_negative in Hi.
      rewrite length_fmap in Hi. lia. }
  split; [unfold Santander.replace_negative; by rewrite length_fmap|].
  split; [intros i Hi; by rewrite (replace_negative_lookup _ _ _ Hi)|].
  split.
  { intros i q Hi Hq. rewrite (replace_negative_lookup _ _ _ Hi).
    by rewrite (proj2 (Qltb_ge q 0) Hq). }
  split.
  { intros i q Hi Hq. destruct (Hneg i q Hi Hq) as (top & _ & H). eauto. }
  split.
  - intros (v & Hv & Hv0) q Hq. destruct (Hafter q Hq) as [[_ ?]|[Htop _]]; [done|].
    destruct (col_max_spec _ _ Htop) as [_ Hall].
    eapply Qle_trans; [exact Hv0|]. by apply Hall, dropna_elem.
  - intros Hall q Hq. destruct (Hafter q Hq) as [[Hin Hq0]|[Htop _]].
    + exfalso. apply (Qlt_not_le _ _ (Hall q Hin)), Hq0.
    + split; [|done]. destruct (col_max_spec _ _ Htop) as [Hin _].
      by apply Hall, dropna_elem.
Qed.

Example replace_negative_all_negative :
  Santander.replace_negative [Some (-5)%Q; None; Some (-2)%Q]
  = [Some (-2)%Q; None; Some (-2)%Q].
Proof. reflexivity. Qed.

(** ** The median that fills the missing cells (Santander) *)

Section Median.
Import Santander.
Local Open Scope Q_scope.

Lemma sorted_lookup_le (s : list Q) i j a b :
  StronglySorted Qle s → (i ≤ j)%nat →
  s !! i = Some a → s !! j = Some b → a <= b.
Proof.
  intros Hs. revert i j. induction Hs as [|x l Hs IH Hx]; intros i j Hij Ha Hb.
  - done.
  - destruct i as [|i], j as [|j]; simpl in *; simplify_eq;
      [apply Qle_refl| |lia|].
    + rewrite Forall_forall in Hx. apply Hx. by eapply list_elem_of_lookup_2.
    + apply (IH i j); [lia|done..].
Qed.

Lemma filter_all {A} (P : A → Prop) `{∀ x, Decision (P x)} (l : list A) :
  Forall P l → filter P l = l.
Proof.
  induction 1 as [|x l Hx _ IH]; [done|].
  by rewrite filter_cons_True, IH.
Qed.

Lemma count_prefix {A} (P : A → Prop) `{∀ x, Decision (P x)} (l : list A) k :
  Forall P (take k l) → (k ≤ length l)%nat → (k ≤ length (filter P l))%nat.
Proof.
  intros HP Hk. rewrite <- (take_drop k l), filter_app, length_app.
  rewrite (filter_all P (take k l)) by done. rewrite length_take. lia.
Qed.

Lemma count_suffix {A} (P : A → Prop) `{∀ x, Decision (P x)} (l : list A) k :
  Forall P (drop k l) → (length l - k ≤ length (filter P l))%nat.
Proof.
  intros HP. rewrite <- (take_drop k l) at 2. rewrite filter_app, length_app.
  rewrite (filter_all P (drop k l)) by done. rewrite length_drop. lia.
Qed.

Lemma sorted_prefix_le (s : list Q) j x m :
  StronglySorted Qle s → s !! j = Some x → x <= m →
  Forall (λ v, v <= m) (take (S j) s).
Proof.
  intros Hs Hj Hx. apply Forall_lookup. intros i v Hi.
  apply lookup_take_Some in Hi as [Hi Hlt].
  eapply Qle_trans; [|exact Hx].
  apply (sorted_lookup_le s i j v x Hs); [lia|done..].
Qed.

Lemma sorted_suffix_ge (s : list Q) j x m :
  StronglySorted Qle s → s !! j = Some x → m <= x →
  Forall (λ v, m <= v) (drop j s).
Proof.
  intros Hs Hj Hx. apply Forall_lookup. intros i v Hi.
  rewrite lookup_drop in Hi.
  eapply Qle_trans; [exact Hx|].
  apply (sorted_lookup_le s j (j + i) x v Hs); [lia|done..].
Qed.

(** The value of [median] stands in the middle of the values that are
    present: it lies between two of them, half of them at least are not
    above it and half of them at least are not below it. *)
Lemma median_middle (col : list (option Q)) m :
  median col = Some m →
  (∃ a b, a ∈ dropna col ∧ b ∈ dropna col ∧ a <= m ∧ m <= b)
  ∧ (length (dropna col)
     ≤ 2 * length (filter (λ v : Q, (v <= m)%Q) (dropna col)))%nat
  ∧ (length (dropna col)
     ≤ 2 * length (filter (λ v : Q, (m <= v)%Q) (dropna col)))%nat.
Proof.
  unfold median. pose proof (sort_values_perm (dropna col)) as Hp.
  pose proof (sort_values_sorted (dropna col)) as Hs.
  set (s := sort_values (dropna col)) in *. clearbody s.
  revert Hp. generalize (dropna col). intros d Hp Hmed.
  cut ((∃ a b, a ∈ s ∧ b ∈ s ∧ a <= m ∧ m <= b)
       ∧ (length s ≤ 2 * length (filter (λ v : Q, (v <= m)%Q) s))%nat
       ∧ (length s ≤ 2 * length (filter (λ v : Q, (m <= v)%Q) s))%nat).
  { intros [(a & b & Ha & Hb & Hab) [Hlo Hhi]]. split; [|split].
    - exists a, b. by rewrite <- Hp.
    - by rewrite <- Hp.
    - by rewrite <- Hp. }
  revert Hmed. cbv zeta.
  destruct (length s =? 0)%nat eqn:E0; [done|]. apply Nat.eqb_neq in E0.
  destruct (Nat.odd (length s)) eqn:Eodd.
  - intros Hm.
    assert (length s = 2 * (length s / 2) + 1)%nat as Hn.
    { rewrite (Nat.div_mod_eq (length s) 2) at 1.
      rewrite <- Nat.bit0_mod, Nat.bit0_odd, Eodd. done. }
    split; [|split].
    + exists m, m. pose proof (list_elem_of_lookup_2 _ _ _ Hm).
      repeat split; try done; apply Qle_refl.
    + pose proof (count_prefix (λ v, v <= m) s (S (length s / 2))
                    (sorted_prefix_le s _ m m Hs Hm (Qle_refl m))). lia.
    + pose proof (count_suffix (λ v, m <= v) s (length s / 2)
                    (sorted_suffix_ge s _ m m Hs Hm (Qle_refl m))). lia.
  - assert (length s = 2 * (length s / 2))%nat as Hn.
    { rewrite (Nat.div_mod_eq (length s) 2) at 1.
      rewrite <- Nat.bit0_mod, Nat.bit0_odd, Eodd. simpl. lia. }
    destruct (s !! (length s / 2 - 1)%nat) as [a|] eqn:Ha; [|done].
    destruct (s !! (length s / 2)%nat) as [b|] eqn:Hb; [|done].
    simpl. intros [= <-].
    assert (a <= b) as Hab by (apply (sorted_lookup_le s (length s / 2 - 1) (length s / 2) a b Hs);
        [lia|done..]).
    assert (a <= (a + b) / 2) as Hlo by (apply Qle_shift_div_l; [reflexivity|lra]).
    assert ((a + b) / 2 <= b) as Hhi by (apply Qle_shift_div_r; [reflexivity|lra]).
    split; [|split].
    + exists a, b. pose proof (list_elem_of_lookup_2 _ _ _ Ha).
      pose proof (list_elem_of_lookup_2 _ _ _ Hb). done.
    + pose proof (count_prefix (λ v, v <= (a + b) / 2) s
                    (S (length s / 2 - 1))
                    (sorted_prefix_le s _ a _ Hs Ha Hlo)). lia.
    + pose proof (count_suffix (λ v, (a + b) / 2 <= v) s (length s / 2)
                    (sorted_suffix_ge s _ b _ Hs Hb Hhi)). lia.
Qed.
End Median.

(** X8. [col.fillna(col.median())], as [get_features] does for
    [antiguedad] and for [age]: the column keeps its length and the cells
    that are present.  A column with no value at all is returned as it is,
    every cell still missing.  Otherwise the median exists, no cell is
    missing afterwards, every missing cell has become the median, and the
    median is a middle value: it lies between two values of the column, and
    at least half of the values are not above it and at least half are not
    below it. *)
Theorem median_fill_spec (col : list (option Q)) :
  let filled := Santander.fillna_with (Santander.median col) col in
  let vals := Santander.dropna col in
  length filled = length col
  ∧ (∀ i q, col !! i = Some (Some q) → filled !! i = Some (Some q))
  ∧ ((∀ q, Some q ∉ col) → Santander.median col = None ∧ filled = col)
  ∧ (∀ q0, Some q0 ∈ col →
       ∃ m, Santander.median col = Some m
         ∧ Forall is_Some filled
         ∧ (∀ i, col !! i = Some None → filled !! i = Some (Some m))
         ∧ (∃ a b, Some a ∈ col ∧ Some b ∈ col ∧ a <= m ∧ m <= b)%Q
         ∧ length vals ≤ 2 * length (filter (λ v : Q, (v <= m)%Q) vals)
         ∧ length vals ≤ 2 * length (filter (λ v : Q, (m <= v)%Q) vals)).
Proof.
  intros filled vals. split; [|split; [|split]].
  - unfold filled, Santander.fillna_with. by rewrite length_fmap.
  - intros i q Hi. unfold filled.
    by rewrite (fillna_with_lookup _ _ _ _ Hi).
  - intros Hnone.
    assert (Santander.dropna col = []) as Hd.
    { destruct (Santander.dropna col) as [|v l] eqn:E; [done|].
      exfalso. apply (Hnone v), dropna_elem. rewrite E. by left. }
    apply median_None in Hd. split; [done|].
    unfold filled, Santander.fillna_with. rewrite Hd.
    rewrite <- (list_fmap_id col) at 2. apply list_fmap_ext.
    intros i [q|] _; done.
  - intros q0 Hq0.
    destruct (Santander.median col) as [m|] eqn:Hm.
    2:{ apply median_None in Hm. apply dropna_elem in Hq0.
        rewrite Hm in Hq0. by apply not_elem_of_nil in Hq0. }
    exists m. destruct (median_middle col m Hm) as [(a & b & Ha & Hb & Hab) [Hlo Hhi]].
    split; [done|]. split; [|split; [|split; [|done]]].
    + unfold filled, Santander.fillna_with. rewrite Forall_fmap.
      apply Forall_forall. intros [q|] _; simpl; eauto.
    + intros i Hi. unfold filled.
      by rewrite (fillna_with_lookup _ _ _ _ Hi).
    + exists a, b. apply dropna_elem in Ha, Hb. done.
Qed.

(** An even number of values: the median is the mean of the two middle
    ones, which is no value of the column. *)
Example median_fill_sample :
  Santander.fillna_with (Santander.median [Some 4; None; Some 1; None]%Q)
    [Some 4; None; Some 1; None]%Q
  = [Some 4; Some ((1 + 4) / 2); Some 1; Some ((1 + 4) / 2)]%Q.
Proof. reflexivity. Qed.

(** ** What a label says (Santander) *)

Section NewPurchase.
Import Santander.

Lemma clip_dropped_one (x y : Q) :
  (x == 0 ∨ x == 1)%Q → (y == 0 ∨ y == 1)%Q →
  (clip_dropped (x - y) == 1)%Q ↔ (x == 1)%Q ∧ ¬ (y == 1)%Q.
Proof.
  intros Hx Hy. unfold clip_dropped.
  destruct (Qeq_bool (x - y) (-1)) eqn:E;
    [apply Qeq_bool_eq in E|apply Qeq_bool_neq in E];
    destruct Hx as [Hx|Hx], Hy as [Hy|Hy]; split;
    try (intros [H1 H2]); try (intros H1); try split; try lra;
    try (exfalso; lra).
Qed.

Lemma owned_default (c : cell) : (default 0%Q c == 1)%Q ↔ owned c.
Proof.
  unfold owned. destruct c as [q|]; simpl; split.
  - intros H. by exists q.
  - by intros (q' & [= <-] & H).
  - intros H. by exfalso.
  - by intros (q' & [=] & _).
Qed.

Lemma key_unique {A} (key : A → Z) (l : list A) x y :
  NoDup (key <$> l) → x ∈ l → y ∈ l → key x = key y → x = y.
Proof.
  intros Hnd [i Hi]%list_elem_of_lookup [j Hj]%list_elem_of_lookup Hk.
  assert (i = j) as ->.
  { apply (NoDup_lookup _ i j (key x) Hnd); rewrite list_lookup_fmap.
    - by rewrite Hi.
    - by rewrite Hj, Hk. }
  congruence.
Qed.

Lemma head_filter_key {A} (key : A → Z) (l : list A) k :
  NoDup (key <$> l) →
  match head (filter (λ r, key r = k) l) with
  | Some p => p ∈ l ∧ key p = k ∧ ∀ p', p' ∈ l → key p' = k → p' = p
  | None => ∀ p', p' ∈ l → key p' ≠ k
  end.
Proof.
  intros Hnd. destruct (filter (λ r, key r = k) l) as [|p ms] eqn:E; simpl.
  - intros p' Hp' Hk.
    assert (p' ∈ filter (λ r, key r = k) l) as H
      by (by apply list_elem_of_filter).
    rewrite E in H. by apply not_elem_of_nil in H.
  - assert (p ∈ filter (λ r, key r = k) l) as H by (rewrite E; by left).
    apply list_elem_of_filter in H as [Hk Hp]. split; [done|]. split; [done|].
    intros p' Hp' Hk'. apply (key_unique key l); [done..|congruence].
Qed.
End NewPurchase.

(** X9.  What a label says.  With ownership flags 0 or 1 and the month
    before holding each customer at most once, the label of product [pr] in
    the row of customer [r] is 1 exactly when [r] owns [pr] in the current
    month and no row of the month before says that [r] owned it then; it is
    0 otherwise.  A product kept from the month before, a product given up,
    and a product never owned are all labelled 0. *)
Theorem label_is_new_purchase (data pdata : list Santander.train_row) :
  (∀ r pr, r ∈ data → pr ∈ Santander.rec_products →
     Santander.is_flag (Santander.flag r pr)) →
  (∀ r pr, r ∈ pdata → pr ∈ Santander.rec_products →
     Santander.is_flag (Santander.flag r pr)) →
  NoDup (Santander.ncodpers <$> pdata) →
  ∀ pr col i r,
    (pr, col) ∈ Santander.get_new_products data pdata →
    data !! i = Some r →
    ∃ v, col !! i = Some v
      ∧ ((v == 0)%Q ∨ (v == 1)%Q)
      ∧ ((v == 1)%Q
         ↔ Santander.owned (Santander.flag r pr)
           ∧ ¬ ∃ p, p ∈ pdata
                 ∧ Santander.ncodpers p = Santander.ncodpers r
                 ∧ Santander.owned (Santander.flag p pr)).
Proof.
  intros Hdata Hpdata Hnd pr col i r Hcol Hi.
  rewrite get_new_products_columns in Hcol.
  apply list_elem_of_fmap in Hcol as (pr' & [= <- ->] & Hpr).
  rewrite merge_left_unique by done.
  rewrite !list_lookup_fmap, Hi. simpl. eexists. split; [done|].
  assert (r ∈ data) as Hr by (by eapply list_elem_of_lookup_2).
  pose proof (flag_default _ (Hdata r pr Hr Hpr)) as Hx.
  pose proof (head_filter_key Santander.ncodpers pdata
                (Santander.ncodpers r) Hnd) as Hhead.
  unfold Santander.flag_x, Santander.flag_y. simpl.
  destruct (head (filter _ pdata)) as [p|]; simpl.
  - destruct Hhead as (Hp & Hk & Huniq).
    pose proof (flag_default _ (Hpdata p pr Hp Hpr)) as Hy.
    split; [by apply clip_dropped_flag|].
    rewrite clip_dropped_one, !owned_default by done.
    split; intros [Ho Hn]; (split; [done|]).
    + intros (p' & Hp' & Hk' & Ho'). by rewrite (Huniq p' Hp' Hk') in Ho'.
    + intros Ho'. apply Hn. by exists p.
  - assert ((0 == 0)%Q ∨ (0 == 1)%Q) as Hy by (by left).
    split; [by apply clip_dropped_flag|].
    rewrite clip_dropped_one, owned_default by done.
    split; intros [Ho Hn]; (split; [done|]).
    + intros (p' & Hp' & Hk' & _). by apply (Hhead p' Hp').
    + intros H0. by apply Qeq_bool_neq in H0.
Qed.

Lemma label_is_new_purchase_witness :
  let pr := "ind_cco_fin_ult1"%string in
  let r := Sample.row "2015-06-28" 2 [pr] in
  ∃ v, [0 # 1; 1 # 1]%Q !! 1 = Some v
    ∧ ((v == 0)%Q ∨ (v == 1)%Q)
    ∧ ((v == 1)%Q
       ↔ Santander.owned (Santander.flag r pr)
         ∧ ¬ ∃ p, p ∈ Sample.may
               ∧ Santander.ncodpers p = Santander.ncodpers r
               ∧ Santander.owned (Santander.flag p pr)).
Proof.
  intros pr r.
  apply (label_is_new_purchase Sample.june Sample.may).
  - apply sample_rows_flags; repeat constructor; eauto.
  - apply sample_rows_flags; repeat constructor; eauto.
  - repeat constructor. set_solver.
  - vm_compute. right. left.
  - reflexivity.
Defined.

(** ** The network (MovieLens) *)

Section Network.
Import MovieLens.
Local Open Scope Q_scope.

Lemma embedding_Some {A} (table : list A) ids rows :
  embedding table ids = Some rows
  ↔ Forall2 (λ i r, table !! i = Some r) ids rows.
Proof. unfold embedding. apply mapM_Some. Qed.

Lemma embedding_is_Some {A} (table : list A) ids :
  is_Some (embedding table ids) ↔ Forall (λ i, (i < length table)%nat) ids.
Proof.
  unfold embedding. rewrite mapM_is_Some. apply Forall_proper; [|done].
  intros i. apply lookup_lt_is_Some.
Qed.

Lemma Qsum_app l1 l2 : Qsum (l1 ++ l2) == Qsum l1 + Qsum l2.
Proof.
  induction l1 as [|x l1 IH]; simpl; [lra|]. rewrite IH. lra.
Qed.

Lemma tensordot2_rows net inputs uv mv :
  embedding (user_embedding net) (fst <$> inputs) = Some uv →
  embedding (movie_embedding net) (snd <$> inputs) = Some mv →
  tensordot2 uv mv = Qsum (pair_dot net <$> inputs).
Proof.
  rewrite !embedding_Some. revert uv mv.
  induction inputs as [|[u m] inputs IH]; intros uv mv Hu Hm.
  - apply Forall2_nil_inv_l in Hu as ->. done.
  - apply Forall2_cons_inv_l in Hu as (eu & uv' & Heu & Hu & ->).
    apply Forall2_cons_inv_l in Hm as (em & mv' & Hem & Hm & ->).
    unfold tensordot2 in *. simpl in *. rewrite (IH uv' mv' Hu Hm).
    unfold pair_dot at 2. simpl. by rewrite Heu, Hem.
Qed.

(** [x] row by row. *)
Lemma call_x_rows net inputs xs :
  call_x net inputs = Some xs →
  length xs = length inputs
  ∧ ∀ k u m, inputs !! k = Some (u, m) →
      ∃ bu bm, user_bias net !! u = Some bu ∧ movie_bias net !! m = Some bm
        ∧ xs !! k = Some (Qsum (pair_dot net <$> inputs) + bu + bm).
Proof.
  unfold call_x.
  destruct (embedding (user_embedding net) _) as [uv|] eqn:Huv; [|done].
  destruct (embedding (user_bias net) _) as [ub|] eqn:Hub; [|done].
  destruct (embedding (movie_embedding net) _) as [mv|] eqn:Hmv; [|done].
  destruct (embedding (movie_bias net) _) as [mb|] eqn:Hmb; [|done].
  cbn [mbind option_bind]. intros [= <-].
  rewrite (tensordot2_rows net inputs uv mv Huv Hmv).
  apply embedding_Some in Hub, Hmb.
  pose proof (Forall2_length _ _ _ Hub) as Lu.
  pose proof (Forall2_length _ _ _ Hmb) as Lm.
  rewrite length_fmap in Lu, Lm. split.
  - rewrite length_zip_with. lia.
  - intros k u m Hk.
    destruct (Forall2_lookup_l _ _ _ k u Hub) as (bu & Hbu & Hu);
      [by rewrite list_lookup_fmap, Hk|].
    destruct (Forall2_lookup_l _ _ _ k m Hmb) as (bm & Hbm & Hm);
      [by rewrite list_lookup_fmap, Hk|].
    exists bu, bm. split; [done|]. split; [done|].
    by rewrite lookup_zip_with, Hbu, Hbm.
Qed.

Lemma call_x_is_Some net num_users num_movies size inputs :
  built net num_users num_movies size →
  is_Some (call_x net inputs)
  ↔ Forall (λ p, (p.1 < num_users)%nat ∧ (p.2 < num_movies)%nat) inputs.
Proof.
  intros (Lue & Lub & Lme & Lmb & _). unfold call_x.
  pose proof (embedding_is_Some (user_embedding net) (fst <$> inputs)) as H1.
  pose proof (embedding_is_Some (user_bias net) (fst <$> inputs)) as H2.
  pose proof (embedding_is_Some (movie_embedding net) (snd <$> inputs)) as H3.
  pose proof (embedding_is_Some (movie_bias net) (snd <$> inputs)) as H4.
  rewrite Forall_fmap in H1, H2, H3, H4. rewrite Lue in H1. rewrite Lub in H2.
  rewrite Lme in H3. rewrite Lmb in H4.
  rewrite Forall_and. split.
  - intros Hs.
    destruct (embedding (user_embedding net) _); [|by destruct Hs].
    destruct (embedding (user_bias net) _); [|by destruct Hs].
    destruct (embedding (movie_embedding net) _); [|by destruct Hs].
    split; [apply H1|apply H3]; eauto.
  - intros [Hu Hm].
    destruct (proj2 H1 Hu) as [? ->]. destruct (proj2 H2 Hu) as [? ->].
    destruct (proj2 H3 Hm) as [? ->]. destruct (proj2 H4 Hm) as [? ->].
    cbn [mbind option_bind]. eauto.
Qed.
End Network.

(** X10.  [RecommenderNet.call] on a batch of rows [(user, movie)], the
    tables having the shape the constructor gives them.  The call succeeds
    exactly when every user index is below [num_users] and every movie
    index below [num_movies]; it then returns one number per row.  Since
    [tf.tensordot(user_vector, movie_vector, 2)] sums over both axes, the
    number of a row is the sigmoid of the two biases of the row plus the sum,
    over all the rows of the batch, of the product of the user vector and
    the movie vector.  On a batch of one row this is the product of the two
    vectors of the row plus its two biases. *)
Theorem call_sums_over_batch (sigmoid : Q → Q)
    (net : MovieLens.RecommenderNet) (num_users num_movies size : nat) :
  MovieLens.built net num_users num_movies size →
  (∀ inputs,
     is_Some (MovieLens.call sigmoid net inputs)
     ↔ Forall (λ p, p.1 < num_users ∧ p.2 < num_movies) inputs)
  ∧ (∀ inputs out, MovieLens.call sigmoid net inputs = Some out →
       length out = length inputs
       ∧ ∀ k u m, inputs !! k = Some (u, m) →
           ∃ bu bm,
             MovieLens.user_bias net !! u = Some bu
             ∧ MovieLens.movie_bias net !! m = Some bm
             ∧ out !! k
               = Some (sigmoid (Qsum (MovieLens.pair_dot net <$> inputs)
                                + bu + bm)%Q))
  ∧ (∀ u m eu em bu bm,
       MovieLens.user_embedding net !! u = Some eu →
       MovieLens.movie_embedding net !! m = Some em →
       MovieLens.user_bias net !! u = Some bu →
       MovieLens.movie_bias net !! m = Some bm →
       ∃ x, MovieLens.call sigmoid net [(u, m)] = Some [sigmoid x]
         ∧ (x == MovieLens.dot eu em + bu + bm)%Q).
Proof.
  intros Hbuilt. split; [|split].
  - intros inputs. rewrite <- (call_x_is_Some net _ _ _ inputs Hbuilt).
    unfold MovieLens.call. destruct (MovieLens.call_x net inputs); split;
      intros [? ?]; eauto; done.
  - intros inputs out. unfold MovieLens.call.
    destruct (MovieLens.call_x net inputs) as [xs|] eqn:Hx; [|done].
    intros [= <-]. destruct (call_x_rows net inputs xs Hx) as [Hlen Hrows].
    split; [by rewrite length_fmap|].
    intros k u m Hk. destruct (Hrows k u m Hk) as (bu & bm & Hbu & Hbm & Hxs).
    exists bu, bm. by rewrite list_lookup_fmap, Hxs.
  - intros u m eu em bu bm Heu Hem Hbu Hbm.
    unfold MovieLens.call, MovieLens.call_x, MovieLens.embedding. simpl.
    rewrite Heu, Hem, Hbu, Hbm. simpl. eexists. split; [done|].
    unfold MovieLens.tensordot2. simpl. lra.
Qed.

Lemma call_sums_over_batch_witness :
  (∀ inputs,
     is_Some (MovieLens.call (λ x, x) Sample.net inputs)
     ↔ Forall (λ p, p.1 < 2 ∧ p.2 < 3) inputs)
  ∧ (∀ inputs out, MovieLens.call (λ x, x) Sample.net inputs = Some out →
       length out = length inputs
       ∧ ∀ k u m, inputs !! k = Some (u, m) →
           ∃ bu bm,
             MovieLens.user_bias Sample.net !! u = Some bu
             ∧ MovieLens.movie_bias Sample.net !! m = Some bm
             ∧ out !! k
               = Some (Qsum (MovieLens.pair_dot Sample.net <$> inputs)
                       + bu + bm)%Q)
  ∧ (∀ u m eu em bu bm,
       MovieLens.user_embedding Sample.net !! u = Some eu →
       MovieLens.movie_embedding Sample.net !! m = Some em →
       MovieLens.user_bias Sample.net !! u = Some bu →
       MovieLens.movie_bias Sample.net !! m = Some bm →
       ∃ x, MovieLens.call (λ x, x) Sample.net [(u, m)] = Some [x]
         ∧ (x == MovieLens.dot eu em + bu + bm)%Q).
Proof.
  apply (call_sums_over_batch (λ x, x) Sample.net 2 3 2).
  repeat split; repeat constructor.
Defined.

(** A batch of one row against the same row in a batch of two: the
    product of the vectors of the second row, 3 + 4, is added to the
    first. *)
Example call_sample :
  MovieLens.call_x Sample.net [(0, 0)] = Some [(1 * 1 + (2 * 0 + 0) + 0
                                                + (1 # 10) + (3 # 10))%Q]
  ∧ MovieLens.call_x Sample.net [(0, 0); (1, 2)]
    = Some [ (1 * 1 + (2 * 0 + 0) + (3 * 1 + (4 * 1 + 0) + 0)
              + (1 # 10) + (3 # 10))%Q;
             (1 * 1 + (2 * 0 + 0) + (3 * 1 + (4 * 1 + 0) + 0)
              + (2 # 10) + (1 # 10))%Q ].
Proof. split; reflexivity. Qed.

(** X11.  What [call] computes for a row depends on the batch the row is
    in.  When rows [b2] are added to a batch [b1], the value [x] (before the
    sigmoid) of every row of [b1] grows by the sum of the vector products of
    the rows of [b2].  Within one batch that sum is the same for all rows:
    of two rows of the same user, the one with the larger movie bias has the
    larger [x], whatever the vectors of the user and of the movies are. *)
Theorem call_depends_on_batch (net : MovieLens.RecommenderNet)
    (b1 b2 : list (nat * nat)) (x1 x12 : list Q) :
  MovieLens.call_x net b1 = Some x1 →
  MovieLens.call_x net (b1 ++ b2) = Some x12 →
  (∀ k a, x1 !! k = Some a →
     ∃ a', x12 !! k = Some a'
       ∧ (a' == a + Qsum (MovieLens.pair_dot net <$> b2))%Q)
  ∧ (∀ k k' u m m' a a' bm bm',
       (b1 ++ b2) !! k = Some (u, m) → (b1 ++ b2) !! k' = Some (u, m') →
       x12 !! k = Some a → x12 !! k' = Some a' →
       MovieLens.movie_bias net !! m = Some bm →
       MovieLens.movie_bias net !! m' = Some bm' →
       (a <= a')%Q ↔ (bm <= bm')%Q).
Proof.
  intros H1 H12.
  destruct (call_x_rows net b1 x1 H1) as [Hlen1 Hrows1].
  destruct (call_x_rows net (b1 ++ b2) x12 H12) as [Hlen12 Hrows12].
  split.
  - intros k a Ha.
    destruct (lookup_lt_is_Some_2 b1 k) as [[u m] Hk];
      [rewrite <- Hlen1; by eapply lookup_lt_Some|].
    destruct (Hrows1 k u m Hk) as (bu & bm & Hbu & Hbm & Hx1).
    destruct (Hrows12 k u m) as (bu' & bm' & Hbu' & Hbm' & Hx12);
      [by apply lookup_app_l_Some|].
    simplify_eq. eexists. split; [done|].
    rewrite fmap_app, Qsum_app. lra.
  - intros k k' u m m' a a' bm bm' Hk Hk' Ha Ha' Hbm Hbm'.
    destruct (Hrows12 k u m Hk) as (bu & bm0 & Hbu & Hbm0 & Hx).
    destruct (Hrows12 k' u m' Hk') as (bu' & bm0' & Hbu' & Hbm0' & Hx').
    simplify_eq. split; intros; lra.
Qed.

Lemma call_depends_on_batch_witness :
  let x1 := [(1 * 1 + (2 * 0 + 0) + 0 + (1 # 10) + (3 # 10))%Q] in
  let x12 := [ (1 * 1 + (2 * 0 + 0) + (1 * 1 + (2 * 1 + 0) + 0)
                + (1 # 10) + (3 # 10))%Q;
               (1 * 1 + (2 * 0 + 0) + (1 * 1 + (2 * 1 + 0) + 0)
                + (1 # 10) + (1 # 10))%Q ] in
  let b2 : list (nat * nat) := [(0, 2)] in
  (∀ k a, x1 !! k = Some a →
     ∃ a', x12 !! k = Some a'
       ∧ (a' == a + Qsum (MovieLens.pair_dot Sample.net <$> b2))%Q)
  ∧ (∀ k k' u m m' a a' bm bm',
       ([(0, 0)] ++ [(0, 2)]) !! k = Some (u, m) →
       ([(0, 0)] ++ [(0, 2)]) !! k' = Some (u, m') →
       x12 !! k = Some a → x12 !! k' = Some a' →
       MovieLens.movie_bias Sample.net !! m = Some bm →
       MovieLens.movie_bias Sample.net !! m' = Some bm' →
       (a <= a')%Q ↔ (bm <= bm')%Q).
Proof.
  intros x1 x12 b2.
  apply (call_depends_on_batch Sample.net [(0, 0)] b2 x1 x12);
    reflexivity.
Defined.

(** ** The recommendation cell (MovieLens) *)

Section Recommend.
Import MovieLens.

Lemma lookup_all {A} (l : list A) (idx : list nat) :
  Forall (λ i, i < length l) idx →
  ∃ xs, Forall2 (λ i x, l !! i = Some x) idx xs.
Proof.
  induction 1 as [|i idx Hi _ [xs IH]]; [by exists []|].
  apply lookup_lt_is_Some in Hi as [x Hx]. exists (x :: xs). by constructor.
Qed.

Lemma lookup_all_NoDup {A} (l : list A) (idx : list nat) xs :
  NoDup l → NoDup idx → Forall2 (λ i x, l !! i = Some x) idx xs → NoDup xs.
Proof.
  intros Hl Hidx Hxs. apply NoDup_alt. intros j j' x Hj Hj'.
  destruct (Forall2_lookup_r _ _ _ j x Hxs Hj) as (i & Hi & Hx).
  destruct (Forall2_lookup_r _ _ _ j' x Hxs Hj') as (i' & Hi' & Hx').
  assert (i = i') as <- by (by eapply (NoDup_lookup l)).
  by eapply (NoDup_lookup idx).
Qed.

Lemma elements_is_list_of (s : gset Z) : is_list_of s (elements s).
Proof. split; [apply NoDup_elements|]. intros x. apply elem_of_elements. Qed.

Lemma not_watched_elem (df : list (Z * Z)) user_id m :
  m ∈ movies_watched_by_user df user_id ↔ (user_id, m) ∈ df.
Proof.
  unfold movies_watched_by_user. rewrite list_elem_of_fmap. split.
  - intros ([u m'] & -> & [Hu Hin]%list_elem_of_filter). simpl in *. by subst.
  - intros Hin. exists (user_id, m). split; [done|].
    by apply list_elem_of_filter.
Qed.

Lemma candidate_set_elem (df : list (Z * Z)) catalog user_id m :
  m ∈ candidate_set catalog (movies_watched_by_user df user_id)
        (movie2movie_encoded (snd <$> df))
  ↔ m ∈ catalog ∧ ((user_id, m) ∉ df) ∧ m ∈ (snd <$> df).
Proof.
  unfold candidate_set, not_watched_column.
  rewrite elem_of_intersection, elem_of_list_to_set, list_elem_of_filter,
    not_watched_elem, elem_of_dom.
  destruct (encoding_dense (snd <$> df)) as (_ & Henc & _ & Hnone & _).
  unfold movie2movie_encoded, movie_ids.
  assert (is_Some (index_of_id (unique (snd <$> df)) !! m) ↔ m ∈ (snd <$> df))
    as ->; [|tauto].
  split.
  - intros [i Hi]. destruct (decide (m ∈ (snd <$> df))) as [|Hn]; [done|].
    rewrite (Hnone m Hn) in Hi. done.
  - intros Hm. destruct (Henc m Hm) as (i & Hi & _). eauto.
Qed.
End Recommend.

(** X12.  The recommendation cell.  [candidates] is the list made of the
    set of the movies of the catalogue that the user has not rated and that
    have a code, [ratings] holds one prediction per candidate and [order] is
    their [argsort].  Then no lookup fails: every recommended id is found,
    it is the candidate at the index selected, so a movie of the catalogue
    that occurs in the ratings table and that the user has not rated; the
    ids are distinct, there are ten of them (all the candidates when there
    are fewer), and the indices selected are the ten best, best first.  The
    rows printed are the rows of the catalogue with these ids, in the order
    of the catalogue. *)
Theorem recommendations_unwatched
    (df : list (Z * Z)) (catalog : list Z) (user_id : Z)
    (candidates : list Z) (ratings : list Q) (order : list nat) :
  let enc := MovieLens.movie2movie_encoded (snd <$> df) in
  let dec := MovieLens.movie_encoded2movie (snd <$> df) in
  let watched := MovieLens.movies_watched_by_user df user_id in
  let top := MovieLens.top_ratings_indices order in
  MovieLens.is_list_of (MovieLens.candidate_set catalog watched enc) candidates →
  length ratings = length candidates →
  is_argsort ratings order →
  ∃ ids,
    MovieLens.recommended_movie_ids dec
      (MovieLens.encode_candidates enc candidates) top
    = Some (Some <$> ids)
    ∧ Forall2 (λ i m, candidates !! i = Some m) top ids
    ∧ top_k 10 ratings top
    ∧ length ids = 10 `min` length candidates
    ∧ NoDup ids
    ∧ (∀ m, m ∈ ids →
         m ∈ catalog ∧ ((user_id, m) ∉ df) ∧ m ∈ (snd <$> df))
    ∧ sublist (MovieLens.recommended_movies catalog (Some <$> ids)) catalog
    ∧ (∀ m, m ∈ MovieLens.recommended_movies catalog (Some <$> ids)
            ↔ m ∈ ids).
Proof.
  intros enc dec watched top [Hnd Hset] Hlen Hsort.
  assert (top_k 10 ratings top) as Htop.
  { unfold top, MovieLens.top_ratings_indices.
    pose proof (slice_from_reverse order 10) as Hs.
    change (- Z.of_nat 10)%Z with (-10)%Z in Hs. rewrite Hs by lia.
    by apply top_k_of_argsort. }
  destruct Htop as (Hl & Hnd_top & Hrange & Hdesc & Hbest).
  destruct (lookup_all candidates top) as [ids Hids].
  { apply Forall_forall. intros i Hi. rewrite <- Hlen. by apply Hrange. }
  assert (∀ m, m ∈ ids → m ∈ catalog ∧ ((user_id, m) ∉ df) ∧ m ∈ (snd <$> df))
    as Hcand.
  { intros m [j Hj]%list_elem_of_lookup.
    destruct (Forall2_lookup_r _ _ _ j m Hids Hj) as (i & _ & Hm).
    apply list_elem_of_lookup_2, Hset in Hm.
    by apply candidate_set_elem in Hm. }
  exists ids. split; [|split; [done|split; [done|split; [|split; [|split; [done|split]]]]]].
  - unfold MovieLens.recommended_movie_ids. apply mapM_Some.
    apply Forall2_fmap_r. eapply Forall2_impl; [exact Hids|].
    intros i m Hm. simpl. unfold MovieLens.encode_candidates.
    rewrite list_lookup_fmap, Hm. simpl. f_equal.
    assert (m ∈ (snd <$> df)) as Hin.
    { apply list_elem_of_lookup_2, Hset, candidate_set_elem in Hm. tauto. }
    destruct (encoding_dense (snd <$> df)) as (_ & Henc & _).
    destruct (Henc m Hin) as (c & Hc & _ & Hd).
    unfold enc, dec, MovieLens.movie2movie_encoded,
      MovieLens.movie_encoded2movie, MovieLens.movie_ids.
    by rewrite Hc.
  - rewrite <- (Forall2_length _ _ _ Hids), Hl, Hlen. done.
  - by apply (lookup_all_NoDup candidates top).
  - apply sublist_filter.
  - intros m. unfold MovieLens.recommended_movies.
    rewrite list_elem_of_filter, list_elem_of_fmap. split.
    + intros [(m' & [= <-] & Hm) _]. done.
    + intros Hm. split; [by exists m|]. by apply Hcand.
Qed.

Lemma recommendations_unwatched_witness :
  let df : list (Z * Z) := [(1, 10); (1, 20); (2, 10); (2, 30); (3, 40)]%Z in
  let catalog : list Z := [10; 20; 30; 40; 50]%Z in
  let enc := MovieLens.movie2movie_encoded (snd <$> df) in
  let dec := MovieLens.movie_encoded2movie (snd <$> df) in
  let watched := MovieLens.movies_watched_by_user df 1 in
  let candidates := elements (MovieLens.candidate_set catalog watched enc) in
  let ratings := [1 # 2; 3 # 4]%Q in
  let top := MovieLens.top_ratings_indices (argsort ratings) in
  ∃ ids,
    MovieLens.recommended_movie_ids dec
      (MovieLens.encode_candidates enc candidates) top
    = Some (Some <$> ids)
    ∧ Forall2 (λ i m, candidates !! i = Some m) top ids
    ∧ top_k 10 ratings top
    ∧ length ids = 10 `min` length candidates
    ∧ NoDup ids
    ∧ (∀ m, m ∈ ids →
         m ∈ catalog ∧ ((1%Z, m) ∉ df) ∧ m ∈ (snd <$> df))
    ∧ sublist (MovieLens.recommended_movies catalog (Some <$> ids)) catalog
    ∧ (∀ m, m ∈ MovieLens.recommended_movies catalog (Some <$> ids)
            ↔ m ∈ ids).
Proof.
  intros df catalog enc dec watched candidates ratings top.
  apply (recommendations_unwatched df catalog 1 candidates ratings
           (argsort ratings)).
  - apply elements_is_list_of.
  - vm_compute. reflexivity.
  - apply argsort_is_argsort.
Defined.

Example recommended_movie_ids_sample :
  let df : list (Z * Z) := [(1, 10); (1, 20); (2, 10); (2, 30); (3, 40)]%Z in
  let enc := MovieLens.movie2movie_encoded (snd <$> df) in
  let dec := MovieLens.movie_encoded2movie (snd <$> df) in
  MovieLens.recommended_movie_ids dec
    (MovieLens.encode_candidates enc [30; 40; 50]%Z) [1; 0]
  = Some [Some 40%Z; Some 30%Z]
  ∧ MovieLens.recommended_movie_ids dec
      (MovieLens.encode_candidates enc [30; 40; 50]%Z) [2]
    = Some [None]
  ∧ MovieLens.recommended_movie_ids dec
      (MovieLens.encode_candidates enc [30; 40; 50]%Z) [3]
    = None.
Proof. vm_compute. done. Qed.

(** ** The training set (Santander) *)

Section Training.
Import Santander.
Local Open Scope Q_scope.

Lemma nth_true_holds mask j i : nth_true mask j = Some i → mask !! i = Some true.
Proof.
  revert j i. induction mask as [|b mask IH]; intros j i; [done|].
  destruct b; simpl.
  - destruct j as [|j]; [by intros [= <-]|].
    destruct (nth_true mask j) as [i'|] eqn:E; [|done].
    intros [= <-]. by apply (IH j).
  - destruct (nth_true mask j) as [i'|] eqn:E; [|done].
    intros [= <-]. by apply (IH j).
Qed.

Lemma select_cons {A} (x : A) frame (b : bool) mask :
  fst <$> filter (λ p : A * bool, p.2 = true) (zip (x :: frame) (b :: mask))
  = (if b then [x] else [])
    ++ (fst <$> filter (λ p : A * bool, p.2 = true) (zip frame mask)).
Proof.
  simpl. destruct b.
  - by rewrite filter_cons_True.
  - by rewrite filter_cons_False.
Qed.

(** The [j]-th row kept is the row at the [j]-th place where the mask
    holds, in every frame. *)
Lemma select_lookup {A} (frame : list A) mask j :
  (fst <$> filter (λ p : A * bool, p.2 = true) (zip frame mask)) !! j
  = nth_true mask j ≫= λ i, frame !! i.
Proof.
  revert frame j. induction mask as [|b mask IH]; intros frame j.
  - by destruct frame.
  - destruct frame as [|x frame].
    + simpl. destruct b; [destruct j|]; simpl;
        try done; by destruct (nth_true mask _).
    + rewrite select_cons. destruct b; simpl.
      * destruct j as [|j]; [done|]. simpl. rewrite IH.
        by destruct (nth_true mask j).
      * rewrite IH. by destruct (nth_true mask j).
Qed.

Lemma select_elem {A} (frame : list A) mask i x :
  frame !! i = Some x → mask !! i = Some true →
  x ∈ fst <$> filter (λ p : A * bool, p.2 = true) (zip frame mask).
Proof.
  intros Hx Hm. apply list_elem_of_fmap. exists (x, true). split; [done|].
  apply list_elem_of_filter. split; [done|].
  apply list_elem_of_lookup. exists i.
  by rewrite lookup_zip_with, Hx, Hm.
Qed.

Lemma select_length {A B} (f : list A) (g : list B) mask :
  length f = length g →
  length (fst <$> filter (λ p : A * bool, p.2 = true) (zip f mask))
  = length (fst <$> filter (λ p : B * bool, p.2 = true) (zip g mask)).
Proof.
  revert f g. induction mask as [|b mask IH]; intros f g Hlen.
  - by destruct f, g.
  - destruct f as [|x f], g as [|z g]; try done.
    rewrite !select_cons, !length_app, (IH f g) by (simpl in Hlen; lia).
    by destruct b.
Qed.

Lemma Qsum_binary (l : list Q) :
  Forall (λ v, v == 0 ∨ v == 1) l →
  0 <= Qsum l ∧ Qsum l <= inject_Z (Z.of_nat (length l))
  ∧ (Qsum l == 0 ↔ Forall (λ v, v == 0) l)
  ∧ (Qsum l == inject_Z (Z.of_nat (length l)) ↔ Forall (λ v, v == 1) l).
Proof.
  induction 1 as [|v l Hv _ (IH0 & IH1 & IHz & IHa)].
  - simpl. repeat split; try done; try lra.
  - cbn [Qsum foldr length]. fold (Qsum l).
    rewrite Nat2Z.inj_succ, <- Z.add_1_r, inject_Z_plus.
    change (inject_Z 1) with 1.
    split; [destruct Hv; lra|]. split; [destruct Hv; lra|]. split.
    + split.
      * intros Hs. constructor; [destruct Hv; lra|]. apply IHz. destruct Hv; lra.
      * intros [Hv0 Hl]%Forall_cons. apply IHz in Hl. lra.
    + split.
      * intros Hs. constructor; [destruct Hv; lra|]. apply IHa. destruct Hv; lra.
      * intros [Hv0 Hl]%Forall_cons. apply IHa in Hl. lra.
Qed.
End Training.

Section TrainingMask.
Import Santander.
Local Open Scope Q_scope.

Lemma Qsum_one_exists (l : list Q) :
  Forall (λ v, v == 0 ∨ v == 1) l →
  ¬ Qsum l == 0 ↔ ∃ v, v ∈ l ∧ v == 1.
Proof.
  intros Hl. destruct (Qsum_binary l Hl) as (_ & _ & Hz & _). rewrite Hz.
  clear Hz. induction Hl as [|v l Hv _ IH].
  - split; [intros H; by destruct H|]. intros (v & Hv & _).
    by apply not_elem_of_nil in Hv.
  - rewrite Forall_cons. split.
    + intros Hn. destruct Hv as [Hv|Hv].
      * destruct (proj1 IH) as (w & Hw & Hw1); [tauto|].
        exists w. split; [by right|done].
      * exists v. split; [by left|done].
    + intros (w & [->|Hw]%elem_of_cons & Hw1) [H0 Hall].
      * lra.
      * apply (proj2 IH); eauto.
Qed.

Lemma row_binary (y : label_table) i :
  Forall (λ c, Forall (λ v, v == 0 ∨ v == 1) c.2) y →
  Forall (λ v, v == 0 ∨ v == 1) ((λ c, score_at c.2 i) <$> y).
Proof.
  intros Hy. rewrite Forall_fmap. eapply Forall_impl; [exact Hy|].
  intros [pr col] Hcol. simpl in *. unfold score_at. rewrite nth_lookup.
  destruct (col !! i) as [v|] eqn:E; simpl; [|by left].
  rewrite Forall_forall in Hcol. by eapply Hcol, list_elem_of_lookup_2.
Qed.

Lemma shape0_rows (y : label_table) n :
  y ≠ [] → Forall (λ c, length c.2 = n) y → shape0 y = n.
Proof. intros Hne Hy. destruct Hy; [done|]. done. Qed.

Lemma mask_length (y : label_table) n :
  y ≠ [] → Forall (λ c, length c.2 = n) y →
  length (nonzero (new_products y)) = n.
Proof.
  intros Hne Hy. unfold nonzero, new_products.
  by rewrite !length_fmap, length_seq, (shape0_rows y n).
Qed.

(** The mask holds at the rows that have a label 1. *)
Lemma mask_true (y : label_table) n i :
  y ≠ [] → Forall (λ c, length c.2 = n) y →
  Forall (λ c, Forall (λ v, v == 0 ∨ v == 1) c.2) y →
  nonzero (new_products y) !! i = Some true
  ↔ ∃ pr col v, (pr, col) ∈ y ∧ col !! i = Some v ∧ v == 1.
Proof.
  intros Hne Hlen Hbin. unfold nonzero, new_products.
  rewrite !list_lookup_fmap, (shape0_rows y n) by done.
  destruct (decide (i < n)%nat) as [Hi|Hi].
  - rewrite lookup_seq_lt by done. simpl.
    pose proof (Qsum_one_exists _ (row_binary y i Hbin)) as Hsum.
    split.
    + intros [= Hneg]. apply negb_true_iff, Qeq_bool_neq in Hneg.
      apply Hsum in Hneg as (v & Hv & Hv1).
      apply list_elem_of_fmap in Hv as ([pr col] & -> & Hc).
      exists pr, col, (score_at col i). split; [done|]. split; [|done].
      unfold score_at. rewrite nth_lookup.
      rewrite Forall_forall in Hlen. specialize (Hlen _ Hc). simpl in Hlen.
      destruct (lookup_lt_is_Some_2 col i) as [w Hw]; [lia|]. by rewrite Hw.
    + intros (pr & col & v & Hc & Hv & Hv1). do 2 f_equal.
      apply negb_true_iff. apply not_true_is_false. intros Heq.
      apply Qeq_bool_eq in Heq. revert Heq. apply Hsum.
      exists v. split; [|done]. apply list_elem_of_fmap.
      exists (pr, col). split; [|done]. simpl. unfold score_at.
      by rewrite nth_lookup, Hv.
  - rewrite lookup_seq_ge by lia. simpl. split; [done|].
    intros (pr & col & v & Hc & Hv & _). exfalso. apply Hi.
    rewrite Forall_forall in Hlen. specialize (Hlen _ Hc). simpl in Hlen.
    rewrite <- Hlen. by eapply lookup_lt_Some.
Qed.

Lemma getitem_mask_table_Some (y : label_table) n mask :
  Forall (λ c, length c.2 = n) y → length mask = n →
  getitem_mask_table y mask
  = Some ((λ c, (c.1, fst <$> filter (λ p : Q * bool, p.2 = true) (zip c.2 mask)))
          <$> y).
Proof.
  intros Hy Hm. unfold getitem_mask_table. apply mapM_Some.
  apply Forall2_fmap_r, Forall_Forall2_diag.
  eapply Forall_impl; [exact Hy|]. intros c Hc. simpl in *.
  unfold getitem_mask. by rewrite decide_True by lia.
Qed.
End TrainingMask.

(** X13.  The filter of the training set, [Xtrain[new_products!=0]] and
    [ytrain[new_products!=0]], on a label table with at least one column,
    [n] rows and entries 0 or 1.  A feature table with more rows than the
    label table makes the filter fail.  With [n] rows it succeeds: the
    label table keeps its columns, features and labels have the same number
    of rows and stay aligned (the [j]-th row kept of the features and the
    [j]-th entry kept of every label column come from one and the same row
    of the input), every row kept has a label 1, and no row with a label 1
    is dropped. *)
Theorem training_filter_keeps_buyers
    (X : list (list (option Q))) (y : Santander.label_table) (n : nat) :
  y ≠ [] →
  Forall (λ c, length c.2 = n) y →
  Forall (λ c, Forall (λ v, (v == 0)%Q ∨ (v == 1)%Q) c.2) y →
  (n < length X → Santander.training_filter X y = None)
  ∧ (length X = n →
     ∃ X' y',
       Santander.training_filter X y = Some (X', y')
       ∧ fst <$> y' = fst <$> y
       ∧ Forall (λ c, length c.2 = length X') y'
       ∧ (∀ j x, X' !! j = Some x →
            ∃ i, X !! i = Some x
              ∧ (∀ k pr col, y !! k = Some (pr, col) →
                   ∃ col', y' !! k = Some (pr, col') ∧ col' !! j = col !! i)
              ∧ ∃ pr col v, (pr, col) ∈ y ∧ col !! i = Some v ∧ (v == 1)%Q)
       ∧ (∀ i x pr col v,
            X !! i = Some x → (pr, col) ∈ y → col !! i = Some v → (v == 1)%Q →
            x ∈ X')).
Proof.
  intros Hne Hlen Hbin.
  pose proof (mask_length y n Hne Hlen) as Hmask.
  unfold Santander.training_filter. split.
  - intros HX. unfold Santander.getitem_mask at 1.
    by rewrite decide_False by lia.
  - intros HX. unfold Santander.getitem_mask at 1.
    rewrite decide_True by lia.
    rewrite (getitem_mask_table_Some y n) by done.
    set (mask := Santander.nonzero (Santander.new_products y)) in *.
    eexists _, _. split; [done|]. split; [|split; [|split]].
    + rewrite <- list_fmap_compose. by apply list_fmap_ext.
    + rewrite Forall_fmap. eapply Forall_impl; [exact Hlen|].
      intros [pr col] Hc. simpl in *. apply select_length. lia.
    + intros j x Hj. rewrite select_lookup in Hj.
      destruct (Santander.nth_true mask j) as [i|] eqn:Hi; [|done].
      simpl in Hj. exists i. split; [done|]. split.
      * intros k pr col Hk.
        exists (fst <$> filter (λ p : Q * bool, p.2 = true) (zip col mask)).
        split; [|by rewrite (select_lookup col mask j), Hi].
        apply list_lookup_fmap_Some. by exists (pr, col).
      * apply (mask_true y n i Hne Hlen Hbin).
        by apply (nth_true_holds mask j).
    + intros i x pr col v Hx Hc Hv Hv1. apply (select_elem X mask i x Hx).
      apply (mask_true y n i Hne Hlen Hbin). by exists pr, col, v.
Qed.

Lemma sample_labels :
  Santander.get_new_products Sample.june Sample.may
  = [ ("ind_recibo_ult1"%string, [0 # 1; 0 # 1]%Q);
      ("ind_cco_fin_ult1"%string, [0 # 1; 1 # 1]%Q);
      ("ind_nom_pens_ult1"%string, [0 # 1; 0 # 1]%Q);
      ("ind_nomina_ult1"%string, [0 # 1; 0 # 1]%Q);
      ("ind_tjcr_fin_ult1"%string, [0 # 1; 0 # 1]%Q);
      ("ind_ecue_fin_ult1"%string, [0 # 1; 0 # 1]%Q);
      ("ind_cno_fin_ult1"%string, [0 # 1; 0 # 1]%Q);
      ("ind_ctma_fin_ult1"%string, [0 # 1; 0 # 1]%Q);
      ("ind_reca_fin_ult1"%string, [0 # 1; 0 # 1]%Q);
      ("ind_ctop_fin_ult1"%string, [0 # 1; 0 # 1]%Q);
      ("ind_ctpp_fin_ult1"%string, [0 # 1; 0 # 1]%Q);
      ("ind_valo_fin_ult1"%string, [0 # 1; 0 # 1]%Q) ].
Proof. vm_compute. reflexivity. Qed.
Lemma training_filter_keeps_buyers_witness :
  let y := Santander.get_new_products Sample.june Sample.may in
  let X : list (list (option Q)) := [[Some 1%Q]; [Some 2%Q]] in
  (2 < length X → Santander.training_filter X y = None)
  ∧ (length X = 2 →
     ∃ X' y',
       Santander.training_filter X y = Some (X', y')
       ∧ fst <$> y' = fst <$> y
       ∧ Forall (λ c, length c.2 = length X') y'
       ∧ (∀ j x, X' !! j = Some x →
            ∃ i, X !! i = Some x
              ∧ (∀ k pr col, y !! k = Some (pr, col) →
                   ∃ col', y' !! k = Some (pr, col') ∧ col' !! j = col !! i)
              ∧ ∃ pr col v, (pr, col) ∈ y ∧ col !! i = Some v ∧ (v == 1)%Q)
       ∧ (∀ i x pr col v,
            X !! i = Some x → (pr, col) ∈ y → col !! i = Some v → (v == 1)%Q →
            x ∈ X')).
Proof.
  intros y X. apply (training_filter_keeps_buyers X y 2).
  - unfold y. rewrite sample_labels. discriminate.
  - unfold y. rewrite sample_labels. repeat constructor.
  - unfold y. rewrite sample_labels.
    repeat (constructor;
            [repeat (constructor; [(by left) || (by right)|]);
             constructor|]).
    constructor.
Defined.

(** Of the two customers of the sample only the second has a new product;
    a feature table of three rows cannot be filtered. *)
Example training_filter_sample :
  let y := Santander.get_new_products Sample.june Sample.may in
  (fst <$> Santander.training_filter [[Some 1%Q]; [Some 2%Q]] y)
  = Some [[Some 2%Q]]
  ∧ Santander.training_filter [[Some 1%Q]; [Some 2%Q]; [Some 3%Q]] y = None.
Proof. split; vm_compute; reflexivity. Qed.

(** ** The prior given to a classifier (Santander) *)

Section BaseScore.
Import Santander.
Local Open Scope Q_scope.

Lemma find_column (y : label_table) pr col :
  NoDup (fst <$> y) → (pr, col) ∈ y →
  find (λ c : string * list Q, bool_decide (c.1 = pr)) y = Some (pr, col).
Proof.
  induction y as [|[pr' col'] y IH]; intros Hnd Hin.
  - by apply not_elem_of_nil in Hin.
  - rewrite fmap_cons in Hnd. apply NoDup_cons in Hnd as [Hnotin Hnd].
    simpl. case_bool_decide as Hpr; simpl in Hpr.
    + apply elem_of_cons in Hin as [[= -> ->]|Hin]; [done|].
      exfalso. apply Hnotin. subst pr'.
      apply list_elem_of_fmap. by exists (pr, col).
    + apply elem_of_cons in Hin as [[= -> ->]|Hin]; [done|]. by apply IH.
Qed.

Lemma find_no_column (y : label_table) pr :
  pr ∉ fst <$> y →
  find (λ c : string * list Q, bool_decide (c.1 = pr)) y = None.
Proof.
  induction y as [|[pr' col'] y IH]; intros Hnotin; [done|].
  rewrite fmap_cons in Hnotin. apply not_elem_of_cons in Hnotin as [Hne Hnotin].
  simpl in *. rewrite bool_decide_false by congruence. by apply IH.
Qed.

Lemma ratio_range (f n : Q) :
  0 < n → 0 <= f → f <= n →
  0 <= f / n ∧ f / n <= 1
  ∧ (f / n == 0 ↔ f == 0) ∧ (f / n == 1 ↔ f == n).
Proof.
  intros Hn H0 H1.
  assert (n * (f / n) == f) as Hf by (apply Qmult_div_r; lra).
  split; [apply Qle_shift_div_l; lra|].
  split; [apply Qle_shift_div_r; lra|].
  split; split; intros H.
  - rewrite H in Hf. lra.
  - rewrite H. unfold Qdiv. lra.
  - rewrite H in Hf. lra.
  - rewrite H. apply Qmult_inv_r. lra.
Qed.
End BaseScore.

(** X14.  [base_score = freq[pr]/Xtrain.shape[0]], the label table having
    distinct column names, as many rows as [Xtrain] and entries 0 or 1.  A
    name that is no column raises.  With no training row the quotient is
    no number, for every product.  Otherwise it is the share of the rows
    with label 1 for the product: a number from 0 to 1, both ends
    included; it is 0 exactly when no row has the product as a new one, and
    1 exactly when every row has. *)
Theorem base_score_is_share
    (Xtrain : list (list (option Q))) (ytrain : Santander.label_table) :
  NoDup (fst <$> ytrain) →
  Forall (λ c, length c.2 = length Xtrain) ytrain →
  Forall (λ c, Forall (λ v, (v == 0)%Q ∨ (v == 1)%Q) c.2) ytrain →
  (∀ pr, pr ∉ fst <$> ytrain → Santander.base_score Xtrain ytrain pr = None)
  ∧ (∀ pr col, (pr, col) ∈ ytrain →
       (Xtrain = [] → Santander.base_score Xtrain ytrain pr = Some None)
       ∧ (Xtrain ≠ [] →
          ∃ b, Santander.base_score Xtrain ytrain pr = Some (Some b)
            ∧ (0 <= b)%Q ∧ (b <= 1)%Q
            ∧ ((b == 0)%Q ↔ Forall (λ v, (v == 0)%Q) col)
            ∧ ((b == 1)%Q ↔ Forall (λ v, (v == 1)%Q) col))).
Proof.
  intros Hnd Hlen Hbin. unfold Santander.base_score, Santander.freq. split.
  - intros pr Hpr. by rewrite find_no_column.
  - intros pr col Hin. rewrite (find_column ytrain pr col Hnd Hin). simpl.
    rewrite Forall_forall in Hlen, Hbin.
    specialize (Hlen _ Hin). specialize (Hbin _ Hin). simpl in Hlen, Hbin.
    destruct (Qsum_binary col Hbin) as (H0 & H1 & Hz & Ha).
    rewrite Hlen in H1, Ha. split.
    + intros ->. done.
    + intros Hne. unfold MovieLens.float_div.
      assert (0 < inject_Z (Z.of_nat (length Xtrain)))%Q as Hn.
      { destruct Xtrain; [done|]. rewrite <- (Zlt_Qlt 0). simpl. lia. }
      destruct (Qeq_bool _ 0) eqn:E.
      { apply Qeq_bool_eq in E. lra. }
      eexists. split; [done|].
      destruct (ratio_range (Qsum col) _ Hn H0 H1) as (R0 & R1 & Rz & Ra).
      split; [done|]. split; [done|]. split.
      * by rewrite Rz.
      * by rewrite Ra.
Qed.

Lemma base_score_is_share_witness :
  let Xtrain : list (list (option Q)) := [[Some 1%Q]; [Some 2%Q]] in
  let ytrain : Santander.label_table :=
    [ ("ind_recibo_ult1"%string, [1; 0]%Q);
      ("ind_cco_fin_ult1"%string, [0; 0]%Q) ] in
  (∀ pr, pr ∉ fst <$> ytrain → Santander.base_score Xtrain ytrain pr = None)
  ∧ (∀ pr col, (pr, col) ∈ ytrain →
       (Xtrain = [] → Santander.base_score Xtrain ytrain pr = Some None)
       ∧ (Xtrain ≠ [] →
          ∃ b, Santander.base_score Xtrain ytrain pr = Some (Some b)
            ∧ (0 <= b)%Q ∧ (b <= 1)%Q
            ∧ ((b == 0)%Q ↔ Forall (λ v, (v == 0)%Q) col)
            ∧ ((b == 1)%Q ↔ Forall (λ v, (v == 1)%Q) col))).
Proof.
  intros Xtrain ytrain. apply (base_score_is_share Xtrain ytrain).
  - repeat constructor; set_solver.
  - repeat constructor.
  - repeat (constructor;
            [repeat (constructor; [(by left) || (by right)|]);
             constructor|]).
    constructor.
Defined.

Example base_score_sample :
  Santander.base_score [[Some 1%Q]; [Some 2%Q]]
    [("ind_recibo_ult1"%string, [1; 0]%Q)] "ind_recibo_ult1"
  = Some (Some ((1 + (0 + 0)) / 2)%Q)
  ∧ Santander.base_score [] [("ind_recibo_ult1"%string, [])] "ind_recibo_ult1"
    = Some None
  ∧ Santander.base_score [] [("ind_recibo_ult1"%string, [])] "ind_cco_fin_ult1"
    = None.
Proof. split; [|split]; reflexivity. Qed.

(** ** The classifiers (Santander) *)

Section ClassifierDict.
Import Santander.
Context {classifier : Type}.
Variable XGBClassifier : option Q → classifier.
Variable fit : classifier → list (list (option Q)) → list Q → option classifier.
Variable Xtrain : list (list (option Q)).
Variable ytrain : label_table.

Lemma train_fold_None (l : list string) :
  foldl (λ (acc : option (gmap string classifier)) pr,
           match acc, base_score Xtrain ytrain pr, loc_column ytrain pr with
           | Some clfdict, Some base, Some col =>
               match fit (XGBClassifier base) Xtrain col with
               | Some clf => Some (<[pr := clf]> clfdict)
               | None => None
               end
           | _, _, _ => None
           end) None l = None.
Proof. induction l as [|pr l IH]; [done|]. simpl. apply IH. Qed.

(** The loop, one product of the list after the other: it gets through
    exactly when every product has a column and a classifier that can be
    fitted, and the dict then holds these classifiers. *)
Lemma train_fold (l : list string) (d0 : gmap string classifier) :
  match foldl (λ (acc : option (gmap string classifier)) pr,
                 match acc, base_score Xtrain ytrain pr,
                       loc_column ytrain pr with
                 | Some clfdict, Some base, Some col =>
                     match fit (XGBClassifier base) Xtrain col with
                     | Some clf => Some (<[pr := clf]> clfdict)
                     | None => None
                     end
                 | _, _, _ => None
                 end) (Some d0) l with
  | Some d =>
      (∀ pr, pr ∈ l →
         ∃ base col clf,
           base_score Xtrain ytrain pr = Some base
           ∧ loc_column ytrain pr = Some col
           ∧ fit (XGBClassifier base) Xtrain col = Some clf
           ∧ d !! pr = Some clf)
      ∧ ∀ pr, pr ∉ l → d !! pr = d0 !! pr
  | None =>
      ∃ pr, pr ∈ l
        ∧ ∀ base col,
            base_score Xtrain ytrain pr = Some base →
            loc_column ytrain pr = Some col →
            fit (XGBClassifier base) Xtrain col = None
  end.
Proof.
  revert d0. induction l as [|pr0 l IH]; intros d0.
  - simpl. split; [by intros pr ?%not_elem_of_nil|done].
  - simpl.
    destruct (base_score Xtrain ytrain pr0) as [base|] eqn:Hbase;
      [|rewrite train_fold_None; exists pr0;
        split; [by left|intros ? ? ? ?; congruence]].
    destruct (loc_column ytrain pr0) as [col|] eqn:Hcol;
      [|rewrite train_fold_None; exists pr0;
        split; [by left|intros ? ? ? ?; congruence]].
    destruct (fit (XGBClassifier base) Xtrain col) as [clf|] eqn:Hfit.
    2:{ rewrite train_fold_None. exists pr0. split; [by left|].
        intros base' col' ? ?. congruence. }
    specialize (IH (<[pr0 := clf]> d0)).
    destruct (foldl _ (Some (<[pr0 := clf]> d0)) l) as [d|].
    + destruct IH as [Hin Hout]. split.
      * intros pr [->|Hpr]%elem_of_cons; [|by apply Hin].
        destruct (decide (pr0 ∈ l)) as [Hl|Hl]; [by apply Hin|].
        exists base, col, clf. repeat (split; [done|]).
        by rewrite (Hout pr0 Hl), lookup_insert_eq.
      * intros pr [Hne Hl]%not_elem_of_cons.
        by rewrite (Hout pr Hl), lookup_insert_ne.
    + destruct IH as (pr & Hpr & Hfail). exists pr. split; [by right|done].
Qed.
End ClassifierDict.

(** X15.  The dict of classifiers, the label table having the columns
    [rec_products].  The training loop gets through exactly when the fit
    of every product succeeds.  The dict then has exactly the keys
    [rec_products], and the loop over the test set finds every classifier:
    [probs] has one vector per product, in the order of [rec_products], and
    the vector of a product comes from the classifier that was built with
    the [base_score] of that product and fitted on the label column of that
    product.  Since the library refuses to fit with a [base_score] that is
    not strictly between 0 and 1, the loop gets through only when every
    [base_score] is; it raises when one of them is 0, 1 or no number.  It
    also raises when a product has no column in the label table. *)
Theorem classifiers_cover_products {classifier : Type}
    (XGBClassifier : option Q → classifier)
    (fit : classifier → list (list (option Q)) → list Q → option classifier)
    (predict_proba1 : classifier → list (list (option Q)) → list Q)
    (Xtrain : list (list (option Q))) (ytrain : Santander.label_table) :
  (fst <$> ytrain = Santander.rec_products →
   (is_Some (Santander.train_classifiers classifier XGBClassifier fit
               Xtrain ytrain)
    ↔ ∀ pr col, (pr, col) ∈ ytrain →
        ∃ base, Santander.base_score Xtrain ytrain pr = Some base
                ∧ is_Some (fit (XGBClassifier base) Xtrain col))
   ∧ (∀ clfdict,
        Santander.train_classifiers classifier XGBClassifier fit Xtrain ytrain
        = Some clfdict →
        dom clfdict = (list_to_set Santander.rec_products : gset string)
        ∧ ∀ Xtest,
            ∃ probs,
              Santander.predict_test classifier predict_proba1 clfdict Xtest
              = Some probs
              ∧ length probs = length Santander.rec_products
              ∧ ∀ k pr col, ytrain !! k = Some (pr, col) →
                  ∃ base clf,
                    Santander.base_score Xtrain ytrain pr = Some base
                    ∧ fit (XGBClassifier base) Xtrain col = Some clf
                    ∧ clfdict !! pr = Some clf
                    ∧ probs !! k = Some (predict_proba1 clf Xtest))
   ∧ (Santander.fit_checks_base_score classifier XGBClassifier fit →
      (is_Some (Santander.train_classifiers classifier XGBClassifier fit
                  Xtrain ytrain) →
       ∀ pr, pr ∈ Santander.rec_products →
         ∃ b, Santander.base_score Xtrain ytrain pr = Some (Some b)
              ∧ (0 < b)%Q ∧ (b < 1)%Q)
      ∧ ∀ pr, pr ∈ Santander.rec_products →
          (Santander.base_score Xtrain ytrain pr = Some None
           ∨ ∃ b, Santander.base_score Xtrain ytrain pr = Some (Some b)
                  ∧ ((b == 0)%Q ∨ (b == 1)%Q)) →
          Santander.train_classifiers classifier XGBClassifier fit
            Xtrain ytrain = None))
  ∧ (∀ pr, pr ∈ Santander.rec_products → pr ∉ fst <$> ytrain →
       Santander.train_classifiers classifier XGBClassifier fit Xtrain ytrain
       = None).
Proof.
  pose proof (train_fold XGBClassifier fit Xtrain ytrain
                Santander.rec_products ∅) as Hfold.
  fold (Santander.train_classifiers classifier XGBClassifier fit Xtrain ytrain)
    in Hfold.
  split.
  - intros Hy.
    assert (NoDup (fst <$> ytrain)) as Hnd
      by (rewrite Hy; apply rec_products_NoDup).
    assert (∀ pr col, (pr, col) ∈ ytrain →
              pr ∈ Santander.rec_products
              ∧ Santander.loc_column ytrain pr = Some col) as Hloc.
    { intros pr col Hin. split.
      - rewrite <- Hy. apply list_elem_of_fmap. by exists (pr, col).
      - unfold Santander.loc_column.
        by rewrite (find_column ytrain pr col Hnd Hin). }
    assert (∀ pr, pr ∈ Santander.rec_products → ∃ col, (pr, col) ∈ ytrain)
      as Hcol.
    { intros pr Hpr. rewrite <- Hy in Hpr.
      apply list_elem_of_fmap in Hpr as ([pr' col] & -> & Hin). eauto. }
    assert (is_Some (Santander.train_classifiers classifier XGBClassifier fit
                       Xtrain ytrain) →
            ∀ pr col, (pr, col) ∈ ytrain →
              ∃ base, Santander.base_score Xtrain ytrain pr = Some base
                      ∧ is_Some (fit (XGBClassifier base) Xtrain col))
      as Hthrough.
    { intros [d Hd] pr col Hin. rewrite Hd in Hfold.
      destruct Hfold as [Hall _]. destruct (Hloc pr col Hin) as [Hpr Hc].
      destruct (Hall pr Hpr) as (base & col' & clf & Hb & Hc' & Hfit & _).
      exists base. split; [done|]. assert (col' = col) as -> by congruence.
      eauto. }
    split; [|split].
    + split; [exact Hthrough|]. intros Hall.
      destruct (Santander.train_classifiers classifier XGBClassifier fit
                  Xtrain ytrain) as [d|]; [eauto|].
      destruct Hfold as (pr & Hpr & Hfail). exfalso.
      destruct (Hcol pr Hpr) as [col Hin].
      destruct (Hall pr col Hin) as (base & Hbase & [clf Hfit]).
      destruct (Hloc pr col Hin) as [_ Hc].
      by rewrite (Hfail base col Hbase Hc) in Hfit.
    + intros d Hd. rewrite Hd in Hfold. destruct Hfold as [Hall Hout]. split.
      { apply set_eq. intros pr. rewrite elem_of_dom, elem_of_list_to_set.
        split.
        - intros Hsome.
          destruct (decide (pr ∈ Santander.rec_products)) as [|Hn]; [done|].
          rewrite (Hout pr Hn), lookup_empty in Hsome. by destruct Hsome.
        - intros Hpr. destruct (Hall pr Hpr) as (? & ? & clf & _ & _ & _ & ?).
          eauto. }
      intros Xtest.
      destruct (mapM_is_Some_2
                  (λ pr, match d !! pr with
                         | Some clf => Some (predict_proba1 clf Xtest)
                         | None => None
                         end) Santander.rec_products) as [probs Hprobs].
      { apply Forall_forall. intros pr Hpr. simpl.
        destruct (Hall pr Hpr) as (? & ? & clf & _ & _ & _ & Hd').
        rewrite Hd'. eauto. }
      exists probs. split; [exact Hprobs|].
      pose proof (mapM_Some_1 _ _ _ Hprobs) as HF.
      split; [symmetry; by eapply Forall2_length|].
      intros k pr col Hk.
      destruct (Hloc pr col (list_elem_of_lookup_2 _ _ _ Hk)) as [Hpr Hc].
      destruct (Hall pr Hpr) as (base & col' & clf & Hb & Hc' & Hfit & Hd').
      assert (col' = col) as -> by congruence.
      exists base, clf. repeat (split; [done|]).
      assert (Santander.rec_products !! k = Some pr) as Hrec.
      { rewrite <- Hy. apply list_lookup_fmap_Some. by exists (pr, col). }
      destruct (Forall2_lookup_l _ _ _ _ _ HF Hrec) as (v & Hv & Hpv).
      rewrite Hd' in Hpv. by rewrite Hv, Hpv.
    + intros Hcheck.
      assert (is_Some (Santander.train_classifiers classifier XGBClassifier fit
                         Xtrain ytrain) →
              ∀ pr, pr ∈ Santander.rec_products →
                ∃ b, Santander.base_score Xtrain ytrain pr = Some (Some b)
                     ∧ (0 < b)%Q ∧ (b < 1)%Q) as Hrange.
      { intros Hs pr Hpr. destruct (Hcol pr Hpr) as [col Hin].
        destruct (Hthrough Hs pr col Hin) as (base & Hbase & Hfit).
        destruct (Hcheck base Xtrain col Hfit) as (b & -> & H0 & H1).
        by exists b. }
      split; [exact Hrange|].
      intros pr Hpr Hbad.
      destruct (Santander.train_classifiers classifier XGBClassifier fit
                  Xtrain ytrain) as [d|] eqn:Hd; [|done].
      exfalso. destruct (Hrange ltac:(eauto) pr Hpr) as (b & Hb & H0 & H1).
      destruct Hbad as [Hnan|(b' & Hb' & Hends)]; [congruence|].
      assert (b' = b) as -> by congruence.
      destruct Hends as [E|E]; rewrite E in *; lra.
  - intros pr Hpr Hnot.
    destruct (Santander.train_classifiers classifier XGBClassifier fit
                Xtrain ytrain) as [d|]; [|done].
    exfalso. destruct Hfold as [Hall _].
    destruct (Hall pr Hpr) as (_ & col & _ & _ & Hc & _).
    unfold Santander.loc_column in Hc. by rewrite find_no_column in Hc.
Qed.

Lemma sample_fit_checks :
  Santander.fit_checks_base_score (option Q * list Q)
    Sample.XGBClassifier Sample.fit.
Proof.
  intros [b|] X col; unfold Sample.fit; simpl; [|by intros [? ?]].
  destruct (Qltb 0 b) eqn:E0; simpl; [|by intros [? ?]].
  destruct (Qltb b 1) eqn:E1; simpl; [|by intros [? ?]].
  intros _. exists b. split; [done|]. split; by apply Qltb_lt.
Qed.

Lemma classifiers_cover_products_witness :
  let X : list (list (option Q)) := [[Some 1%Q]; [Some 2%Q]] in
  let y := Sample.labels in
  let train :=
    Santander.train_classifiers (option Q * list Q) Sample.XGBClassifier
      Sample.fit X y in
  (is_Some train
   ↔ ∀ pr col, (pr, col) ∈ y →
       ∃ base, Santander.base_score X y pr = Some base
               ∧ is_Some (Sample.fit (Sample.XGBClassifier base) X col))
  ∧ (∀ clfdict, train = Some clfdict →
       dom clfdict = (list_to_set Santander.rec_products : gset string)
       ∧ ∀ Xtest,
           ∃ probs,
             Santander.predict_test (option Q * list Q) Sample.predict
               clfdict Xtest = Some probs
             ∧ length probs = length Santander.rec_products
             ∧ ∀ k pr col, y !! k = Some (pr, col) →
                 ∃ base clf,
                   Santander.base_score X y pr = Some base
                   ∧ Sample.fit (Sample.XGBClassifier base) X col = Some clf
                   ∧ clfdict !! pr = Some clf
                   ∧ probs !! k = Some (Sample.predict clf Xtest))
  ∧ (Santander.fit_checks_base_score (option Q * list Q)
       Sample.XGBClassifier Sample.fit →
     (is_Some train →
      ∀ pr, pr ∈ Santander.rec_products →
        ∃ b, Santander.base_score X y pr = Some (Some b)
             ∧ (0 < b)%Q ∧ (b < 1)%Q)
     ∧ ∀ pr, pr ∈ Santander.rec_products →
         (Santander.base_score X y pr = Some None
          ∨ ∃ b, Santander.base_score X y pr = Some (Some b)
                 ∧ ((b == 0)%Q ∨ (b == 1)%Q)) →
         train = None).
Proof.
  intros X y train.
  apply (proj1 (classifiers_cover_products Sample.XGBClassifier Sample.fit
                  Sample.predict X y)).
  vm_compute. reflexivity.
Defined.

(** With the labels of the sample only one product has a new buyer: the
    [base_score] of the others is 0 and the loop stops at the first fit.
    With a buyer and a non-buyer for every product it gets through. *)
Example classifiers_sample :
  Santander.train_classifiers (option Q * list Q) Sample.XGBClassifier
    Sample.fit [[Some 1%Q]; [Some 2%Q]]
    (Santander.get_new_products Sample.june Sample.may) = None
  ∧ (size <$> Santander.train_classifiers (option Q * list Q)
                Sample.XGBClassifier Sample.fit [[Some 1%Q]; [Some 2%Q]]
                Sample.labels) = Some 12.
Proof. split; vm_compute; reflexivity. Qed.
